(** * Host-assisted PVC clone reconciler and upload proxy

    A shallow embedding of [pkg/controller/clone-controller.go] and of the
    upload proxy ([package uploadproxy]) of containerized-data-importer,
    with the properties of their specification stated and proved over it.

    Go values are modelled as follows.
    - [string] is Go's byte string (one [ascii] per byte).
    - [map[string]string] is [gmap string string]; reading a key that is
      absent yields the empty string ([index]).  A nil map reads like an
      empty one.  The source assigns into [pvc.Annotations] only in
      [updatePvcFromPod], which [Reconcile] reaches for a claim that carries
      the CloneRequest annotation, so the map is not nil where it is
      written.
    - a slice is a [list]; where the source tests a slice against [nil]
      the field is an [option (list _)] ([None] is the nil slice).
    - [(T, error)] results are [result T]; a nil [error] alone is
      [option error] with [None] for nil.
    - a run-time panic (nil dereference, index out of range) is an explicit
      outcome of the effectful functions. *)

From Stdlib Require Import ZArith Ascii String DecimalString DecimalPos.
From stdpp Require Import base option list gmap strings.

Local Open Scope string_scope.
Local Open Scope Z_scope.

(** ** Go's error values *)

(** [errors.New]/[errors.Errorf]/[fmt.Errorf] make [errorString]; the API
    client's status errors keep their reason, which [k8serrors.IsNotFound]
    inspects; [errors.Wrap] keeps the cause. *)
Inductive error : Type :=
  | errorString (msg : string)
  | StatusNotFound (name : string)
  | StatusAlreadyExists (name : string)
  | Wrap (cause : error) (msg : string).

Definition IsNotFound (e : error) : bool :=
  match e with StatusNotFound _ => true | _ => false end.

Inductive result (A : Type) : Type :=
  | Ok (a : A)
  | Err (e : error).
Arguments Ok {A} a.
Arguments Err {A} e.

#[global] Instance error_eq_dec : EqDecision error.
Proof. solve_decision. Defined.

(** ** The pieces of Go's standard library the sources call *)

(** Reading a [map[string]string]: the zero value for an absent key. *)
Definition index (m : gmap string string) (k : string) : string :=
  default "" (m !! k).

(** [strings.Split(s, sep)] for a separator of one byte, which is how the
    source calls it ([strings.Split(ann, "/")]).  The result is never
    empty: a string without the separator is returned whole. *)
Fixpoint Split (s : string) (sep : ascii) : list string :=
  match s with
  | EmptyString => [EmptyString]
  | String c s' =>
      if Ascii.eqb c sep then EmptyString :: Split s' sep
      else match Split s' sep with
           | [] => [String c EmptyString]
           | w :: ws => String c w :: ws
           end
  end.

(** [strconv.ParseBool]: the twelve accepted spellings, an error for
    anything else. *)
Definition ParseBool (str : string) : result bool :=
  if bool_decide (str ∈ ["1"; "t"; "T"; "TRUE"; "true"; "True"]) then Ok true
  else if bool_decide (str ∈ ["0"; "f"; "F"; "FALSE"; "false"; "False"]) then Ok false
  else Err (errorString "strconv.ParseBool: invalid syntax").

(** [strconv.Itoa]: decimal digits, a leading minus sign for negatives. *)
Definition Itoa (i : Z) : string :=
  NilZero.string_of_int (Z.to_int i).

Definition maxInt64 : Z := 9223372036854775807.
Definition minInt64 : Z := -9223372036854775808.

(** [strconv.Atoi] on a 64-bit platform, as a pair (value, ok).  An
    optional sign followed by at least one decimal digit; a syntax error
    gives 0, a value out of range gives the nearest bound, both with an
    error. *)
Definition digits_value (s : string) : option Z :=
  match s with
  | EmptyString => None
  | _ => Z.of_N ∘ N.of_uint <$> NilEmpty.uint_of_string s
  end.

Definition Atoi (s : string) : Z * bool :=
  let '(neg, body) :=
    match s with
    | String "+" s' => (false, s')
    | String "-" s' => (true, s')
    | _ => (false, s)
    end in
  match digits_value body with
  | None => (0, false)
  | Some n =>
      let v := if neg : bool then - n else n in
      if v <? minInt64 then (minInt64, false)
      else if maxInt64 <? v then (maxInt64, false)
      else (v, true)
  end.

(** ** Kubernetes objects, as far as the two programs read them *)

(** Modelled from the spec: the type [corev1.PersistentVolumeMode] is
    declared outside this repository's sources; the specification knows the
    two modes block and filesystem and prints them as "Block" and
    "Filesystem". *)
Inductive PersistentVolumeMode : Type :=
  | PersistentVolumeBlock
  | PersistentVolumeFilesystem.

Definition mode_string (m : PersistentVolumeMode) : string :=
  match m with
  | PersistentVolumeBlock => "Block"
  | PersistentVolumeFilesystem => "Filesystem"
  end.

(** [Requests_storage] is [Resources.Requests[corev1.ResourceStorage]]
    through [Quantity.Value()], an int64; [None] when the key is absent, in
    which case Go reads the zero quantity. *)
Record PersistentVolumeClaimSpec : Type := {
  Requests_storage : option Z;
  VolumeMode : option PersistentVolumeMode
}.

Definition storage_Value (spec : PersistentVolumeClaimSpec) : Z :=
  default 0 (Requests_storage spec).

Record PersistentVolumeClaim : Type := {
  pvc_Namespace : string;
  pvc_Name : string;
  pvc_UID : string;
  pvc_Annotations : gmap string string;
  pvc_Finalizers : list string;
  pvc_Spec : PersistentVolumeClaimSpec
}.

Record ContainerStatus : Type := {
  RestartCount : Z (* int32 *)
}.

(** The pod: metadata and status that the reconciler reads, and the part
    of the spec that [MakeCloneSourcePodSpec] fills from values of this
    file (labels, annotations and environment entries whose keys or values
    are declared in package [common] are left out; nothing here reads
    them). *)
Record Pod : Type := {
  pod_Namespace : string;
  pod_Name : string;
  pod_Labels : gmap string string;
  pod_DeletionTimestamp : option Z;
  pod_Phase : string;
  pod_ContainerStatuses : option (list ContainerStatus);
  pod_Image : string;
  pod_ImagePullPolicy : string;
  pod_Env : list (string * string);
  pod_ContainerPort : string * Z;
  pod_RunAsUser : Z;
  pod_RestartPolicy : string;
  pod_ClaimName : string;
  pod_ReadOnly : bool;
  pod_BlockDevice : bool
}.

#[global] Instance PersistentVolumeMode_eq_dec : EqDecision PersistentVolumeMode.
Proof. solve_decision. Defined.
#[global] Instance PersistentVolumeClaimSpec_eq_dec : EqDecision PersistentVolumeClaimSpec.
Proof. solve_decision. Defined.
#[global] Instance PersistentVolumeClaim_eq_dec : EqDecision PersistentVolumeClaim.
Proof. solve_decision. Defined.
#[global] Instance ContainerStatus_eq_dec : EqDecision ContainerStatus.
Proof. solve_decision. Defined.
#[global] Instance Pod_eq_dec : EqDecision Pod.
Proof. solve_decision. Defined.

(** Modelled from the spec: the pod phases [corev1.PodSucceeded] and
    [corev1.PodRunning] are string constants declared outside the sources;
    the specification writes them Succeeded and Running. *)
Definition PodSucceeded : string := "Succeeded".
Definition PodRunning : string := "Running".

(** ** Tokens *)

(** Modelled from the spec: package [token] is not part of the sources.
    Its payload carries an operation (upload, clone, or another one), a
    name, a namespace, a resource and string parameters; a validator
    checks signature, issuer and time window and hands the payload out, or
    fails with one opaque error. *)
Inductive Operation : Type :=
  | OperationClone
  | OperationUpload
  | OperationOther (name : string).

Record GroupVersionResource : Type := {
  Group : string;
  Version : string;
  Resource : string
}.

Record Payload : Type := {
  payload_Operation : Operation;
  payload_Name : string;
  payload_Namespace : string;
  payload_Resource : GroupVersionResource;
  payload_Params : gmap string string
}.

#[global] Instance Operation_eq_dec : EqDecision Operation.
Proof. solve_decision. Defined.

(** [token.Validator], through its one method [Validate]. *)
Definition Validator : Type := string → result Payload.

(** ** The object API and the effects of a reconcile pass *)

(** The orchestrator's store, as the synchronous typed client shows it:
    the claims and the pods, each found by namespace and name.  Calls are
    answered from the store; this is the client the reconciler is given
    while no other actor writes. *)
Record Cluster : Type := {
  pvcs : list PersistentVolumeClaim;
  pods : list Pod
}.

(** What a pass does to the world: the writes the API accepted, and the
    events it recorded. *)
Inductive Effect : Type :=
  | CreatePod (pod : Pod)
  | DeletePod (namespace name : string)
  | UpdatePVC (pvc : PersistentVolumeClaim)
  | Event (namespace name eventtype reason message : string).

Definition is_write (e : Effect) : bool :=
  match e with Event _ _ _ _ _ => false | _ => true end.

Definition is_Event (e : Effect) : bool :=
  match e with Event _ _ _ _ _ => true | _ => false end.

(** How a Go function ends: it returns a value, returns a non-nil error,
    or panics. *)
Inductive outcome (A : Type) : Type :=
  | Return (a : A)
  | Fail (e : error)
  | Panic (msg : string).
Arguments Return {A} a.
Arguments Fail {A} e.
Arguments Panic {A} msg.

(** State (the cluster), output (the effects, oldest first) and the way
    the call ended. *)
Definition M (A : Type) : Type := Cluster → outcome A * Cluster * list Effect.

Definition ret {A} (a : A) : M A := λ c, (Return a, c, []).
Definition fail {A} (e : error) : M A := λ c, (Fail e, c, []).
Definition panic {A} (msg : string) : M A := λ c, (Panic msg, c, []).

Definition bind {A B} (m : M A) (f : A → M B) : M B := λ c,
  match m c with
  | (Return a, c', t) => let '(o, c'', t') := f a c' in (o, c'', (t ++ t')%list)
  | (Fail e, c', t) => (Fail e, c', t)
  | (Panic msg, c', t) => (Panic msg, c', t)
  end.

(** [v, err := f()] followed by a look at [err]: the error becomes a
    value. *)
Definition try {A} (m : M A) : M (result A) := λ c,
  match m c with
  | (Return a, c', t) => (Return (Ok a), c', t)
  | (Fail e, c', t) => (Return (Err e), c', t)
  | (Panic msg, c', t) => (Panic msg, c', t)
  end.

(** [if err := f(); err != nil { return errors.Wrap(err, msg) }] *)
Definition wrapping {A} (msg : string) (m : M A) : M A := λ c,
  match m c with
  | (Fail e, c', t) => (Fail (Wrap e msg), c', t)
  | r => r
  end.

Definition lift {A} (r : result A) : M A :=
  match r with Ok a => ret a | Err e => fail e end.

Definition check (e : option error) : M unit :=
  match e with None => ret tt | Some e => fail e end.

Declare Scope go_scope.
Delimit Scope go_scope with go.
Notation "'let*' x ':=' m 'in' k" := (bind m (λ x, k))
  (at level 10, x name, m at level 100, k at level 200, only parsing) : go_scope.
Notation "'exec' m 'then' k" := (bind m (λ _, k))
  (at level 10, m at level 100, k at level 200, only parsing) : go_scope.

Definition pvc_is (namespace name : string) (p : PersistentVolumeClaim) : bool :=
  bool_decide (pvc_Namespace p = namespace) && bool_decide (pvc_Name p = name).

Definition pod_is (namespace name : string) (p : Pod) : bool :=
  bool_decide (pod_Namespace p = namespace) && bool_decide (pod_Name p = name).

(** [Client.Get] of a claim. *)
Definition Client_Get (namespace name : string) : M PersistentVolumeClaim := λ c,
  match List.find (pvc_is namespace name) (pvcs c) with
  | Some p => (Return p, c, [])
  | None => (Fail (StatusNotFound name), c, [])
  end.

(** [Client.Update] of a claim: the stored object of that namespace and
    name is replaced. *)
Definition Client_Update (pvc : PersistentVolumeClaim) : M unit := λ c,
  if existsb (pvc_is (pvc_Namespace pvc) (pvc_Name pvc)) (pvcs c) then
    (Return tt,
     {| pvcs := map (λ p, if pvc_is (pvc_Namespace pvc) (pvc_Name pvc) p then pvc else p)
                    (pvcs c);
        pods := pods c |},
     [UpdatePVC pvc])
  else (Fail (StatusNotFound (pvc_Name pvc)), c, []).

(** [Client.List] of pods with [ListOptions{Namespace, LabelSelector}]
    for a selector of one [MatchLabels] pair; the empty namespace lists
    every namespace ([metav1.NamespaceAll]). *)
Definition selects (namespace key value : string) (p : Pod) : bool :=
  (bool_decide (namespace = "") || bool_decide (pod_Namespace p = namespace))
  && bool_decide (pod_Labels p !! key = Some value).

Definition Client_List (namespace key value : string) : M (list Pod) := λ c,
  (Return (List.filter (selects namespace key value) (pods c)), c, []).

(** [Client.Create] of a pod: refused when the name is taken. *)
Definition Client_Create (pod : Pod) : M unit := λ c,
  if existsb (pod_is (pod_Namespace pod) (pod_Name pod)) (pods c) then
    (Fail (StatusAlreadyExists (pod_Name pod)), c, [])
  else
    (Return tt, {| pvcs := pvcs c; pods := (pods c ++ [pod])%list |}, [CreatePod pod]).

(** [Client.Delete] of a pod. *)
Definition Client_Delete (pod : Pod) : M unit := λ c,
  if existsb (pod_is (pod_Namespace pod) (pod_Name pod)) (pods c) then
    (Return tt,
     {| pvcs := pvcs c;
        pods := List.filter (λ p, negb (pod_is (pod_Namespace pod) (pod_Name pod) p)) (pods c) |},
     [DeletePod (pod_Namespace pod) (pod_Name pod)])
  else (Fail (StatusNotFound (pod_Name pod)), c, []).

(** [recorder.Event]. *)
Definition recorder_Event (pvc : PersistentVolumeClaim) (eventtype reason message : string)
  : M unit :=
  λ c, (Return tt, c, [Event (pvc_Namespace pvc) (pvc_Name pvc) eventtype reason message]).

(** ** The clone controller: constants *)

Module controller.

Definition AnnCloneRequest : string := "k8s.io/CloneRequest".
Definition AnnCloneOf : string := "k8s.io/CloneOf".
Definition AnnCloneToken : string := "cdi.kubevirt.io/storage.clone.token".
Definition CloneUniqueID : string := "cdi.kubevirt.io/storage.clone.cloneUniqeId".
Definition CloneSucceededPVC : string := "CloneSucceeded".
Definition cloneSourcePodFinalizer : string := "cdi.kubevirt.io/cloneSource".

(** Modelled from the spec: these four annotation keys are declared in
    files of package [controller] that are not among the sources.  The
    specification's vocabulary calls them PodPhase, PodReady, PodRestarts
    and UploadClientName; the properties below use only that they differ
    from each other and from the keys above. *)
Definition AnnPodPhase : string := "PodPhase".
Definition AnnPodReady : string := "PodReady".
Definition AnnPodRestarts : string := "PodRestarts".
Definition AnnUploadClientName : string := "UploadClientName".

(** Modelled from the spec: [checkPVC] is not among the sources; the
    specification's relevance check reads "has CloneRequest". *)
Definition checkPVC (pvc : PersistentVolumeClaim) (annotation : string) : bool :=
  bool_decide (is_Some (pvc_Annotations pvc !! annotation)).

(** [metav1.HasAnnotation]. *)
Definition HasAnnotation (pvc : PersistentVolumeClaim) (ann : string) : bool :=
  bool_decide (is_Some (pvc_Annotations pvc !! ann)).

(** Modelled from the spec: [podSucceededFromPVC] is not among the
    sources; the specification reads "PodPhase == Succeeded". *)
Definition podSucceededFromPVC (pvc : PersistentVolumeClaim) : bool :=
  bool_decide (index (pvc_Annotations pvc) AnnPodPhase = PodSucceeded).

(** ** Pure helpers of the reconciler *)

Definition shouldReconcile (pvc : PersistentVolumeClaim) : bool :=
  checkPVC pvc AnnCloneRequest && negb (HasAnnotation pvc AnnCloneOf).

Definition hasFinalizer (pvc : PersistentVolumeClaim) (value : string) : bool :=
  existsb (λ f, bool_decide (f = value)) (pvc_Finalizers pvc).

Definition set_Finalizers (pvc : PersistentVolumeClaim) (fs : list string)
  : PersistentVolumeClaim :=
  {| pvc_Namespace := pvc_Namespace pvc; pvc_Name := pvc_Name pvc;
     pvc_UID := pvc_UID pvc; pvc_Annotations := pvc_Annotations pvc;
     pvc_Finalizers := fs; pvc_Spec := pvc_Spec pvc |}.

Definition set_Annotation (pvc : PersistentVolumeClaim) (k v : string)
  : PersistentVolumeClaim :=
  {| pvc_Namespace := pvc_Namespace pvc; pvc_Name := pvc_Name pvc;
     pvc_UID := pvc_UID pvc; pvc_Annotations := <[k := v]> (pvc_Annotations pvc);
     pvc_Finalizers := pvc_Finalizers pvc; pvc_Spec := pvc_Spec pvc |}.

Definition addFinalizer (pvc : PersistentVolumeClaim) (name : string)
  : PersistentVolumeClaim :=
  if hasFinalizer pvc name then pvc
  else set_Finalizers pvc (pvc_Finalizers pvc ++ [name])%list.

Definition removeFinalizer (pvc : PersistentVolumeClaim) (name : string)
  : PersistentVolumeClaim :=
  if negb (hasFinalizer pvc name) then pvc
  else set_Finalizers pvc
         (filter (λ f, f ≠ name) (pvc_Finalizers pvc)).

(** [ParseCloneRequestAnnotation]: the named results start at their zero
    values and are returned as they stand on the early exits. *)
Definition ParseCloneRequestAnnotation (pvc : PersistentVolumeClaim)
  : bool * string * string :=
  match pvc_Annotations pvc !! AnnCloneRequest with
  | None => (false, "", "")
  | Some ann =>
      match Split ann "/" with
      | [namespace; name] => (true, namespace, name)
      | _ => (false, "", "")
      end
  end.

Definition validateCloneToken (validator : Validator)
    (source target : PersistentVolumeClaim) : option error :=
  match pvc_Annotations target !! AnnCloneToken with
  | None => Some (errorString "clone token missing")
  | Some tok =>
      match validator tok with
      | Err err => Some (Wrap err "error verifying token")
      | Ok tokenData =>
          if bool_decide (payload_Operation tokenData ≠ OperationClone)
             || bool_decide (payload_Name tokenData ≠ pvc_Name source)
             || bool_decide (payload_Namespace tokenData ≠ pvc_Namespace source)
             || bool_decide (Resource (payload_Resource tokenData) ≠ "persistentvolumeclaims")
             || bool_decide (index (payload_Params tokenData) "targetNamespace" ≠ pvc_Namespace target)
             || bool_decide (index (payload_Params tokenData) "targetName" ≠ pvc_Name target)
          then Some (errorString "invalid token")
          else None
      end
  end.

Definition effectiveVolumeMode (spec : PersistentVolumeClaimSpec) : PersistentVolumeMode :=
  match VolumeMode spec with
  | Some PersistentVolumeBlock => PersistentVolumeBlock
  | _ => PersistentVolumeFilesystem
  end.

Definition ValidateCanCloneSourceAndTargetSpec
    (sourceSpec targetSpec : PersistentVolumeClaimSpec) : option error :=
  let sourceRequest := storage_Value sourceSpec in
  let targetRequest := storage_Value targetSpec in
  if targetRequest <? sourceRequest then
    Some (errorString "target resources requests storage size is smaller than the source")
  else
    let sourceVolumeMode := effectiveVolumeMode sourceSpec in
    let targetVolumeMode := effectiveVolumeMode targetSpec in
    if bool_decide (sourceVolumeMode ≠ targetVolumeMode) then
      Some (errorString ("source volumeMode (" ++ mode_string sourceVolumeMode
                         ++ ") and target volumeMode (" ++ mode_string targetVolumeMode
                         ++ ") do not match"))
    else None.


(** ** The reconciler *)

(** The members of [CloneReconciler] that a pass consults.  [Client] and
    [recorder] are the cluster and the effect trace of [M]; the last field
    stands for the package function [GetDefaultPodResourceRequirements],
    whose body is not in the sources and whose result only fills the
    container's resources. *)
Record CloneReconciler : Type := {
  clientCertGenerator : string → result (string * string);
  serverCAFetcher : result string;
  tokenValidator : Validator;
  Image : string;
  PullPolicy : string;
  defaultPodResourceRequirements : result unit
}.

Local Open Scope go_scope.

Definition getCloneSourcePodName (targetPvc : PersistentVolumeClaim) : string :=
  (pvc_UID targetPvc ++ "-source-pod")%string.

(** [MakeCloneSourcePodSpec], for the fields of [Pod].  The pod is named
    and labelled after the target's UID, lives in the source's namespace
    and mounts the source claim read-only; the volume mode of the target
    (filesystem when absent) chooses between a block device and a mount. *)
Definition MakeCloneSourcePodSpec (image pullPolicy sourcePvcName sourcePvcNamespace : string)
    (clientKey clientCert serverCACert : string) (targetPvc : PersistentVolumeClaim) : Pod :=
  let podName := getCloneSourcePodName targetPvc in
  let volumeMode :=
    match VolumeMode (pvc_Spec targetPvc) with
    | Some m => m
    | None => PersistentVolumeFilesystem
    end in
  let block := bool_decide (volumeMode = PersistentVolumeBlock) in
  {| pod_Namespace := sourcePvcNamespace;
     pod_Name := podName;
     pod_Labels := {[ CloneUniqueID := getCloneSourcePodName targetPvc ]};
     pod_DeletionTimestamp := None;
     pod_Phase := "";
     pod_ContainerStatuses := None;
     pod_Image := image;
     pod_ImagePullPolicy := pullPolicy;
     pod_Env := ([("CLIENT_KEY", clientKey); ("CLIENT_CERT", clientCert);
                 ("SERVER_CA_CERT", serverCACert)]
                ++ [("VOLUME_MODE", if block then "block" else "filesystem")])%list;
     pod_ContainerPort := ("metrics", 8443);
     pod_RunAsUser := 0;
     pod_RestartPolicy := "OnFailure";
     pod_ClaimName := sourcePvcName;
     pod_ReadOnly := true;
     pod_BlockDevice := block |}.

(** [CreateCloneSourcePod].  [cache.MetaNamespaceKeyFunc] does not fail
    on a claim, and its key only goes into an annotation of the pod, so the
    call is left out. *)
Definition CreateCloneSourcePod (r : CloneReconciler) (image pullPolicy clientName : string)
    (pvc : PersistentVolumeClaim) : M Pod :=
  let '(exists_, sourcePvcNamespace, sourcePvcName) := ParseCloneRequestAnnotation pvc in
  if negb exists_ then fail (errorString "bad CloneRequest Annotation")
  else
    let* certs := lift (clientCertGenerator r clientName) in
    let '(clientCert, clientKey) := certs in
    let* serverCABundle := lift (serverCAFetcher r) in
    exec lift (defaultPodResourceRequirements r) then
    let pod := MakeCloneSourcePodSpec image pullPolicy sourcePvcName sourcePvcNamespace
                 clientKey clientCert serverCABundle pvc in
    exec wrapping "source pod API create errored" (Client_Create pod) then
    ret pod.

Definition getCloneRequestSourcePVC (pvc : PersistentVolumeClaim) : M PersistentVolumeClaim :=
  let '(exists_, namespace, name) := ParseCloneRequestAnnotation pvc in
  if negb exists_ then fail (errorString "error parsing clone request annotation")
  else wrapping "error getting clone source PVC" (Client_Get namespace name).

Definition validateSourceAndTarget (r : CloneReconciler) (targetPvc : PersistentVolumeClaim)
  : M unit :=
  let* sourcePvc := getCloneRequestSourcePVC targetPvc in
  exec check (validateCloneToken (tokenValidator r) sourcePvc targetPvc) then
  check (ValidateCanCloneSourceAndTargetSpec (pvc_Spec sourcePvc) (pvc_Spec targetPvc)).

(** [findCloneSourcePod].  The selector is the one [MatchLabels] pair;
    building it fails only on a label value that is not well formed, which
    a UID followed by "-source-pod" is not. *)
Definition findCloneSourcePod (pvc : PersistentVolumeClaim) : M (option Pod) :=
  let '(isCloneRequest, sourceNamespace, _) := ParseCloneRequestAnnotation pvc in
  if negb isCloneRequest then ret None
  else
    let* podList := wrapping "error listing pods"
                      (Client_List sourceNamespace CloneUniqueID
                                   (pvc_UID pvc ++ "-source-pod")%string) in
    if (1 <? length podList)%nat then
      fail (errorString ("multiple source pods found for clone PVC "
                         ++ pvc_Namespace pvc ++ "/" ++ pvc_Name pvc))
    else
      match podList with
      | [] => ret None
      | pod :: _ => ret (Some pod)
      end.

(** [reconcileSourcePod].  The pod it creates is bound to a variable of
    its own block: the caller's [sourcePod] stays nil. *)
Definition reconcileSourcePod (r : CloneReconciler) (sourcePod : option Pod)
    (pvc : PersistentVolumeClaim) : M unit :=
  match sourcePod with
  | None =>
      exec validateSourceAndTarget r pvc then
      match pvc_Annotations pvc !! AnnUploadClientName with
      | None =>
          fail (errorString ("PVC " ++ pvc_Namespace pvc ++ "/" ++ pvc_Name pvc
                             ++ " missing required " ++ AnnUploadClientName ++ " annotation"))
      | Some clientName =>
          let* _sourcePod := CreateCloneSourcePod r (Image r) (PullPolicy r) clientName pvc in
          ret tt
      end
  | Some _ => ret tt
  end.

Definition updatePVC (pvc : PersistentVolumeClaim) : M unit :=
  Client_Update pvc.

(** [updatePvcFromPod].  The snapshot is [pvc] as passed in; the copy that
    is mutated is threaded through.  [reflect.DeepEqual] on the two claims
    is equality of the records: the mutations below only append to the
    finalizers and assign annotations. *)
Definition updatePvcFromPod (sourcePod : option Pod) (pvc : PersistentVolumeClaim) : M unit :=
  let currentPvcCopy := pvc in
  let pvc := addFinalizer pvc cloneSourcePodFinalizer in
  let* pvc := (if podSucceededFromPVC pvc
                  && bool_decide (index (pvc_Annotations pvc) AnnCloneOf ≠ "true")
               then
                 let pvc := set_Annotation pvc AnnCloneOf "true" in
                 exec recorder_Event pvc "Normal" CloneSucceededPVC "Clone Successful" then
                 ret pvc
               else ret pvc) in
  let* pvc := match sourcePod with
        | Some pod =>
            match pod_ContainerStatuses pod with
            | Some statuses =>
                let annPodRestarts := fst (Atoi (index (pvc_Annotations pvc) AnnPodRestarts)) in
                match statuses with
                | [] => panic "index out of range [0] with length 0"
                | status :: _ =>
                    let podRestarts := RestartCount status in
                    if annPodRestarts <? podRestarts
                    then ret (set_Annotation pvc AnnPodRestarts (Itoa podRestarts))
                    else ret pvc
                end
            | None => ret pvc
            end
        | None => ret pvc
        end in
  if bool_decide (currentPvcCopy ≠ pvc) then updatePVC pvc else ret tt.

Definition waitTargetPodRunningOrSucceeded (pvc : PersistentVolumeClaim) : result bool :=
  match pvc_Annotations pvc !! AnnPodReady with
  | None => Ok false
  | Some rs =>
      match ParseBool rs with
      | Err err => Err (Wrap err ("error parsing " ++ AnnPodReady ++ " annotation"))
      | Ok ready =>
          if negb ready then Ok (podSucceededFromPVC pvc) else Ok true
      end
  end.

Definition cleanup (pvc : PersistentVolumeClaim) : M unit :=
  let* pod := findCloneSourcePod pvc in
  let* proceed :=
    match pod with
    | Some pod =>
        if bool_decide (pod_DeletionTimestamp pod = None) then
          if podSucceededFromPVC pvc && bool_decide (pod_Phase pod = PodRunning)
          then ret false
          else
            let* deleted := try (Client_Delete pod) in
            match deleted with
            | Err err =>
                if negb (IsNotFound err)
                then fail (Wrap err "error deleting clone source pod")
                else ret true
            | Ok _ => ret true
            end
        else ret true
    | None => ret true
    end in
  if proceed : bool then updatePVC (removeFinalizer pvc cloneSourcePodFinalizer)
  else ret tt.

(** [Reconcile]: the request is the claim's namespace and name; the
    result value is always the empty [reconcile.Result]. *)
Definition Reconcile (r : CloneReconciler) (namespace name : string) : M unit :=
  let* got := try (Client_Get namespace name) in
  match got with
  | Err err => if IsNotFound err then ret tt else fail err
  | Ok pvc =>
      if negb (shouldReconcile pvc) then
        if hasFinalizer pvc cloneSourcePodFinalizer then cleanup pvc else ret tt
      else
        let* ready := wrapping "error ensuring target upload pod running"
                        (lift (waitTargetPodRunningOrSucceeded pvc)) in
        if negb ready then ret tt
        else
          let* sourcePod := findCloneSourcePod pvc in
          exec reconcileSourcePod r sourcePod pvc then
          updatePvcFromPod sourcePod pvc
  end.

End controller.

(** ** The upload proxy *)

Module uploadproxy.

(** [time.Duration] values, in nanoseconds. *)
Definition Second : Z := 1000000000.
Definition Hour : Z := 3600 * Second.

Definition waitReadyTime : Z := 10 * Second.
Definition waitReadyImterval : Z := Second.
Definition proxyRequestTimeout : Z := 24 * Hour.
Definition uploadTokenLeeway : Z := 10 * Second.

Definition StatusBadRequest : Z := 400.
Definition StatusUnauthorized : Z := 401.
Definition StatusInternalServerError : Z := 500.
Definition StatusServiceUnavailable : Z := 503.

(** The incoming request; [Header] maps a canonical header name to its
    first value, so that [Header.Get] is [index]. *)
Record Request : Type := {
  Method : string;
  Path : string;
  Header : gmap string string;
  Body : string;
  ContentLength : Z
}.

(** The outbound request built by [http.NewRequest]. *)
Record OutRequest : Type := {
  out_Method : string;
  out_URL : string;
  out_Body : string;
  out_ContentLength : Z
}.

Record Response : Type := {
  StatusCode : Z;
  resp_Body : string
}.

(** The [*http.Client] built per request: the key pair, the pool made of
    the CA bundle and the timeout. *)
Record HttpClient : Type := {
  Certificates : list (string * string);
  RootCAs : string;
  Timeout : Z
}.

(** What the handler does, in order: calls on its collaborators and
    writes on the [http.ResponseWriter]. *)
Inductive ProxyEvent : Type :=
  | CallValidate (tok : string)
  | CallGetPVC (tick : nat) (namespace name : string)
  | CallCreateClient
  | CallDo (req : OutRequest)
  | WriteHeader (code : Z)
  | WriteBody (body : string).

(** How the handler goes back to the HTTP server. *)
Inductive ending : Type :=
  | Returned
  | Panicked (msg : string).

(** [uploadProxyApp], by the members the handler uses.
    - [client]: the API server's answer to the [tick]-th read of a claim
      during one readiness poll (the claim may change between polls);
    - [clientCreator]: the pair that [CreateClient()] returns, either of
      which may be nil;
    - [upstream]: the network behind [client.Do], which answers with a
      response or with a transport error. *)
Record uploadProxyApp : Type := {
  client : nat → string → string → result PersistentVolumeClaim;
  clientCreator : option HttpClient * option error;
  tokenValidator : Validator;
  urlResolver : string → string → string → string;
  upstream : HttpClient → OutRequest → result Response
}.

(** The concrete [clientCreator]: its two fetchers, and [tls.X509KeyPair]
    from the standard library as a function. *)
Record clientCreatorT : Type := {
  certFetcher_CertBytes : result string;
  certFetcher_KeyBytes : result string;
  bundleFetcher_BundleBytes : result string;
  X509KeyPair : string → string → result (string * string)
}.

Definition CreateClient (c : clientCreatorT) : option HttpClient * option error :=
  match certFetcher_CertBytes c with
  | Err err => (None, Some err)
  | Ok clientCertBytes =>
      match certFetcher_KeyBytes c with
      | Err err => (None, Some err)
      | Ok clientKeyBytes =>
          match bundleFetcher_BundleBytes c with
          | Err err => (None, Some err)
          | Ok serverBundleBytes =>
              match X509KeyPair c clientCertBytes clientKeyBytes with
              | Err err => (None, Some err)
              | Ok clientCert =>
                  (Some {| Certificates := [clientCert];
                           RootCAs := serverBundleBytes;
                           Timeout := proxyRequestTimeout |}, None)
              end
          end
      end
  end.

(** *** The Authorization header

    [authHeaderMatcher] is the compiled pattern
    [(?i)^Bearer\s+([A-Za-z0-9\-\._~\+\/]+)$].  The pattern is anchored and
    its two repetitions range over disjoint classes, so a match splits the
    text in one way only: the word, a run of white space, the token. *)

Definition lower (c : ascii) : ascii :=
  let n := nat_of_ascii c in
  if (65 <=? n)%nat && (n <=? 90)%nat then ascii_of_nat (n + 32) else c.

(** [\s] is [[\t\n\f\r ]]. *)
Definition isSpace (c : ascii) : bool :=
  bool_decide (nat_of_ascii c ∈ [9; 10; 12; 13; 32]%nat).

(** One byte of [[A-Za-z0-9\-\._~\+\/]]. *)
Definition isTokenByte (c : ascii) : bool :=
  let n := nat_of_ascii c in
  ((65 <=? n)%nat && (n <=? 90)%nat)
  || ((97 <=? n)%nat && (n <=? 122)%nat)
  || ((48 <=? n)%nat && (n <=? 57)%nat)
  || bool_decide (c ∈ ["-"; "."; "_"; "~"; "+"; "/"]%char).

(** The text is a sequence of runes of the class.  Under [(?i)] Go closes
    a class under simple case folding, which puts U+017F (it folds to s;
    bytes C5 BF) and U+212A (it folds to k; bytes E2 84 AA) into
    [[A-Za-z]] next to the ASCII bytes. *)
Fixpoint tokenRunes (s : string) : bool :=
  match s with
  | EmptyString => true
  | String c s' =>
      if isTokenByte c then tokenRunes s'
      else
        match s' with
        | String c1 s1 =>
            if (nat_of_ascii c =? 197)%nat && (nat_of_ascii c1 =? 191)%nat then tokenRunes s1
            else
              match s1 with
              | String c2 s2 =>
                  if (nat_of_ascii c =? 226)%nat && (nat_of_ascii c1 =? 132)%nat
                     && (nat_of_ascii c2 =? 170)%nat
                  then tokenRunes s2 else false
              | EmptyString => false
              end
        | EmptyString => false
        end
  end.

Fixpoint lowerString (s : string) : string :=
  match s with
  | EmptyString => EmptyString
  | String c s' => String (lower c) (lowerString s')
  end.

(** The longest prefix of white space, and the rest. *)
Fixpoint spanSpace (s : string) : string * string :=
  match s with
  | String c s' =>
      if isSpace c then let '(ws, rest) := spanSpace s' in (String c ws, rest)
      else (EmptyString, s)
  | EmptyString => (EmptyString, EmptyString)
  end.

(** [authHeaderMatcher.FindStringSubmatch]: nil when the text does not
    match, else the whole match and the token. *)
Definition FindStringSubmatch (s : string) : list string :=
  if bool_decide (lowerString (substring 0 6 s) = "bearer") then
    let '(ws, tok) := spanSpace (substring 6 (String.length s - 6) s) in
    if negb (bool_decide (ws = "")) && negb (bool_decide (tok = "")) && tokenRunes tok
    then [s; tok] else []
  else [].

(** *** The readiness gate *)

Definition ErrWaitTimeout : error := errorString "timed out waiting for the condition".

(** Modelled from the spec: [wait.PollImmediate] belongs to a library
    outside the sources.  The specification has it poll "with a 1 s cadence
    up to 10 s": the condition is tried at once and then once per interval
    until the timeout has passed; the first error or the first [true] ends
    the poll, and running out of time is an error.  [poll n k] has [n]
    tries left and is at tick [k]; it returns the poll's error and the
    number of tries made. *)
Fixpoint poll (n k : nat) (condition : nat → result bool) : option error * nat :=
  match n with
  | O => (Some ErrWaitTimeout, O)
  | S n' =>
      match condition k with
      | Err err => (Some err, 1%nat)
      | Ok true => (None, 1%nat)
      | Ok false => let '(e, tries) := poll n' (S k) condition in (e, S tries)
      end
  end.

Definition PollImmediate (interval timeout : Z) (condition : nat → result bool)
  : option error * nat :=
  poll (Z.to_nat (timeout / interval) + 1) 0 condition.

(** The condition of [uploadReady] at one tick. *)
Definition uploadReadyCondition (app : uploadProxyApp) (pvcName pvcNamespace : string)
    (tick : nat) : result bool :=
  match client app tick pvcNamespace pvcName with
  | Err err =>
      if IsNotFound err then
        Err (errorString ("rejecting Upload Request for PVC " ++ pvcName ++ " that doesn't exist"))
      else Err err
  | Ok pvc =>
      let phase := index (pvc_Annotations pvc) controller.AnnPodPhase in
      if bool_decide (phase = PodSucceeded) then
        Err (errorString ("rejecting Upload Request for PVC " ++ pvcName
                          ++ " that already finished uploading"))
      else
        match ParseBool (index (pvc_Annotations pvc) controller.AnnPodReady) with
        | Ok ready => Ok ready
        | Err _ => Ok false
        end
  end.

Definition uploadReady (app : uploadProxyApp) (pvcName pvcNamespace : string)
  : option error * list ProxyEvent :=
  let '(err, tries) :=
    PollImmediate waitReadyImterval waitReadyTime
      (uploadReadyCondition app pvcName pvcNamespace) in
  (err, map (λ tick, CallGetPVC tick pvcNamespace pvcName) (seq 0 tries)).

(** *** The handlers *)

(** [proxyUploadRequest].  The error of [http.NewRequest] is dropped by
    the source; the method of the incoming request and the resolver's URL
    are taken to be well formed, so that the request is built.  A nil
    client makes [client.Do] dereference nil. *)
Definition proxyUploadRequest (app : uploadProxyApp) (namespace pvc : string) (r : Request)
  : list ProxyEvent * ending :=
  let url := urlResolver app namespace pvc (Path r) in
  let req := {| out_Method := Method r; out_URL := url; out_Body := Body r;
                out_ContentLength := ContentLength r |} in
  let '(client, _err) := clientCreator app in
  match client with
  | None => ([CallCreateClient], Panicked "invalid memory address or nil pointer dereference")
  | Some client =>
      match upstream app client req with
      | Err _ =>
          ([CallCreateClient; CallDo req; WriteHeader StatusInternalServerError], Returned)
      | Ok response =>
          ([CallCreateClient; CallDo req; WriteHeader (StatusCode response);
            WriteBody (resp_Body response)], Returned)
      end
  end.

Definition handleUploadRequest (app : uploadProxyApp) (r : Request)
  : list ProxyEvent * ending :=
  let tokenHeader := index (Header r) "Authorization" in
  if bool_decide (tokenHeader = "") then ([WriteHeader StatusBadRequest], Returned)
  else
    let match_ := FindStringSubmatch tokenHeader in
    if negb (length match_ =? 2)%nat then ([WriteHeader StatusBadRequest], Returned)
    else
      let tok := nth 1 match_ "" in
      match tokenValidator app tok with
      | Err _ => ([CallValidate tok; WriteHeader StatusUnauthorized], Returned)
      | Ok tokenData =>
          if bool_decide (payload_Operation tokenData ≠ OperationUpload)
             || bool_decide (payload_Name tokenData = "")
             || bool_decide (payload_Namespace tokenData = "")
             || bool_decide (Resource (payload_Resource tokenData) ≠ "persistentvolumeclaims")
          then ([CallValidate tok; WriteHeader StatusBadRequest], Returned)
          else
            let '(err, polls) :=
              uploadReady app (payload_Name tokenData) (payload_Namespace tokenData) in
            match err with
            | Some _ =>
                (CallValidate tok :: polls ++ [WriteHeader StatusServiceUnavailable], Returned)%list
            | None =>
                let '(events, how) :=
                  proxyUploadRequest app (payload_Namespace tokenData)
                                     (payload_Name tokenData) r in
                (CallValidate tok :: polls ++ events, how)%list
            end
      end.

End uploadproxy.

Import controller uploadproxy.

(** * Specifications, views of a pass, scenarios *)

(** ** What the specification says, in its own words *)

(** The text has no separator byte. *)
Fixpoint no_slash (s : string) : Prop :=
  match s with
  | EmptyString => True
  | String c s' => c ≠ "/"%char ∧ no_slash s'
  end.

(** The specification's reading of a clone request: two non-empty parts. *)
Definition spec_clone_request (pvc : PersistentVolumeClaim) (namespace name : string) : Prop :=
  ∃ ann, pvc_Annotations pvc !! AnnCloneRequest = Some ann
         ∧ Split ann "/" = [namespace; name] ∧ namespace ≠ "" ∧ name ≠ "".

(** The specification's reading of a volume mode: absent is filesystem. *)
Definition spec_volume_mode (spec : PersistentVolumeClaimSpec) : PersistentVolumeMode :=
  default PersistentVolumeFilesystem (VolumeMode spec).

(** The six bindings of a clone token to its source and target. *)
Definition token_bound (tokenData : Payload) (source target : PersistentVolumeClaim) : Prop :=
  payload_Operation tokenData = OperationClone
  ∧ payload_Name tokenData = pvc_Name source
  ∧ payload_Namespace tokenData = pvc_Namespace source
  ∧ Resource (payload_Resource tokenData) = "persistentvolumeclaims"
  ∧ index (payload_Params tokenData) "targetNamespace" = pvc_Namespace target
  ∧ index (payload_Params tokenData) "targetName" = pvc_Name target.

#[global] Instance token_bound_dec tokenData source target :
  Decision (token_bound tokenData source target).
Proof. unfold token_bound. apply _. Defined.

(** A run of white space. *)
Fixpoint all_space (s : string) : Prop :=
  match s with
  | EmptyString => True
  | String c s' => isSpace c = true ∧ all_space s'
  end.

(** The Authorization pattern, read as a set of texts: a word that is
    "bearer" up to the case of its letters, a non-empty run of white space,
    a non-empty run of runes of the class, which is the token. *)
Definition matches_authHeader (s tok : string) : Prop :=
  ∃ word ws,
    s = (word ++ ws ++ tok)%string
    ∧ lowerString word = "bearer"
    ∧ ws ≠ "" ∧ all_space ws
    ∧ tok ≠ "" ∧ tokenRunes tok = true.

(** What the handler requires of a validated upload token. *)
Definition upload_claims (tokenData : Payload) : Prop :=
  payload_Operation tokenData = OperationUpload
  ∧ payload_Name tokenData ≠ ""
  ∧ payload_Namespace tokenData ≠ ""
  ∧ Resource (payload_Resource tokenData) = "persistentvolumeclaims".

(** The values of PodReady that [strconv.ParseBool] reads as true. *)
Definition truthy (v : string) : Prop := v ∈ ["1"; "t"; "T"; "TRUE"; "true"; "True"].

(** At poll [k] the claim is there, has not finished, and is ready. *)
Definition ready_at (app : uploadProxyApp) (name namespace : string) (k : nat) : Prop :=
  ∃ pvc, client app k namespace name = Ok pvc
         ∧ index (pvc_Annotations pvc) AnnPodPhase ≠ PodSucceeded
         ∧ truthy (index (pvc_Annotations pvc) AnnPodReady).

(** At poll [k] the claim is there, has not finished, and is not ready. *)
Definition waiting_at (app : uploadProxyApp) (name namespace : string) (k : nat) : Prop :=
  ∃ pvc, client app k namespace name = Ok pvc
         ∧ index (pvc_Annotations pvc) AnnPodPhase ≠ PodSucceeded
         ∧ ¬ truthy (index (pvc_Annotations pvc) AnnPodReady).

(** At poll [k] the gate gives up: the read fails (not-found or another
    error) or the claim has finished. *)
Definition rejected_at (app : uploadProxyApp) (name namespace : string) (k : nat) : Prop :=
  (∃ err, client app k namespace name = Err err)
  ∨ (∃ pvc, client app k namespace name = Ok pvc
            ∧ index (pvc_Annotations pvc) AnnPodPhase = PodSucceeded).

(** ** A reconcile pass, seen from outside *)

(** The claim stored under a key. *)
Definition stored (c : Cluster) (namespace name : string) : option PersistentVolumeClaim :=
  List.find (pvc_is namespace name) (pvcs c).

(** The cluster after an accepted update, create or delete. *)
Definition replace_pvc (pvc : PersistentVolumeClaim) (c : Cluster) : Cluster :=
  {| pvcs := map (λ p, if pvc_is (pvc_Namespace pvc) (pvc_Name pvc) p then pvc else p) (pvcs c);
     pods := pods c |}.

Definition add_pod (pod : Pod) (c : Cluster) : Cluster :=
  {| pvcs := pvcs c; pods := (pods c ++ [pod])%list |}.

Definition remove_pod (pod : Pod) (c : Cluster) : Cluster :=
  {| pvcs := pvcs c;
     pods := List.filter (λ p, negb (pod_is (pod_Namespace pod) (pod_Name pod) p)) (pods c) |}.

(** The three mutations of [updatePvcFromPod], one by one.  [marks]: the
    claim is marked as cloned in this pass. *)
Definition marks (pvc : PersistentVolumeClaim) : bool :=
  podSucceededFromPVC pvc && bool_decide (index (pvc_Annotations pvc) AnnCloneOf ≠ "true").

Definition marked (pvc : PersistentVolumeClaim) : PersistentVolumeClaim :=
  if marks pvc then set_Annotation pvc AnnCloneOf "true" else pvc.

(** The restart counter taken over from the source pod; [None] is the
    read past the end of an empty list. *)
Definition counted (sourcePod : option Pod) (pvc : PersistentVolumeClaim)
  : option PersistentVolumeClaim :=
  match sourcePod ≫= pod_ContainerStatuses with
  | None => Some pvc
  | Some [] => None
  | Some (status :: _) =>
      Some (if fst (Atoi (index (pvc_Annotations pvc) AnnPodRestarts)) <? RestartCount status
            then set_Annotation pvc AnnPodRestarts (Itoa (RestartCount status))
            else pvc)
  end.

(** The claim as [updatePvcFromPod] leaves it, when it does not panic. *)
Definition mutated (sourcePod : option Pod) (pvc : PersistentVolumeClaim)
  : option PersistentVolumeClaim :=
  counted sourcePod (marked (addFinalizer pvc cloneSourcePodFinalizer)).

(** The CloneSucceeded event, and the events of a pass over [pvc]. *)
Definition succeeded_event (pvc : PersistentVolumeClaim) : Effect :=
  Event (pvc_Namespace pvc) (pvc_Name pvc) "Normal" CloneSucceededPVC "Clone Successful".

Definition success_events (pvc : PersistentVolumeClaim) : list Effect :=
  if marks pvc then [succeeded_event pvc] else [].

(** The one pod the pass may create. *)
Definition planned_pod (r : CloneReconciler) (pvc : PersistentVolumeClaim) : option Pod :=
  match ParseCloneRequestAnnotation pvc, pvc_Annotations pvc !! AnnUploadClientName with
  | (true, sourcePvcNamespace, sourcePvcName), Some clientName =>
      match clientCertGenerator r clientName, serverCAFetcher r with
      | Ok (clientCert, clientKey), Ok serverCABundle =>
          Some (MakeCloneSourcePodSpec (Image r) (PullPolicy r) sourcePvcName sourcePvcNamespace
                  clientKey clientCert serverCABundle pvc)
      | _, _ => None
      end
  | _, _ => None
  end.

(** What the mutations of a pass leave alone. *)
Definition same_identity (p q : PersistentVolumeClaim) : Prop :=
  pvc_Namespace q = pvc_Namespace p ∧ pvc_Name q = pvc_Name p ∧ pvc_UID q = pvc_UID p
  ∧ pvc_Spec q = pvc_Spec p.

(** Two claims agree on every annotation but the restart counter. *)
Definition control_equal (p q : PersistentVolumeClaim) : Prop :=
  ∀ k, k ≠ AnnPodRestarts → pvc_Annotations q !! k = pvc_Annotations p !! k.

(** The shapes a reconcile pass for the claim [namespace]/[name] can take
    from the cluster [c]: it writes nothing; it cleans up without or with a
    delete of the source pod; it updates the claim from the source pod it
    found; or it creates the source pod and then updates the claim. *)
Inductive pass_shape (r : CloneReconciler) (c : Cluster) (namespace name : string)
  : outcome unit * Cluster * list Effect → Prop :=
  | shape_idle o events :
      Forall (λ e, is_Event e = true) events →
      pass_shape r c namespace name (o, c, events)
  | shape_release pvc found :
      stored c namespace name = Some pvc →
      shouldReconcile pvc = false →
      hasFinalizer pvc cloneSourcePodFinalizer = true →
      (findCloneSourcePod pvc c).1.1 = Return found →
      (∀ pod, found = Some pod → pod_DeletionTimestamp pod ≠ None) →
      let pvc' := removeFinalizer pvc cloneSourcePodFinalizer in
      pass_shape r c namespace name (Return tt, replace_pvc pvc' c, [UpdatePVC pvc'])
  | shape_delete pvc pod :
      stored c namespace name = Some pvc →
      shouldReconcile pvc = false →
      hasFinalizer pvc cloneSourcePodFinalizer = true →
      (findCloneSourcePod pvc c).1.1 = Return (Some pod) →
      pod_DeletionTimestamp pod = None →
      podSucceededFromPVC pvc && bool_decide (pod_Phase pod = PodRunning) = false →
      let pvc' := removeFinalizer pvc cloneSourcePodFinalizer in
      pass_shape r c namespace name
        (Return tt, replace_pvc pvc' (remove_pod pod c),
         [DeletePod (pod_Namespace pod) (pod_Name pod); UpdatePVC pvc'])
  | shape_update pvc pod pvc' :
      stored c namespace name = Some pvc →
      shouldReconcile pvc = true →
      waitTargetPodRunningOrSucceeded pvc = Ok true →
      (findCloneSourcePod pvc c).1.1 = Return (Some pod) →
      mutated (Some pod) pvc = Some pvc' →
      pvc ≠ pvc' →
      pass_shape r c namespace name
        (Return tt, replace_pvc pvc' c, (success_events pvc ++ [UpdatePVC pvc'])%list)
  | shape_create pvc pod pvc' :
      stored c namespace name = Some pvc →
      shouldReconcile pvc = true →
      waitTargetPodRunningOrSucceeded pvc = Ok true →
      (findCloneSourcePod pvc c).1.1 = Return None →
      planned_pod r pvc = Some pod →
      existsb (pod_is (pod_Namespace pod) (pod_Name pod)) (pods c) = false →
      mutated None pvc = Some pvc' →
      pass_shape r c namespace name
        (Return tt,
         if bool_decide (pvc ≠ pvc') then replace_pvc pvc' (add_pod pod c) else add_pod pod c,
         (CreatePod pod :: success_events pvc
            ++ if bool_decide (pvc ≠ pvc') then [UpdatePVC pvc'] else [])%list).

(** ** Case analysis of the effectful code *)

(** The innermost scrutinee of a nest of matches. *)
Ltac scrutinee t :=
  match t with
  | context [match ?x with _ => _ end] => scrutinee x
  | _ => t
  end.

(** One case split on what the code branches on next. *)
Ltac go_step :=
  match goal with
  | |- context [match ?x with _ => _ end] =>
      let y := scrutinee x in destruct y eqn:?
  end; simpl.

(** ** The scenarios: claims, pods, tokens, clusters and requests *)

(** The target claim prod/pvc-dst of the scenarios, with 10 bytes
    requested and no volume mode. *)
Definition pvc_with (anns : gmap string string) (finalizers : list string)
  : PersistentVolumeClaim :=
  {| pvc_Namespace := "prod"; pvc_Name := "pvc-dst"; pvc_UID := "7f1c";
     pvc_Annotations := anns; pvc_Finalizers := finalizers;
     pvc_Spec := {| Requests_storage := Some 10; VolumeMode := None |} |}.

(** The same claim as a clone target of stage/pvc-src. *)
Definition clone_target (anns : gmap string string) (finalizers : list string)
  : PersistentVolumeClaim :=
  pvc_with (<[ AnnCloneRequest := "stage/pvc-src" ]> anns) finalizers.

(** The source claim stage/pvc-src. *)
Definition source_pvc : PersistentVolumeClaim :=
  {| pvc_Namespace := "stage"; pvc_Name := "pvc-src"; pvc_UID := "03ab";
     pvc_Annotations := ∅; pvc_Finalizers := [];
     pvc_Spec := {| Requests_storage := Some 10; VolumeMode := None |} |}.

(** A source pod for the claim of UID [uid], as the cluster shows it. *)
Definition source_pod (uid : string) (phase : string)
    (statuses : option (list ContainerStatus)) : Pod :=
  {| pod_Namespace := "stage"; pod_Name := (uid ++ "-source-pod")%string;
     pod_Labels := {[ CloneUniqueID := (uid ++ "-source-pod")%string ]};
     pod_DeletionTimestamp := None; pod_Phase := phase;
     pod_ContainerStatuses := statuses;
     pod_Image := "cdi-cloner"; pod_ImagePullPolicy := "IfNotPresent";
     pod_Env := []; pod_ContainerPort := ("metrics", 8443); pod_RunAsUser := 0;
     pod_RestartPolicy := "OnFailure"; pod_ClaimName := "pvc-src";
     pod_ReadOnly := true; pod_BlockDevice := false |}.

(** The payload of a clone token for stage/pvc-src into prod/[targetName]. *)
Definition clone_payload (targetName : string) : Payload :=
  {| payload_Operation := OperationClone;
     payload_Name := "pvc-src"; payload_Namespace := "stage";
     payload_Resource := {| Group := ""; Version := "v1"; Resource := "persistentvolumeclaims" |};
     payload_Params := {[ "targetNamespace" := "prod"; "targetName" := targetName ]} |}.

(** A validator that knows two signed tokens: one bound to prod/pvc-dst,
    one to prod/other. *)
Definition test_validator : Validator := λ tok,
  if bool_decide (tok = "signed") then Ok (clone_payload "pvc-dst")
  else if bool_decide (tok = "signed-other") then Ok (clone_payload "other")
  else Err (errorString "token is invalid").

(** A reconciler whose collaborators all answer. *)
Definition test_reconciler : CloneReconciler :=
  {| clientCertGenerator := λ _, Ok ("cert", "key");
     serverCAFetcher := Ok "bundle";
     controller.tokenValidator := test_validator;
     Image := "cdi-cloner";
     PullPolicy := "IfNotPresent";
     defaultPodResourceRequirements := Ok tt |}.

(** The target claim of the first scenario, once its upload server is
    ready, together with its source, and the pod the reconciler makes for
    it. *)
Definition fresh_target : PersistentVolumeClaim :=
  clone_target {[ AnnCloneToken := "signed"; AnnUploadClientName := "ci";
                  AnnPodReady := "true" ]} [].

Definition fresh_cluster : Cluster :=
  {| pvcs := [source_pvc; fresh_target]; pods := [] |}.

Definition fresh_pod : Pod :=
  MakeCloneSourcePodSpec "cdi-cloner" "IfNotPresent" "pvc-src" "stage" "key" "cert" "bundle"
    fresh_target.

(** The target after its upload server has succeeded; the source pod has
    exited. *)
Definition finished_target : PersistentVolumeClaim :=
  clone_target {[ AnnCloneToken := "signed"; AnnUploadClientName := "ci";
                  AnnPodReady := "true"; AnnPodPhase := "Succeeded" ]}
               [cloneSourcePodFinalizer].

Definition finished_cluster : Cluster :=
  {| pvcs := [source_pvc; finished_target];
     pods := [source_pod "7f1c" "Succeeded" None] |}.

(** The payload of an upload token for prod/pvc-dst. *)
Definition upload_payload : Payload :=
  {| payload_Operation := OperationUpload;
     payload_Name := "pvc-dst"; payload_Namespace := "prod";
     payload_Resource := {| Group := ""; Version := "v1"; Resource := "persistentvolumeclaims" |};
     payload_Params := ∅ |}.

(** A validator that knows one upload token and one clone token. *)
Definition upload_validator : Validator := λ tok,
  if bool_decide (tok = "upl0ad") then Ok upload_payload
  else if bool_decide (tok = "cl0ne") then Ok (clone_payload "pvc-dst")
  else Err (errorString "token is invalid").

(** An upload request with the given Authorization header. *)
Definition request_with (authorization : string) : Request :=
  {| Method := "POST"; Path := "/v1alpha1/upload";
     Header := {[ "Authorization" := authorization ]};
     Body := "disk image"; ContentLength := 10 |}.

(** A client as [CreateClient] builds it. *)
Definition test_client : HttpClient :=
  {| Certificates := [("cert", "key")]; RootCAs := "bundle"; Timeout := proxyRequestTimeout |}.

(** A proxy whose target claim carries the annotations [anns] at every
    poll, and whose upstream answers 200. *)
Definition proxy_app (anns : gmap string string)
    (creator : option HttpClient * option error) : uploadProxyApp :=
  {| client := λ _ namespace name,
       if bool_decide (namespace = "prod" ∧ name = "pvc-dst")
       then Ok (pvc_with anns []) else Err (StatusNotFound name);
     clientCreator := creator;
     uploadproxy.tokenValidator := upload_validator;
     urlResolver := λ namespace pvc path, ("https://" ++ pvc ++ "." ++ namespace ++ path)%string;
     upstream := λ _ _, Ok {| StatusCode := 200; resp_Body := "" |} |}.

(** A creator whose certificate fetcher fails. *)
Definition failing_creator : clientCreatorT :=
  {| certFetcher_CertBytes := Err (errorString "open /var/run/certs/tls.crt: no such file");
     certFetcher_KeyBytes := Ok "key";
     bundleFetcher_BundleBytes := Ok "bundle";
     X509KeyPair := λ cert key, Ok (cert, key) |}.

(** ** Readings for the properties beyond the specification *)

(** The values of PodReady that [strconv.ParseBool] reads as false. *)
Definition falsy (v : string) : Prop := v ∈ ["0"; "f"; "F"; "FALSE"; "false"; "False"].

(** The claim's clone token is accepted by the validator and binds
    [source] to [target]. *)
Definition token_bound_by (validator : Validator) (target source : PersistentVolumeClaim)
  : Prop :=
  ∃ tok tokenData,
    pvc_Annotations target !! AnnCloneToken = Some tok
    ∧ validator tok = Ok tokenData
    ∧ token_bound tokenData source target.

(** The pods that the reconciler's list returns for a claim of UID [uid]
    whose source lives in [namespace]. *)
Definition listed_for (uid namespace : string) (c : Cluster) : list Pod :=
  List.filter (selects namespace CloneUniqueID (uid ++ "-source-pod")%string) (pods c).

(** The kinds of effects and of handler events. *)
Definition is_CreatePod (e : Effect) : bool :=
  match e with CreatePod _ => true | _ => false end.

Definition is_DeletePod (e : Effect) : bool :=
  match e with DeletePod _ _ => true | _ => false end.

Definition is_UpdatePVC (e : Effect) : bool :=
  match e with UpdatePVC _ => true | _ => false end.

Definition is_WriteHeader (e : ProxyEvent) : bool :=
  match e with WriteHeader _ => true | _ => false end.

Definition is_CallDo (e : ProxyEvent) : bool :=
  match e with CallDo _ => true | _ => false end.

(** The cluster a pass leaves. *)
Definition after (r : CloneReconciler) (namespace name : string) (c : Cluster) : Cluster :=
  (Reconcile r namespace name c).1.2.

(** The second scenario: the target asks for 5 bytes, the source has 10. *)
Definition small_target : PersistentVolumeClaim :=
  {| pvc_Namespace := "prod"; pvc_Name := "pvc-dst"; pvc_UID := "7f1c";
     pvc_Annotations := {[ AnnCloneRequest := "stage/pvc-src"; AnnCloneToken := "signed";
                           AnnUploadClientName := "ci"; AnnPodReady := "true" ]};
     pvc_Finalizers := [];
     pvc_Spec := {| Requests_storage := Some 5; VolumeMode := None |} |}.

Definition small_cluster : Cluster :=
  {| pvcs := [source_pvc; small_target]; pods := [] |}.

(** A claim that is done and still carries the finalizer, with its source
    pod in the given phase. *)
Definition done_target : PersistentVolumeClaim :=
  set_Annotation finished_target AnnCloneOf "true".

Definition done_cluster (phase : string) : Cluster :=
  {| pvcs := [source_pvc; done_target]; pods := [source_pod "7f1c" phase None] |}.

(** The fresh target with its source pod running and restarted [n]
    times. *)
Definition running_cluster (n : Z) : Cluster :=
  {| pvcs := [source_pvc; fresh_target];
     pods := [source_pod "7f1c" "Running" (Some [ {| RestartCount := n |} ])] |}.

(** A creator whose fetchers and key pair all succeed. *)
Definition working_creator : clientCreatorT :=
  {| certFetcher_CertBytes := Ok "cert";
     certFetcher_KeyBytes := Ok "key";
     bundleFetcher_BundleBytes := Ok "bundle";
     X509KeyPair := λ cert key, Ok (cert, key) |}.

(** * Properties *)

(** ** The standard-library models on small inputs *)

Example Split_two : Split "stage/pvc-src" "/" = ["stage"; "pvc-src"].
Proof. reflexivity. Qed.
Example Split_none : Split "pvc-src" "/" = ["pvc-src"].
Proof. reflexivity. Qed.
Example Split_empty : Split "" "/" = [""].
Proof. reflexivity. Qed.
Example Split_three : Split "a//b" "/" = ["a"; ""; "b"].
Proof. reflexivity. Qed.
Example Itoa_neg : Itoa (-12) = "-12".
Proof. reflexivity. Qed.
Example Atoi_ok : Atoi "+007" = (7, true).
Proof. reflexivity. Qed.
Example Atoi_bad : Atoi "" = (0, false) ∧ Atoi "-" = (0, false) ∧ Atoi "1x" = (0, false).
Proof. repeat split; reflexivity. Qed.
Example Atoi_range : Atoi "9223372036854775808" = (maxInt64, false).
Proof. reflexivity. Qed.

(** ** Clone request annotation *)

Lemma Split_nonempty s sep : Split s sep ≠ [].
Proof.
  destruct s as [|c s]; simpl; [done|].
  destruct (Ascii.eqb c sep); [done|]. by destruct (Split s sep).
Qed.

Lemma Split_no_slash s : no_slash s → Split s "/" = [s].
Proof.
  induction s as [|c s IH]; simpl; [done|]. intros [Hc Hs].
  destruct (Ascii.eqb_spec c "/"); [done|]. by rewrite IH.
Qed.

Lemma Split_one s w : Split s "/" = [w] → w = s ∧ no_slash s.
Proof.
  revert w. induction s as [|c s IH]; simpl; intros w.
  - intros [= <-]. done.
  - destruct (Ascii.eqb_spec c "/") as [->|Hc].
    + intros [= _ H]. by destruct (Split_nonempty _ _ H).
    + destruct (Split s "/") as [|w' ws] eqn:E; [by destruct (Split_nonempty _ _ E)|].
      intros [= <- ->]. destruct (IH w' eq_refl) as [-> ?]. done.
Qed.

(** Two parts come out exactly when the text is the two parts around one
    separator. *)
Lemma Split_two_parts s a b :
  Split s "/" = [a; b] ↔ s = (a ++ "/" ++ b)%string ∧ no_slash a ∧ no_slash b.
Proof.
  revert a. induction s as [|c s IH]; simpl; intros a.
  - split; [done|]. intros [H _]. destruct a; discriminate.
  - destruct (Ascii.eqb_spec c "/") as [->|Hc].
    + split.
      * intros [= <- H]. apply Split_one in H as [-> ?]. done.
      * intros (H & Ha & Hb). destruct a as [|c' a]; simpl in *.
        -- injection H as ->. by rewrite Split_no_slash.
        -- injection H as <- _. by destruct Ha.
    + destruct (Split s "/") as [|w ws] eqn:E; [by destruct (Split_nonempty _ _ E)|].
      split.
      * intros [= <- ->]. destruct (proj1 (IH w) eq_refl) as (-> & ? & ?). done.
      * intros (H & Ha & Hb). destruct a as [|c' a]; simpl in *.
        -- injection H as -> _. done.
        -- injection H as <- Hs. destruct Ha as [_ Ha].
           assert (w :: ws = [a; b]) as E' by (by apply IH).
           by injection E' as -> ->.
Qed.

(** C4, as stated, fails: the annotation "/pvc-src" has an empty namespace
    part, and the parser still reports a clone request. *)
Lemma ParseCloneRequestAnnotation_empty_part :
  let pvc := pvc_with {[ AnnCloneRequest := "/pvc-src" ]} [] in
  ParseCloneRequestAnnotation pvc = (true, "", "pvc-src")
  ∧ ¬ ∃ namespace name, spec_clone_request pvc namespace name.
Proof.
  split; [reflexivity|].
  intros (namespace & name & ann & Hann & Hsplit & Hns & _).
  vm_compute in Hann. injection Hann as <-.
  vm_compute in Hsplit. injection Hsplit as <- _. done.
Qed.

(** C4, amended: ParseCloneRequestAnnotation reports a clone request
    (namespace, name) if and only if the CloneRequest annotation is present
    and splitting its value on "/" yields exactly the two parts namespace
    and name, that is, the value is namespace, one "/", name, with no
    further "/" in either part; the parts may be empty.  For every other
    value, and without the annotation, it reports not-a-request with empty
    strings. *)
Theorem ParseCloneRequestAnnotation_spec pvc :
  (∀ namespace name,
     (ParseCloneRequestAnnotation pvc = (true, namespace, name)
      ↔ ∃ ann, pvc_Annotations pvc !! AnnCloneRequest = Some ann
               ∧ Split ann "/" = [namespace; name])
     ∧ (ParseCloneRequestAnnotation pvc = (true, namespace, name)
        ↔ ∃ ann, pvc_Annotations pvc !! AnnCloneRequest = Some ann
                 ∧ ann = (namespace ++ "/" ++ name)%string
                 ∧ no_slash namespace ∧ no_slash name))
  ∧ ((¬ ∃ namespace name, ParseCloneRequestAnnotation pvc = (true, namespace, name))
     → ParseCloneRequestAnnotation pvc = (false, "", "")).
Proof.
  unfold ParseCloneRequestAnnotation. split.
  - intros namespace name.
    assert (Hsplit : match pvc_Annotations pvc !! AnnCloneRequest with
                     | Some ann => match Split ann "/" with
                                   | [a; b] => (true, a, b)
                                   | _ => (false, "", "")
                                   end
                     | None => (false, "", "")
                     end = (true, namespace, name)
                     ↔ ∃ ann, pvc_Annotations pvc !! AnnCloneRequest = Some ann
                              ∧ Split ann "/" = [namespace; name]).
    { destruct (pvc_Annotations pvc !! AnnCloneRequest) as [ann|].
      - split.
        + destruct (Split ann "/") as [|a [|b [|? ?]]] eqn:E; try done.
          intros [= <- <-]. by exists ann.
        + intros (ann' & [= <-] & ->). done.
      - split; [done|]. by intros (? & ? & _). }
    split; [exact Hsplit|]. rewrite Hsplit.
    split; intros (ann & Hann & H); exists ann; (split; [done|]); by apply Split_two_parts.
  - intros H. destruct (pvc_Annotations pvc !! AnnCloneRequest) as [ann|]; [|done].
    destruct (Split ann "/") as [|a [|b [|? ?]]]; try done.
    destruct H. by exists a, b.
Qed.

(** ** Spec compatibility *)

(** C7: ValidateCanCloneSourceAndTargetSpec succeeds if and only if the
    target's storage request is at least the source's and the two volume
    modes, an absent one read as filesystem, are equal.  A smaller target
    yields the size error; with a target that is large enough, differing
    modes yield "source volumeMode (..) and target volumeMode (..) do not
    match" (the size is checked first). *)
Theorem ValidateCanCloneSourceAndTargetSpec_spec sourceSpec targetSpec :
  (ValidateCanCloneSourceAndTargetSpec sourceSpec targetSpec = None
   ↔ storage_Value sourceSpec ≤ storage_Value targetSpec
     ∧ spec_volume_mode sourceSpec = spec_volume_mode targetSpec)
  ∧ (storage_Value targetSpec < storage_Value sourceSpec
     → ValidateCanCloneSourceAndTargetSpec sourceSpec targetSpec
       = Some (errorString "target resources requests storage size is smaller than the source"))
  ∧ (storage_Value sourceSpec ≤ storage_Value targetSpec
     → spec_volume_mode sourceSpec ≠ spec_volume_mode targetSpec
     → ValidateCanCloneSourceAndTargetSpec sourceSpec targetSpec
       = Some (errorString ("source volumeMode (" ++ mode_string (spec_volume_mode sourceSpec)
                            ++ ") and target volumeMode ("
                            ++ mode_string (spec_volume_mode targetSpec)
                            ++ ") do not match"))).
Proof.
  assert (Hmode : ∀ spec, effectiveVolumeMode spec = spec_volume_mode spec).
  { intros [? [[]|]]; reflexivity. }
  unfold ValidateCanCloneSourceAndTargetSpec. rewrite !Hmode.
  destruct (Z.ltb_spec (storage_Value targetSpec) (storage_Value sourceSpec)).
  - split; [|split]; [|done|lia]. split; [done|]. lia.
  - case_bool_decide as Hne.
    + split; [|split]; [|lia|done]. split; [done|]. intros [_ ?]. done.
    + split; [|split]; [|lia|].
      * split; [|done]. intros _. split; [lia|].
        destruct (decide (spec_volume_mode sourceSpec = spec_volume_mode targetSpec)); done.
      * intros _ ?. done.
Qed.

(** The third scenario of the specification: source filesystem, target
    block. *)
Lemma ValidateCanCloneSourceAndTargetSpec_witness :
  ValidateCanCloneSourceAndTargetSpec
    {| Requests_storage := Some 10; VolumeMode := None |}
    {| Requests_storage := Some 10; VolumeMode := Some PersistentVolumeBlock |}
  = Some (errorString "source volumeMode (Filesystem) and target volumeMode (Block) do not match").
Proof.
  apply (ValidateCanCloneSourceAndTargetSpec_spec
           {| Requests_storage := Some 10; VolumeMode := None |}
           {| Requests_storage := Some 10; VolumeMode := Some PersistentVolumeBlock |}).
  - vm_compute. discriminate.
  - vm_compute. discriminate.
Defined.

(** ** Token binding *)

(** C2: for a token that the validator accepts (signature, issuer and
    time window), validateCloneToken returns no error if and only if all
    six bindings hold; when any of them fails the error is "invalid
    token". *)
Theorem validateCloneToken_bound (validator : Validator) source target tok tokenData :
  pvc_Annotations target !! AnnCloneToken = Some tok →
  validator tok = Ok tokenData →
  (validateCloneToken validator source target = None ↔ token_bound tokenData source target)
  ∧ (¬ token_bound tokenData source target
     → validateCloneToken validator source target = Some (errorString "invalid token")).
Proof.
  intros Htok Hvalid. unfold validateCloneToken, token_bound. rewrite Htok, Hvalid.
  repeat case_bool_decide; simpl; split; try done; try tauto; split; try done; tauto.
Qed.

(** The fourth scenario of the specification: a token whose targetName is
    another claim's. *)
Lemma validateCloneToken_bound_witness :
  validateCloneToken test_validator source_pvc
    (pvc_with {[ AnnCloneToken := "signed-other" ]} [])
  = Some (errorString "invalid token").
Proof.
  apply (validateCloneToken_bound test_validator source_pvc
           (pvc_with {[ AnnCloneToken := "signed-other" ]} [])
           "signed-other" (clone_payload "other")).
  - reflexivity.
  - reflexivity.
  - vm_compute. intros (_ & _ & _ & _ & _ & H). discriminate H.
Defined.

Example validateCloneToken_accepts :
  validateCloneToken test_validator source_pvc (pvc_with {[ AnnCloneToken := "signed" ]} [])
  = None.
Proof. reflexivity. Qed.

(** ** Finding the source pod *)

(** C6: findCloneSourcePod lists the pods of the source namespace that
    carry the label CloneUniqueID = <uid>-source-pod.  More than one match
    is an error, none reports that no pod exists, exactly one is returned.
    The call changes nothing. *)
Theorem findCloneSourcePod_spec pvc namespace name (c : Cluster) :
  ParseCloneRequestAnnotation pvc = (true, namespace, name) →
  let listed :=
    List.filter (selects namespace CloneUniqueID (pvc_UID pvc ++ "-source-pod")%string)
                (pods c) in
  ((1 < length listed)%nat → ∃ err, findCloneSourcePod pvc c = (Fail err, c, []))
  ∧ (listed = [] → findCloneSourcePod pvc c = (Return None, c, []))
  ∧ (∀ pod, listed = [pod] → findCloneSourcePod pvc c = (Return (Some pod), c, [])).
Proof.
  intros Hparse listed. unfold findCloneSourcePod. rewrite Hparse. simpl.
  unfold bind, wrapping, Client_List. fold listed.
  split; [|split].
  - intros Hlen. apply Nat.ltb_lt in Hlen. rewrite Hlen. eauto.
  - intros ->. reflexivity.
  - intros pod ->. reflexivity.
Qed.

Lemma findCloneSourcePod_spec_witness :
  let pvc := clone_target ∅ [] in
  let other := source_pod "ffff" "Running" None in
  let mine := source_pod "7f1c" "Running" None in
  findCloneSourcePod pvc {| pvcs := [pvc]; pods := [other; mine] |}
  = (Return (Some mine), {| pvcs := [pvc]; pods := [other; mine] |}, []).
Proof.
  intros pvc other mine.
  apply (findCloneSourcePod_spec pvc "stage" "pvc-src" {| pvcs := [pvc]; pods := [other; mine] |}).
  - reflexivity.
  - reflexivity.
Defined.

Example findCloneSourcePod_two :
  let pvc := clone_target ∅ [] in
  let mine := source_pod "7f1c" "Running" None in
  (findCloneSourcePod pvc {| pvcs := [pvc]; pods := [mine; mine] |}).1.1
  = Fail (errorString "multiple source pods found for clone PVC prod/pvc-dst").
Proof. reflexivity. Qed.

(** ** The upload proxy: authorisation *)

Example header_bearer :
  FindStringSubmatch "Bearer eyJhbGciOi.J9-_~+/" = ["Bearer eyJhbGciOi.J9-_~+/"; "eyJhbGciOi.J9-_~+/"].
Proof. reflexivity. Qed.
Example header_case : FindStringSubmatch "bEARER   t0k" = ["bEARER   t0k"; "t0k"].
Proof. reflexivity. Qed.
Example header_basic : FindStringSubmatch "Basic xxx" = [].
Proof. reflexivity. Qed.
Example header_malformed :
  FindStringSubmatch "Bearer" = [] ∧ FindStringSubmatch "Bearer a b" = []
  ∧ FindStringSubmatch "Bearer a=" = [] ∧ FindStringSubmatch "Bearer tok " = []
  ∧ FindStringSubmatch " Bearer tok" = [].
Proof. repeat split; reflexivity. Qed.

Lemma substring_all s : substring 0 (String.length s) s = s.
Proof. induction s as [|c s IH]; simpl; [done|]. by rewrite IH. Qed.

Lemma substring_split n s :
  s = (substring 0 n s ++ substring n (String.length s - n) s)%string.
Proof.
  revert s. induction n as [|n IH]; intros [|c s]; simpl; try done.
  - by rewrite substring_all.
  - exact (f_equal (String c) (IH s)).
Qed.

Lemma substring_prefix word rest :
  substring 0 (String.length word) (word ++ rest) = word.
Proof. induction word as [|c word IH]; simpl; [by destruct rest|]. by rewrite IH. Qed.

Lemma substring_suffix word rest :
  substring (String.length word) (String.length rest) (word ++ rest) = rest.
Proof. induction word as [|c word IH]; simpl; [apply substring_all|done]. Qed.

Lemma length_lowerString s : String.length (lowerString s) = String.length s.
Proof. induction s as [|c s IH]; simpl; [done|]. by rewrite IH. Qed.

Lemma length_append (a b : string) :
  String.length (a ++ b) = (String.length a + String.length b)%nat.
Proof. induction a as [|c a IH]; simpl; [done|]. by rewrite IH. Qed.

Lemma spanSpace_split s ws rest :
  spanSpace s = (ws, rest) → s = (ws ++ rest)%string ∧ all_space ws.
Proof.
  revert ws. induction s as [|c s IH]; simpl; intros ws.
  - by intros [= <- <-].
  - destruct (isSpace c) eqn:E.
    + destruct (spanSpace s) as [ws' rest']. intros [= <- <-].
      destruct (IH ws' eq_refl) as [-> ?]. done.
    + by intros [= <- <-].
Qed.

Lemma tokenRunes_head c s : tokenRunes (String c s) = true → isSpace c = false.
Proof.
  simpl. destruct (isTokenByte c) eqn:Htok.
  - intros _. revert Htok. unfold isTokenByte, isSpace.
    destruct c as [[] [] [] [] [] [] [] []]; vm_compute; congruence.
  - destruct s as [|c1 s1]; [done|].
    destruct (nat_of_ascii c =? 197)%nat eqn:E1.
    { intros _. apply Nat.eqb_eq in E1. unfold isSpace. rewrite E1. by vm_compute. }
    simpl. destruct s1 as [|c2 s2]; [done|].
    destruct (nat_of_ascii c =? 226)%nat eqn:E2; [|done].
    intros _. apply Nat.eqb_eq in E2. unfold isSpace. rewrite E2. by vm_compute.
Qed.

Lemma spanSpace_app ws tok :
  all_space ws → tok ≠ "" → tokenRunes tok = true → spanSpace (ws ++ tok) = (ws, tok).
Proof.
  intros Hws Hne Htok. induction ws as [|c ws IH].
  - change (spanSpace tok = ("", tok)).
    destruct tok as [|c tok]; [done|]. simpl. by rewrite (tokenRunes_head _ _ Htok).
  - change (spanSpace (String c (ws ++ tok)) = (String c ws, tok)).
    destruct Hws as [Hc Hws]. simpl. by rewrite Hc, IH.
Qed.

(** The matcher accepts exactly the texts of the pattern, and hands out
    the token. *)
Lemma FindStringSubmatch_spec s tok :
  FindStringSubmatch s = [s; tok] ↔ matches_authHeader s tok.
Proof.
  unfold FindStringSubmatch, matches_authHeader. split.
  - case_bool_decide as Hword; [|done].
    destruct (spanSpace _) as [ws tok'] eqn:Hspan.
    destruct (negb (bool_decide (ws = ""))) eqn:Hws; [|done].
    destruct (negb (bool_decide (tok' = ""))) eqn:Htok'; [|done].
    destruct (tokenRunes tok') eqn:Hrunes; [|done]. simpl. intros [= <-].
    apply spanSpace_split in Hspan as [Hrest ?].
    exists (substring 0 6 s), ws. split_and!; try done.
    + rewrite <- Hrest. apply substring_split.
    + intros ->. done.
    + intros ->. done.
  - intros (word & ws & -> & Hword & Hws & Hspace & Htok & Hrunes).
    assert (String.length word = 6%nat) as Hlen
      by (by rewrite <- length_lowerString, Hword).
    rewrite <- Hlen. rewrite substring_prefix, bool_decide_eq_true_2 by done.
    rewrite length_append, Nat.add_comm, Nat.add_sub, substring_suffix.
    rewrite spanSpace_app by done.
    rewrite (bool_decide_eq_false_2 (ws = "")), (bool_decide_eq_false_2 (tok = "")) by done.
    by rewrite Hrunes.
Qed.

Lemma FindStringSubmatch_shape s :
  FindStringSubmatch s = [] ∨ ∃ tok, FindStringSubmatch s = [s; tok].
Proof.
  unfold FindStringSubmatch. case_bool_decide; [|by left].
  destruct (spanSpace _) as [ws tok].
  destruct (_ && _); [right; by exists tok | by left].
Qed.

Lemma upload_claims_test tokenData :
  bool_decide (payload_Operation tokenData ≠ OperationUpload)
  || bool_decide (payload_Name tokenData = "")
  || bool_decide (payload_Namespace tokenData = "")
  || bool_decide (Resource (payload_Resource tokenData) ≠ "persistentvolumeclaims") = false
  ↔ upload_claims tokenData.
Proof.
  unfold upload_claims. repeat case_bool_decide; simpl; split; try done; tauto.
Qed.

(** C8: an absent Authorization header, or one that the pattern does not
    match, is answered 400 and the validator is not called; a header that
    matches with a token the validator rejects is answered 401; a token
    that validates but whose payload has another operation, an empty name,
    an empty namespace or another resource is answered 400.  Nothing else
    happens in these cases. *)
Theorem handleUploadRequest_auth app r :
  let header := index (Header r) "Authorization" in
  ((header = "" ∨ ¬ ∃ tok, matches_authHeader header tok)
   → handleUploadRequest app r = ([WriteHeader 400], Returned))
  ∧ (∀ tok, matches_authHeader header tok →
       (∀ err, uploadproxy.tokenValidator app tok = Err err
          → handleUploadRequest app r = ([CallValidate tok; WriteHeader 401], Returned))
       ∧ (∀ tokenData, uploadproxy.tokenValidator app tok = Ok tokenData
          → payload_Operation tokenData ≠ OperationUpload
            ∨ payload_Name tokenData = ""
            ∨ payload_Namespace tokenData = ""
            ∨ Resource (payload_Resource tokenData) ≠ "persistentvolumeclaims"
          → handleUploadRequest app r = ([CallValidate tok; WriteHeader 400], Returned))).
Proof.
  intros header. unfold handleUploadRequest. fold header. split.
  - intros [->|Hno]; [reflexivity|]. case_bool_decide; [done|].
    destruct (FindStringSubmatch_shape header) as [->|[tok Htok]]; [done|].
    destruct Hno. exists tok. by apply FindStringSubmatch_spec.
  - intros tok Hmatch%FindStringSubmatch_spec.
    assert (header ≠ "") as Hne by (intros E; rewrite E in Hmatch; discriminate Hmatch).
    rewrite bool_decide_false by done. rewrite Hmatch. simpl. split.
    + intros err ->. reflexivity.
    + intros tokenData -> Hbad.
      destruct (_ || _) eqn:E; [reflexivity|].
      apply upload_claims_test in E as (? & ? & ? & ?). tauto.
Qed.

(** A clone token presented to the proxy: 400. *)
Lemma handleUploadRequest_auth_witness :
  handleUploadRequest (proxy_app ∅ (Some test_client, None)) (request_with "Bearer cl0ne")
  = ([CallValidate "cl0ne"; WriteHeader 400], Returned).
Proof.
  apply (handleUploadRequest_auth (proxy_app ∅ (Some test_client, None))
           (request_with "Bearer cl0ne")) with (tokenData := clone_payload "pvc-dst").
  - apply FindStringSubmatch_spec. reflexivity.
  - reflexivity.
  - left. discriminate.
Defined.

Example handleUploadRequest_no_header :
  handleUploadRequest (proxy_app ∅ (Some test_client, None))
    {| Method := "POST"; Path := "/v1alpha1/upload"; Header := ∅; Body := ""; ContentLength := 0 |}
  = ([WriteHeader 400], Returned).
Proof. reflexivity. Qed.
Example handleUploadRequest_basic :
  handleUploadRequest (proxy_app ∅ (Some test_client, None)) (request_with "Basic xxx")
  = ([WriteHeader 400], Returned).
Proof. reflexivity. Qed.
Example handleUploadRequest_forged :
  handleUploadRequest (proxy_app ∅ (Some test_client, None)) (request_with "Bearer f0rged")
  = ([CallValidate "f0rged"; WriteHeader 401], Returned).
Proof. reflexivity. Qed.

(** ** The upload proxy: readiness gate *)

Lemma ParseBool_true v : ParseBool v = Ok true ↔ truthy v.
Proof.
  unfold ParseBool, truthy. case_bool_decide; [done|].
  split; [|done]. by case_bool_decide.
Qed.

Lemma condition_true app name namespace k :
  uploadReadyCondition app name namespace k = Ok true ↔ ready_at app name namespace k.
Proof.
  unfold uploadReadyCondition, ready_at. destruct (client app k namespace name) as [pvc|err].
  - case_bool_decide as Hphase.
    + split; [done|]. intros (? & [= <-] & ? & _). done.
    + destruct (ParseBool _) as [b|] eqn:E.
      * split.
        -- intros [= ->]. exists pvc. by rewrite <- ParseBool_true.
        -- intros (? & [= <-] & _ & Ht). apply ParseBool_true in Ht. congruence.
      * split; [done|]. intros (? & [= <-] & _ & Ht). apply ParseBool_true in Ht. congruence.
  - split; [by destruct (IsNotFound err)|]. by intros (? & ? & _).
Qed.

Lemma condition_false app name namespace k :
  uploadReadyCondition app name namespace k = Ok false ↔ waiting_at app name namespace k.
Proof.
  unfold uploadReadyCondition, waiting_at. destruct (client app k namespace name) as [pvc|err].
  - case_bool_decide as Hphase.
    + split; [done|]. intros (? & [= <-] & ? & _). done.
    + destruct (ParseBool _) as [b|] eqn:E.
      * split.
        -- intros [= ->]. exists pvc. rewrite <- ParseBool_true. split_and!; congruence.
        -- intros (? & [= <-] & _ & Ht). rewrite <- ParseBool_true in Ht.
           destruct b; [done|reflexivity].
      * split; [|done]. intros _. exists pvc. rewrite <- ParseBool_true. split_and!; congruence.
  - split; [by destruct (IsNotFound err)|]. by intros (? & ? & _).
Qed.

Lemma condition_error app name namespace k :
  (∃ err, uploadReadyCondition app name namespace k = Err err)
  ↔ rejected_at app name namespace k.
Proof.
  unfold uploadReadyCondition, rejected_at. destruct (client app k namespace name) as [pvc|err].
  - case_bool_decide as Hphase.
    + split; [|eauto]. intros _. right. eauto.
    + split.
      * intros [? H]. by destruct (ParseBool _).
      * intros [[? ?]|(? & [= <-] & ?)]; done.
  - split; [eauto|]. intros _. destruct (IsNotFound err); eauto.
Qed.

(** The poll succeeds exactly when some try within its budget finds the
    condition true and every earlier try found it false. *)
Lemma poll_success n k condition :
  (poll n k condition).1 = None
  ↔ ∃ j, (j < n)%nat ∧ condition (k + j)%nat = Ok true
         ∧ ∀ i, (i < j)%nat → condition (k + i)%nat = Ok false.
Proof.
  revert k. induction n as [|n IH]; intros k; simpl.
  - split; [done|]. intros (? & ? & _). lia.
  - destruct (condition k) as [[]|err] eqn:E.
    + split; [|done]. intros _. exists 0%nat. rewrite Nat.add_0_r. split_and!; [lia|done|lia].
    + specialize (IH (S k)). destruct (poll n (S k) condition) as [e tries]. simpl in *.
      rewrite IH. split.
      * intros (j & ? & Hj & Hi). exists (S j). split_and!; [lia|by rewrite Nat.add_succ_r|].
        intros [|i] ?; [by rewrite Nat.add_0_r|].
        rewrite Nat.add_succ_r. apply Hi. lia.
      * intros ([|j] & ? & Hj & Hi).
        -- rewrite Nat.add_0_r in Hj. congruence.
        -- exists j. split_and!; [lia|by rewrite Nat.add_succ_r in Hj|].
           intros i ?. specialize (Hi (S i)). rewrite Nat.add_succ_r in Hi. apply Hi. lia.
    + split; [done|]. intros ([|j] & ? & Hj & Hi).
      * rewrite Nat.add_0_r in Hj. congruence.
      * specialize (Hi 0%nat). rewrite Nat.add_0_r in Hi. rewrite Hi in E; [done|lia].
Qed.

Lemma poll_tries n k condition : ((poll n k condition).2 ≤ n)%nat.
Proof.
  revert k. induction n as [|n IH]; intros k; simpl; [lia|].
  destruct (condition k) as [[]|]; simpl; try lia.
  specialize (IH (S k)). destruct (poll n (S k) condition). simpl in *. lia.
Qed.

(** C3, as stated, fails: with PodReady = "1" the gate succeeds at the
    first poll, and the request goes upstream, although the annotation is
    not "true". *)
Lemma uploadReady_accepts_1 :
  let app := proxy_app {[ AnnPodReady := "1" ]} (Some test_client, None) in
  (∀ k pvc, client app k "prod" "pvc-dst" = Ok pvc
            → index (pvc_Annotations pvc) AnnPodReady ≠ "true")
  ∧ uploadReady app "pvc-dst" "prod" = (None, [CallGetPVC 0 "prod" "pvc-dst"])
  ∧ ∃ req, CallDo req ∈ (handleUploadRequest app (request_with "Bearer upl0ad")).1.
Proof.
  split; [|split].
  - intros k pvc [= <-]. vm_compute. discriminate.
  - reflexivity.
  - eexists. vm_compute. do 3 right. left.
Qed.

(** C3, amended: the gate polls the claim named by the token at once and
    then once per second for 10 seconds (at most 11 reads), and succeeds if
    and only if, at the first poll that does not find the claim waiting,
    the claim exists, its PodPhase is not Succeeded and its PodReady is one
    of 1, t, T, TRUE, true, True.  A read that fails (not-found or any
    other error) or a PodPhase of Succeeded at that poll, or 11 polls that
    all find the claim waiting, make the handler answer 503; it then has
    only read the claim and has made no upstream request. *)
Theorem uploadReady_gate app r tok tokenData :
  matches_authHeader (index (Header r) "Authorization") tok →
  uploadproxy.tokenValidator app tok = Ok tokenData →
  upload_claims tokenData →
  let name := payload_Name tokenData in
  let namespace := payload_Namespace tokenData in
  (waitReadyImterval = Second ∧ waitReadyTime = 10 * Second)
  ∧ ((uploadReady app name namespace).1 = None
     ↔ ∃ k, (k ≤ 10)%nat ∧ ready_at app name namespace k
            ∧ ∀ j, (j < k)%nat → waiting_at app name namespace j)
  ∧ (∀ k, (k ≤ 10)%nat → (∀ j, (j < k)%nat → waiting_at app name namespace j)
          → rejected_at app name namespace k
          → (uploadReady app name namespace).1 ≠ None)
  ∧ ((∀ j, (j ≤ 10)%nat → waiting_at app name namespace j)
     → (uploadReady app name namespace).1 ≠ None)
  ∧ ((uploadReady app name namespace).1 ≠ None
     → ∃ polls,
         handleUploadRequest app r
           = ((CallValidate tok :: polls ++ [WriteHeader 503])%list, Returned)
         ∧ (length polls ≤ 11)%nat
         ∧ ∀ e, e ∈ polls → ∃ k, e = CallGetPVC k namespace name).
Proof.
  intros Hmatch%FindStringSubmatch_spec Hvalid Hclaims name namespace.
  assert (Hgate : (uploadReady app name namespace).1 = None
     ↔ ∃ k, (k ≤ 10)%nat ∧ ready_at app name namespace k
            ∧ ∀ j, (j < k)%nat → waiting_at app name namespace j).
  { unfold uploadReady, PollImmediate.
    change (Z.to_nat (waitReadyTime / waitReadyImterval) + 1)%nat with 11%nat.
    pose proof (poll_success 11 0 (uploadReadyCondition app name namespace)) as H.
    destruct (poll 11 0 _) as [e tries]. simpl in *. rewrite H.
    split; intros (k & ? & Hk & Hj); exists k.
    - split_and!; [lia|by apply condition_true|]. intros j ?. by apply condition_false, Hj.
    - split_and!; [lia|by apply condition_true|]. intros j ?. by apply condition_false, Hj. }
  assert (Hexcl : ∀ k, ready_at app name namespace k → waiting_at app name namespace k → False).
  { intros k (pvc & Hp & _ & Ht) (pvc' & Hp' & _ & Hn). congruence. }
  split; [done|]. split; [exact Hgate|]. split; [|split].
  - intros k Hk Hwait Hrej Hok. apply Hgate in Hok as (k' & _ & Hready & Hwait').
    destruct (lt_eq_lt_dec k k') as [[Hlt| ->]|Hlt].
    + apply Hwait' in Hlt as (pvc & Hp & Hphase & _).
      destruct Hrej as [[? ?]|(? & ? & ?)]; congruence.
    + destruct Hready as (pvc & Hp & Hphase & _).
      destruct Hrej as [[? ?]|(? & ? & ?)]; congruence.
    + eauto.
  - intros Hwait Hok. apply Hgate in Hok as (k & Hk & Hready & _). eauto.
  - intros Hfail. unfold handleUploadRequest.
    assert (index (Header r) "Authorization" ≠ "") as Hne
      by (intros E; rewrite E in Hmatch; discriminate Hmatch).
    rewrite bool_decide_false by done. rewrite Hmatch. simpl. rewrite Hvalid.
    rewrite (proj2 (upload_claims_test tokenData) Hclaims).
    fold name namespace. unfold uploadReady, PollImmediate in *.
    change (Z.to_nat (waitReadyTime / waitReadyImterval) + 1)%nat with 11%nat in *.
    pose proof (poll_tries 11 0 (uploadReadyCondition app name namespace)) as Htries.
    destruct (poll 11 0 _) as [[e|] tries]; [|done]. simpl in *.
    eexists. split; [reflexivity|]. split.
    + by rewrite length_map, length_seq.
    + intros e' (k & -> & _)%list_elem_of_fmap. eauto.
Qed.

(** The sixth scenario of the specification: PodReady is absent for the
    whole poll. *)
Lemma uploadReady_gate_witness :
  (uploadReady (proxy_app ∅ (Some test_client, None)) "pvc-dst" "prod").1 ≠ None.
Proof.
  apply (uploadReady_gate (proxy_app ∅ (Some test_client, None)) (request_with "Bearer upl0ad")
           "upl0ad" upload_payload).
  - apply FindStringSubmatch_spec. reflexivity.
  - reflexivity.
  - by vm_compute.
  - intros j _. exists (pvc_with ∅ []). split_and!.
    + reflexivity.
    + vm_compute. discriminate.
    + vm_compute. intros H. by repeat (apply elem_of_cons in H as [H|H]; [discriminate H|]);
        apply elem_of_nil in H.
Defined.

Example handleUploadRequest_not_ready :
  handleUploadRequest (proxy_app ∅ (Some test_client, None)) (request_with "Bearer upl0ad")
  = ((CallValidate "upl0ad"
      :: map (λ k, CallGetPVC k "prod" "pvc-dst") (seq 0 11) ++ [WriteHeader 503])%list,
     Returned).
Proof. reflexivity. Qed.

Example handleUploadRequest_ready :
  handleUploadRequest (proxy_app {[ AnnPodReady := "true" ]} (Some test_client, None))
    (request_with "Bearer upl0ad")
  = ([CallValidate "upl0ad"; CallGetPVC 0 "prod" "pvc-dst"; CallCreateClient;
      CallDo {| out_Method := "POST"; out_URL := "https://pvc-dst.prod/v1alpha1/upload";
                out_Body := "disk image"; out_ContentLength := 10 |};
      WriteHeader 200; WriteBody ""], Returned).
Proof. reflexivity. Qed.

(** ** The upload proxy: building the upstream client *)

Example CreateClient_fails :
  CreateClient failing_creator
  = (None, Some (errorString "open /var/run/certs/tls.crt: no such file")).
Proof. reflexivity. Qed.

(** C5 at its failing input: the token is valid and the claim is ready,
    but CreateClient returns (nil, err).  proxyUploadRequest logs the error
    and goes on to call Do on the nil client: the handler panics, no status
    is written and no upstream request is made. *)
Theorem handleUploadRequest_nil_client :
  let app := proxy_app {[ AnnPodReady := "true" ]} (CreateClient failing_creator) in
  handleUploadRequest app (request_with "Bearer upl0ad")
  = ([CallValidate "upl0ad"; CallGetPVC 0 "prod" "pvc-dst"; CallCreateClient],
     Panicked "invalid memory address or nil pointer dereference")
  ∧ ∀ code, WriteHeader code ∉ (handleUploadRequest app (request_with "Bearer upl0ad")).1.
Proof.
  split; [reflexivity|].
  intros code H. vm_compute in H.
  repeat (apply elem_of_cons in H as [H|H]; [discriminate H|]). by apply elem_of_nil in H.
Qed.

(** Every other error path does end in a status: whenever the creator
    hands out a client, the handler returns and the last thing it wrote to
    the caller is a status or the body after one. *)
Lemma handleUploadRequest_returns app r cl err :
  clientCreator app = (Some cl, err) →
  (handleUploadRequest app r).2 = Returned
  ∧ ∃ code, WriteHeader code ∈ (handleUploadRequest app r).1.
Proof.
  intros Hcl. unfold handleUploadRequest.
  case_bool_decide; [split; [done|]; eexists; by left|].
  destruct (negb _); [split; [done|]; eexists; by left|].
  destruct (uploadproxy.tokenValidator app _) as [tokenData|];
    [|split; [done|]; eexists; right; by left].
  destruct (_ || _); [split; [done|]; eexists; right; by left|].
  destruct (uploadReady app _ _) as [[e|] polls].
  - split; [done|]. eexists. right. apply elem_of_app. right. by left.
  - unfold proxyUploadRequest. rewrite Hcl.
    destruct (upstream app cl _); (split; [done|]); eexists; right; apply elem_of_app; right;
      do 2 right; by left.
Qed.

(** ** The restart counter *)


(** With at least one container status the read is in bounds, for a claim
    as [Reconcile] passes it on. *)
Lemma updatePvcFromPod_no_panic pod pvc status statuses c :
  shouldReconcile pvc = true →
  pod_ContainerStatuses pod = Some (status :: statuses) →
  ∀ msg, (updatePvcFromPod (Some pod) pvc c).1.1 ≠ Panic msg.
Proof.
  intros _ Hst msg. unfold updatePvcFromPod, bind. rewrite Hst.
  destruct (_ && _); simpl; destruct (_ <? _); simpl;
    case_bool_decide; simpl; unfold updatePVC, Client_Update, ret;
    repeat (destruct (existsb _ _); simpl); done.
Qed.

(** ** The reconcile pass, step by step *)

Lemma updatePvcFromPod_unfold sourcePod pvc c :
  updatePvcFromPod sourcePod pvc c =
    let pvc1 := addFinalizer pvc cloneSourcePodFinalizer in
    let events := if marks pvc1 then [succeeded_event pvc] else [] in
    match counted sourcePod (marked pvc1) with
    | None => (Panic "index out of range [0] with length 0", c, events)
    | Some pvc3 =>
        if bool_decide (pvc ≠ pvc3) then
          let '(o, c', t) := Client_Update pvc3 c in (o, c', (events ++ t)%list)
        else (Return tt, c, events)
    end.
Proof.
  unfold updatePvcFromPod, counted, marked, marks, succeeded_event, bind, updatePVC.
  assert (Hns : pvc_Namespace (addFinalizer pvc cloneSourcePodFinalizer) = pvc_Namespace pvc)
    by (unfold addFinalizer; by destruct (hasFinalizer _ _)).
  assert (Hn : pvc_Name (addFinalizer pvc cloneSourcePodFinalizer) = pvc_Name pvc)
    by (unfold addFinalizer; by destruct (hasFinalizer _ _)).
  destruct (_ && _); simpl; rewrite ?Hns, ?Hn;
    (destruct sourcePod as [pod|]; simpl; [destruct (pod_ContainerStatuses pod) as [[|st sts]|]|]);
    simpl; try reflexivity;
    repeat (match goal with |- context [if ?b then _ else _] => destruct b end; simpl);
    try reflexivity;
    try (destruct (Client_Update _ _) as [[[] ?] ?]; simpl; rewrite ?app_nil_r; reflexivity).
Qed.

Lemma stored_key c namespace name pvc :
  stored c namespace name = Some pvc → pvc_Namespace pvc = namespace ∧ pvc_Name pvc = name.
Proof.
  intros H. apply find_some in H as [_ H]. unfold pvc_is in H.
  apply andb_prop in H as [H1 H2]. by apply bool_decide_eq_true in H1, H2.
Qed.

Lemma Client_Get_stored namespace name c :
  Client_Get namespace name c =
    match stored c namespace name with
    | Some pvc => (Return pvc, c, [])
    | None => (Fail (StatusNotFound name), c, [])
    end.
Proof. reflexivity. Qed.

Lemma Client_Update_stored c namespace name pvc pvc' :
  stored c namespace name = Some pvc →
  pvc_Namespace pvc' = namespace → pvc_Name pvc' = name →
  Client_Update pvc' c = (Return tt, replace_pvc pvc' c, [UpdatePVC pvc']).
Proof.
  intros Hst <- <-. unfold Client_Update.
  replace (existsb _ _) with true; [done|]. symmetry. apply existsb_exists.
  apply find_some in Hst. eauto.
Qed.

Lemma stored_replace c namespace name pvc pvc' :
  stored c namespace name = Some pvc →
  pvc_Namespace pvc' = namespace → pvc_Name pvc' = name →
  stored (replace_pvc pvc' c) namespace name = Some pvc'.
Proof.
  unfold stored, replace_pvc. simpl. intros Hst <- <-.
  induction (pvcs c) as [|p l IH]; simpl in *; [done|].
  destruct (pvc_is _ _ p) eqn:E; simpl.
  - replace (pvc_is _ _ pvc') with true; [done|].
    unfold pvc_is. by rewrite !bool_decide_eq_true_2.
  - rewrite E. by apply IH.
Qed.

(** Finding the source pod reads the pods, the claim's UID and its
    CloneRequest annotation, and nothing else. *)
Lemma findCloneSourcePod_frame pvc c :
  findCloneSourcePod pvc c = ((findCloneSourcePod pvc c).1.1, c, []).
Proof.
  unfold findCloneSourcePod. destruct (ParseCloneRequestAnnotation pvc) as [[[] ns] n]; simpl;
    [|done].
  unfold bind, wrapping, Client_List. destruct (_ <? _)%nat; [done|].
  by destruct (List.filter _ _).
Qed.

Lemma findCloneSourcePod_no_panic pvc c msg : (findCloneSourcePod pvc c).1.1 ≠ Panic msg.
Proof.
  unfold findCloneSourcePod. destruct (ParseCloneRequestAnnotation pvc) as [[[] ns] n]; simpl;
    [|done].
  unfold bind, wrapping, Client_List. destruct (_ <? _)%nat; [done|].
  by destruct (List.filter _ _).
Qed.

Lemma findCloneSourcePod_ext pvc pvc' c c' :
  pvc_UID pvc' = pvc_UID pvc →
  pvc_Namespace pvc' = pvc_Namespace pvc → pvc_Name pvc' = pvc_Name pvc →
  pvc_Annotations pvc' !! AnnCloneRequest = pvc_Annotations pvc !! AnnCloneRequest →
  pods c' = pods c →
  (findCloneSourcePod pvc' c').1.1 = (findCloneSourcePod pvc c).1.1.
Proof.
  intros Hu Hns Hn Ha Hp. unfold findCloneSourcePod, ParseCloneRequestAnnotation.
  rewrite Ha. destruct (pvc_Annotations pvc !! AnnCloneRequest) as [ann|]; [|done].
  destruct (Split ann "/") as [|a [|b [|? ?]]]; try done. simpl.
  unfold bind, wrapping, Client_List. rewrite Hu, Hns, Hn, Hp.
  destruct (_ <? _)%nat; [done|]. by destruct (List.filter _ _).
Qed.

(** With no source pod, the pass either fails before it changes anything
    or creates the planned pod. *)
Lemma reconcileSourcePod_None r pvc c :
  (∃ err, reconcileSourcePod r None pvc c = (Fail err, c, []))
  ∨ (∃ pod, planned_pod r pvc = Some pod
            ∧ existsb (pod_is (pod_Namespace pod) (pod_Name pod)) (pods c) = false
            ∧ reconcileSourcePod r None pvc c = (Return tt, add_pod pod c, [CreatePod pod])).
Proof.
  unfold reconcileSourcePod, planned_pod, validateSourceAndTarget, getCloneRequestSourcePVC,
    CreateCloneSourcePod.
  cbv [bind ret fail wrapping lift check Client_Get Client_Create].
  repeat go_step; try discriminate; try (left; eexists; reflexivity).
  all: right; eexists; split_and!; try reflexivity; eauto.
Qed.

Lemma findCloneSourcePod_In pvc c pod :
  (findCloneSourcePod pvc c).1.1 = Return (Some pod) → In pod (pods c).
Proof.
  unfold findCloneSourcePod. cbv [bind ret fail wrapping Client_List].
  repeat go_step; try discriminate. intros [= <-].
  match goal with H : List.filter _ _ = _ |- _ =>
    eapply (proj1 (filter_In _ _ _)); rewrite H; by left end.
Qed.

Lemma cleanup_unfold pvc c :
  cleanup pvc c =
    match (findCloneSourcePod pvc c).1.1 with
    | Fail err => (Fail err, c, [])
    | Panic msg => (Panic msg, c, [])
    | Return (Some pod) =>
        if bool_decide (pod_DeletionTimestamp pod = None) then
          if podSucceededFromPVC pvc && bool_decide (pod_Phase pod = PodRunning)
          then (Return tt, c, [])
          else
            let '(o, c', t) :=
              Client_Update (removeFinalizer pvc cloneSourcePodFinalizer) (remove_pod pod c) in
            (o, c', DeletePod (pod_Namespace pod) (pod_Name pod) :: t)
        else Client_Update (removeFinalizer pvc cloneSourcePodFinalizer) c
    | Return None => Client_Update (removeFinalizer pvc cloneSourcePodFinalizer) c
    end.
Proof.
  unfold cleanup. unfold bind at 1. rewrite findCloneSourcePod_frame.
  pose proof (findCloneSourcePod_In pvc c) as Hin.
  destruct ((findCloneSourcePod pvc c).1.1) as [[pod|]| |]; simpl; try reflexivity.
  - specialize (Hin pod eq_refl). unfold bind at 1.
    case_bool_decide; simpl.
    + destruct (_ && _); simpl; [reflexivity|].
      unfold bind, try, Client_Delete.
      replace (existsb _ (pods c)) with true.
      * cbv [ret updatePVC]. simpl. fold (remove_pod pod c).
        by destruct (Client_Update _ _) as [[[] ?] ?].
      * symmetry. apply existsb_exists. exists pod. split; [done|].
        unfold pod_is. by rewrite !bool_decide_eq_true_2.
    + cbv [bind ret updatePVC]. by destruct (Client_Update _ _) as [[[] ?] ?].
  - cbv [bind ret updatePVC]. by destruct (Client_Update _ _) as [[[] ?] ?].
Qed.

Lemma Reconcile_unfold r namespace name c :
  Reconcile r namespace name c =
    match stored c namespace name with
    | None => (Return tt, c, [])
    | Some pvc =>
        if negb (shouldReconcile pvc) then
          if hasFinalizer pvc cloneSourcePodFinalizer then cleanup pvc c else (Return tt, c, [])
        else
          match waitTargetPodRunningOrSucceeded pvc with
          | Err err => (Fail (Wrap err "error ensuring target upload pod running"), c, [])
          | Ok false => (Return tt, c, [])
          | Ok true =>
              match (findCloneSourcePod pvc c).1.1 with
              | Fail err => (Fail err, c, [])
              | Panic msg => (Panic msg, c, [])
              | Return (Some pod) => updatePvcFromPod (Some pod) pvc c
              | Return None =>
                  match reconcileSourcePod r None pvc c with
                  | (Return _, c', t) =>
                      let '(o, c'', t') := updatePvcFromPod None pvc c' in
                      (o, c'', (t ++ t')%list)
                  | (Fail err, c', t) => (Fail err, c', t)
                  | (Panic msg, c', t) => (Panic msg, c', t)
                  end
              end
          end
    end.
Proof.
  unfold Reconcile. unfold bind at 1, try. rewrite Client_Get_stored.
  generalize updatePvcFromPod cleanup. intros update clean.
  destruct (stored c namespace name) as [pvc|]; cbv beta iota; [|reflexivity].
  destruct (negb (shouldReconcile pvc)).
  { destruct (hasFinalizer _ _); [|reflexivity]. by destruct (clean pvc c) as [[[] ?] ?]. }
  unfold bind at 1, wrapping, lift.
  destruct (waitTargetPodRunningOrSucceeded pvc) as [[]|]; cbv beta iota delta [ret fail negb];
    try reflexivity.
  unfold bind at 1. rewrite findCloneSourcePod_frame.
  destruct ((findCloneSourcePod pvc c).1.1) as [[pod|]| |]; cbv beta iota delta [fst];
    try reflexivity.
  - unfold bind, reconcileSourcePod, ret. by destruct (update _ _ _) as [[[] ?] ?].
  - unfold bind at 1.
    destruct (reconcileSourcePod r None pvc c) as [[[] c'] t]; cbv beta iota; try reflexivity.
    by destruct (update None pvc c') as [[[] c''] t'].
Qed.

Lemma same_identity_refl p : same_identity p p.
Proof. by repeat split. Qed.

Lemma same_identity_trans p q s : same_identity p q → same_identity q s → same_identity p s.
Proof. unfold same_identity. intros (-> & -> & -> & ->) (-> & -> & -> & ->). done. Qed.

Lemma addFinalizer_identity pvc f : same_identity pvc (addFinalizer pvc f).
Proof. unfold addFinalizer. destruct (hasFinalizer pvc f); by repeat split. Qed.

Lemma removeFinalizer_identity pvc f : same_identity pvc (removeFinalizer pvc f).
Proof. unfold removeFinalizer. destruct (negb _); by repeat split. Qed.

Lemma marked_identity pvc : same_identity pvc (marked pvc).
Proof. unfold marked. destruct (marks pvc); by repeat split. Qed.

Lemma counted_identity sourcePod pvc pvc' :
  counted sourcePod pvc = Some pvc' → same_identity pvc pvc'.
Proof.
  unfold counted. destruct (sourcePod ≫= pod_ContainerStatuses) as [[|st ?]|]; try done.
  - intros [= <-]. destruct (_ <? _); by repeat split.
  - intros [= <-]. by repeat split.
Qed.

Lemma hasFinalizer_addFinalizer pvc f : hasFinalizer (addFinalizer pvc f) f = true.
Proof.
  unfold addFinalizer. destruct (hasFinalizer pvc f) eqn:E; [done|].
  unfold hasFinalizer. simpl. rewrite existsb_app. simpl.
  rewrite bool_decide_eq_true_2 by done. by rewrite orb_true_r.
Qed.

Lemma hasFinalizer_removeFinalizer pvc f : hasFinalizer (removeFinalizer pvc f) f = false.
Proof.
  unfold removeFinalizer. destruct (hasFinalizer pvc f) eqn:E; simpl; [|done].
  unfold hasFinalizer. simpl. apply not_true_is_false. intros H.
  apply existsb_exists in H as (x & Hin & Hx). apply bool_decide_eq_true in Hx as ->.
  apply list_elem_of_In, list_elem_of_filter in Hin as [? _]. done.
Qed.

Lemma marked_Finalizers pvc : pvc_Finalizers (marked pvc) = pvc_Finalizers pvc.
Proof. unfold marked. by destruct (marks pvc). Qed.

Lemma counted_Finalizers sourcePod pvc pvc' :
  counted sourcePod pvc = Some pvc' → pvc_Finalizers pvc' = pvc_Finalizers pvc.
Proof.
  unfold counted. destruct (sourcePod ≫= pod_ContainerStatuses) as [[|st ?]|]; try done.
  - intros [= <-]. by destruct (_ <? _).
  - by intros [= <-].
Qed.


Lemma mutated_identity sourcePod pvc pvc' :
  counted sourcePod (marked (addFinalizer pvc cloneSourcePodFinalizer)) = Some pvc' →
  same_identity pvc pvc'.
Proof.
  intros H. eapply same_identity_trans; [apply addFinalizer_identity|].
  eapply same_identity_trans; [apply marked_identity|]. by eapply counted_identity.
Qed.

(** [updatePvcFromPod] on a claim that is in the store: the events, then
    at most one update, made only when the claim has changed. *)
Lemma updatePvcFromPod_stored sourcePod pvc c pvc0 :
  stored c (pvc_Namespace pvc) (pvc_Name pvc) = Some pvc0 →
  updatePvcFromPod sourcePod pvc c =
    let pvc1 := addFinalizer pvc cloneSourcePodFinalizer in
    let events := if marks pvc1 then [succeeded_event pvc] else [] in
    match counted sourcePod (marked pvc1) with
    | None => (Panic "index out of range [0] with length 0", c, events)
    | Some pvc3 =>
        if bool_decide (pvc ≠ pvc3)
        then (Return tt, replace_pvc pvc3 c, (events ++ [UpdatePVC pvc3])%list)
        else (Return tt, c, events)
    end.
Proof.
  intros Hst. rewrite updatePvcFromPod_unfold. cbv zeta.
  destruct (counted _ _) as [pvc3|] eqn:E; [|done].
  case_bool_decide; [|done].
  apply mutated_identity in E as (Hns & Hn & _).
  by rewrite (Client_Update_stored c _ _ pvc0 pvc3 Hst Hns Hn).
Qed.

Lemma stored_add_pod pod c namespace name :
  stored (add_pod pod c) namespace name = stored c namespace name.
Proof. done. Qed.

Lemma stored_remove_pod pod c namespace name :
  stored (remove_pod pod c) namespace name = stored c namespace name.
Proof. done. Qed.

(** [cleanup] on a claim that is in the store. *)
Lemma cleanup_stored pvc c pvc0 :
  stored c (pvc_Namespace pvc) (pvc_Name pvc) = Some pvc0 →
  let pvc' := removeFinalizer pvc cloneSourcePodFinalizer in
  cleanup pvc c =
    match (findCloneSourcePod pvc c).1.1 with
    | Fail err => (Fail err, c, [])
    | Panic msg => (Panic msg, c, [])
    | Return (Some pod) =>
        if bool_decide (pod_DeletionTimestamp pod = None) then
          if podSucceededFromPVC pvc && bool_decide (pod_Phase pod = PodRunning)
          then (Return tt, c, [])
          else (Return tt, replace_pvc pvc' (remove_pod pod c),
                [DeletePod (pod_Namespace pod) (pod_Name pod); UpdatePVC pvc'])
        else (Return tt, replace_pvc pvc' c, [UpdatePVC pvc'])
    | Return None => (Return tt, replace_pvc pvc' c, [UpdatePVC pvc'])
    end.
Proof.
  intros Hst pvc'. rewrite cleanup_unfold. fold pvc'.
  destruct (removeFinalizer_identity pvc cloneSourcePodFinalizer) as (Hns & Hn & _).
  fold pvc' in Hns, Hn.
  destruct ((findCloneSourcePod pvc c).1.1) as [[pod|]| |]; try done.
  - case_bool_decide.
    + destruct (_ && _); [done|].
      by rewrite (Client_Update_stored (remove_pod pod c) _ _ pvc0 pvc' Hst Hns Hn).
    + by rewrite (Client_Update_stored c _ _ pvc0 pvc' Hst Hns Hn).
  - by rewrite (Client_Update_stored c _ _ pvc0 pvc' Hst Hns Hn).
Qed.

Lemma marks_addFinalizer pvc f : marks (addFinalizer pvc f) = marks pvc.
Proof. unfold addFinalizer. by destruct (hasFinalizer pvc f). Qed.

Lemma success_events_Forall pvc : Forall (λ e, is_Event e = true) (success_events pvc).
Proof. unfold success_events. destruct (marks pvc); repeat constructor. Qed.

Lemma Reconcile_shape r namespace name c :
  pass_shape r c namespace name (Reconcile r namespace name c).
Proof.
  rewrite Reconcile_unfold.
  destruct (stored c namespace name) as [pvc|] eqn:Hst; [|by constructor].
  destruct (stored_key _ _ _ _ Hst) as [Hns Hn].
  assert (Hst' : stored c (pvc_Namespace pvc) (pvc_Name pvc) = Some pvc) by by rewrite Hns, Hn.
  destruct (shouldReconcile pvc) eqn:Hshould; cbv beta iota delta [negb].
  - destruct (waitTargetPodRunningOrSucceeded pvc) as [[]|] eqn:Hwait; try by constructor.
    destruct ((findCloneSourcePod pvc c).1.1) as [[pod|]| |] eqn:Hfind; try by constructor.
    + rewrite (updatePvcFromPod_stored _ _ _ _ Hst'). cbv zeta.
      rewrite marks_addFinalizer. fold (success_events pvc). fold (mutated (Some pod) pvc).
      destruct (mutated (Some pod) pvc) as [pvc'|] eqn:Hmut;
        [|constructor; apply success_events_Forall].
      case_bool_decide; [by eapply shape_update|].
      constructor. apply success_events_Forall.
    + destruct (reconcileSourcePod_None r pvc c) as [[err ->]|(pod & Hplan & Hfresh & ->)];
        [by constructor|].
      rewrite (updatePvcFromPod_stored _ _ _ pvc) by by rewrite stored_add_pod.
      cbv zeta. rewrite marks_addFinalizer. fold (success_events pvc). fold (mutated None pvc).
      destruct (mutated None pvc) as [pvc'|] eqn:Hmut; [|done].
      pose proof (shape_create r c namespace name pvc pod pvc' Hst Hshould Hwait Hfind
                    Hplan Hfresh Hmut) as H.
      case_bool_decide; simpl in *; [exact H|]. by rewrite app_nil_r in *.
  - destruct (hasFinalizer pvc cloneSourcePodFinalizer) eqn:Hfin; [|by constructor].
    rewrite (cleanup_stored _ _ _ Hst'). cbv zeta.
    destruct ((findCloneSourcePod pvc c).1.1) as [[pod|]| |] eqn:Hfind; try by constructor.
    + case_bool_decide as Hlive.
      * destruct (_ && _) eqn:Hrun; [by constructor|]. by eapply shape_delete.
      * eapply shape_release; try done. by intros ? [= <-].
    + eapply shape_release; done.
Qed.

(** ** Finalizer and source pod *)


Lemma not_event_in (e : Effect) events :
  Forall (λ e, is_Event e = true) events → e ∈ events → is_Event e = true.
Proof. intros H Hin. by eapply (proj1 (Forall_forall _ _)) in H. Qed.



(** ** Idempotence *)

Lemma control_equal_refl p : control_equal p p.
Proof. by intros k _. Qed.

Lemma control_equal_trans p q s : control_equal p q → control_equal q s → control_equal p s.
Proof. intros H1 H2 k Hk. by rewrite H2, H1. Qed.

Lemma addFinalizer_Annotations pvc f :
  pvc_Annotations (addFinalizer pvc f) = pvc_Annotations pvc.
Proof. unfold addFinalizer. by destruct (hasFinalizer pvc f). Qed.

Lemma removeFinalizer_Annotations pvc f :
  pvc_Annotations (removeFinalizer pvc f) = pvc_Annotations pvc.
Proof. unfold removeFinalizer. by destruct (negb _). Qed.

Lemma counted_control_equal sourcePod pvc pvc' :
  counted sourcePod pvc = Some pvc' → control_equal pvc pvc'.
Proof.
  unfold counted. destruct (sourcePod ≫= pod_ContainerStatuses) as [[|st ?]|]; try done.
  - intros [= <-]. destruct (_ <? _); [|apply control_equal_refl].
    intros k Hk. simpl. by rewrite lookup_insert_ne.
  - intros [= <-]. apply control_equal_refl.
Qed.

Lemma shouldReconcile_ext p q : control_equal p q → shouldReconcile q = shouldReconcile p.
Proof.
  intros H. unfold shouldReconcile, checkPVC, HasAnnotation.
  by rewrite !H by (vm_compute; discriminate).
Qed.

Lemma marks_ext p q : control_equal p q → marks q = marks p.
Proof.
  intros H. unfold marks, podSucceededFromPVC, index.
  by rewrite !H by (vm_compute; discriminate).
Qed.

Lemma waitTargetPodRunningOrSucceeded_ext p q :
  control_equal p q →
  waitTargetPodRunningOrSucceeded q = waitTargetPodRunningOrSucceeded p.
Proof.
  intros H. unfold waitTargetPodRunningOrSucceeded, podSucceededFromPVC, index.
  by rewrite !H by (vm_compute; discriminate).
Qed.

Lemma addFinalizer_id pvc f : hasFinalizer pvc f = true → addFinalizer pvc f = pvc.
Proof. unfold addFinalizer. by intros ->. Qed.

Lemma marked_id pvc : marks pvc = false → marked pvc = pvc.
Proof. unfold marked. by intros ->. Qed.

Lemma set_Annotation_twice pvc k v :
  set_Annotation (set_Annotation pvc k v) k v = set_Annotation pvc k v.
Proof. unfold set_Annotation. simpl. by rewrite insert_insert_eq. Qed.

(** Taking the restart counter over a second time from the same pod
    changes nothing. *)
Lemma counted_twice sourcePod pvc pvc' :
  counted sourcePod pvc = Some pvc' → counted sourcePod pvc' = Some pvc'.
Proof.
  unfold counted. destruct (sourcePod ≫= pod_ContainerStatuses) as [[|st ?]|]; try done.
  intros [= <-]. f_equal.
  destruct ((Atoi (index (pvc_Annotations pvc) AnnPodRestarts)).1 <? RestartCount st) eqn:E.
  - match goal with |- context [if ?b then _ else _] => destruct b end;
      [apply set_Annotation_twice|done].
  - by rewrite E.
Qed.

(** Without the success mark, what [updatePvcFromPod] leaves is a fixed
    point of its mutations, and differs from the claim read at most by the
    finalizer and the restart counter. *)
Lemma mutated_twice sourcePod pvc pvc' :
  marks pvc = false → mutated sourcePod pvc = Some pvc' →
  control_equal pvc pvc' ∧ mutated sourcePod pvc' = Some pvc'.
Proof.
  unfold mutated. intros Hm H.
  rewrite marked_id in H by by rewrite marks_addFinalizer.
  assert (control_equal pvc pvc') as Hc.
  { intros k Hk. rewrite (counted_control_equal _ _ _ H k Hk).
    by rewrite addFinalizer_Annotations. }
  split; [done|].
  assert (hasFinalizer pvc' cloneSourcePodFinalizer = true) as Hf.
  { unfold hasFinalizer. rewrite (counted_Finalizers _ _ _ H).
    apply hasFinalizer_addFinalizer. }
  rewrite (addFinalizer_id _ _ Hf).
  rewrite marked_id by by rewrite (marks_ext _ _ Hc).
  by eapply counted_twice.
Qed.

Lemma success_events_nil pvc :
  (∀ e, e ∈ success_events pvc → is_Event e = false) → marks pvc = false.
Proof.
  unfold success_events. destruct (marks pvc); [|done].
  intros H. by specialize (H _ (list_elem_of_here _ _)).
Qed.


Lemma removeFinalizer_control_equal pvc f : control_equal pvc (removeFinalizer pvc f).
Proof. intros k _. by rewrite removeFinalizer_Annotations. Qed.

(** The planned pod is the one the next search finds. *)
Lemma planned_pod_selected r pvc pod :
  planned_pod r pvc = Some pod →
  ∃ namespace name,
    ParseCloneRequestAnnotation pvc = (true, namespace, name)
    ∧ selects namespace CloneUniqueID (pvc_UID pvc ++ "-source-pod")%string pod = true
    ∧ pod_ContainerStatuses pod = None.
Proof.
  unfold planned_pod.
  destruct (ParseCloneRequestAnnotation pvc) as [[[] namespace] name]; [|done].
  destruct (pvc_Annotations pvc !! AnnUploadClientName); [|done].
  destruct (clientCertGenerator r _) as [[cert key]|]; [|done].
  destruct (serverCAFetcher r); [|done]. intros [= <-].
  exists namespace, name. split_and!; [done| |done].
  unfold selects, MakeCloneSourcePodSpec, getCloneSourcePodName. simpl.
  rewrite lookup_singleton_eq.
  rewrite (bool_decide_eq_true_2 (namespace = namespace)) by done.
  rewrite (bool_decide_eq_true_2 (Some _ = Some _)) by done.
  by rewrite orb_true_r.
Qed.

Lemma findCloneSourcePod_after_create r pvc pod c :
  (findCloneSourcePod pvc c).1.1 = Return None →
  planned_pod r pvc = Some pod →
  (findCloneSourcePod pvc (add_pod pod c)).1.1 = Return (Some pod).
Proof.
  intros Hnone Hplan.
  destruct (planned_pod_selected _ _ _ Hplan) as (namespace & name & Hparse & Hsel & _).
  revert Hnone. unfold findCloneSourcePod. rewrite Hparse.
  cbv [bind ret fail wrapping Client_List negb].
  change (pods (add_pod pod c)) with (pods c ++ [pod])%list.
  rewrite List.filter_app. simpl. rewrite Hsel.
  destruct (List.filter _ (pods c)) as [|p [|q l]]; simpl; done.
Qed.

(** A second pass over a claim that is stored, is still to be reconciled
    and ready, whose source pod is found, and on which the mutations of
    [updatePvcFromPod] change nothing: no effect. *)
Lemma Reconcile_settled r namespace name c pvc pod :
  stored c namespace name = Some pvc →
  shouldReconcile pvc = true →
  waitTargetPodRunningOrSucceeded pvc = Ok true →
  (findCloneSourcePod pvc c).1.1 = Return (Some pod) →
  marks pvc = false →
  mutated (Some pod) pvc = Some pvc →
  Reconcile r namespace name c = (Return tt, c, []).
Proof.
  intros Hst Hshould Hwait Hfind Hmarks Hmut.
  rewrite Reconcile_unfold, Hst, Hshould, Hwait, Hfind. cbv beta iota delta [negb].
  destruct (stored_key _ _ _ _ Hst) as [Hns Hn].
  rewrite (updatePvcFromPod_stored _ _ _ pvc) by by rewrite Hns, Hn.
  cbv zeta. fold (mutated (Some pod) pvc). rewrite Hmut, marks_addFinalizer, Hmarks.
  by rewrite bool_decide_eq_false_2 by (by intros ?).
Qed.

(** A second pass over a claim that needs no reconciling and has no
    finalizer: no effect. *)
Lemma Reconcile_released r namespace name c pvc :
  stored c namespace name = Some pvc →
  shouldReconcile pvc = false →
  hasFinalizer pvc cloneSourcePodFinalizer = false →
  Reconcile r namespace name c = (Return tt, c, []).
Proof. intros Hst Hshould Hfin. by rewrite Reconcile_unfold, Hst, Hshould, Hfin. Qed.




(** * Further properties of the code *)

(** ** Finalizers *)

Lemma hasFinalizer_elem pvc g : hasFinalizer pvc g = true ↔ g ∈ pvc_Finalizers pvc.
Proof.
  unfold hasFinalizer. rewrite existsb_exists. split.
  - intros (x & Hin & ->%bool_decide_eq_true). by apply list_elem_of_In.
  - intros Hin. exists g. split; [by apply list_elem_of_In|by apply bool_decide_eq_true].
Qed.

(** X1: addFinalizer makes the finalizer present and keeps every other
    one, in order, with the new one at the end; applied twice it does what
    it does once, and it never makes a duplicate; the rest of the claim is
    untouched. *)
Theorem addFinalizer_spec pvc f :
  hasFinalizer (addFinalizer pvc f) f = true
  ∧ (∀ g, g ≠ f → hasFinalizer (addFinalizer pvc f) g = hasFinalizer pvc g)
  ∧ (∃ added, pvc_Finalizers (addFinalizer pvc f) = (pvc_Finalizers pvc ++ added)%list)
  ∧ addFinalizer (addFinalizer pvc f) f = addFinalizer pvc f
  ∧ (NoDup (pvc_Finalizers pvc) → NoDup (pvc_Finalizers (addFinalizer pvc f)))
  ∧ pvc_Annotations (addFinalizer pvc f) = pvc_Annotations pvc
  ∧ same_identity pvc (addFinalizer pvc f).
Proof.
  split_and!.
  - apply hasFinalizer_addFinalizer.
  - intros g Hg. unfold addFinalizer. destruct (hasFinalizer pvc f); [done|].
    unfold hasFinalizer. simpl. rewrite existsb_app. simpl.
    rewrite (bool_decide_eq_false_2 (f = g)) by done. by rewrite !orb_false_r.
  - unfold addFinalizer. destruct (hasFinalizer pvc f).
    + exists []. by rewrite app_nil_r.
    + by exists [f].
  - apply addFinalizer_id, hasFinalizer_addFinalizer.
  - intros Hnd. unfold addFinalizer. destruct (hasFinalizer pvc f) eqn:E; [done|]. simpl.
    apply NoDup_app. split_and!; [done| |apply NoDup_singleton].
    intros x Hx Hf. apply list_elem_of_singleton in Hf as ->.
    apply hasFinalizer_elem in Hx. congruence.
  - apply addFinalizer_Annotations.
  - apply addFinalizer_identity.
Qed.

(** X2: removeFinalizer takes every occurrence of the finalizer off and
    keeps the others; it undoes addFinalizer on a claim that did not have
    the finalizer (as lists of finalizers: Go leaves a nil slice where the
    claim had an empty one); on a claim without the finalizer it changes
    nothing. *)
Theorem removeFinalizer_spec pvc f :
  hasFinalizer (removeFinalizer pvc f) f = false
  ∧ (∀ g, g ≠ f → hasFinalizer (removeFinalizer pvc f) g = hasFinalizer pvc g)
  ∧ (hasFinalizer pvc f = false → removeFinalizer pvc f = pvc)
  ∧ (hasFinalizer pvc f = false → removeFinalizer (addFinalizer pvc f) f = pvc)
  ∧ pvc_Annotations (removeFinalizer pvc f) = pvc_Annotations pvc
  ∧ same_identity pvc (removeFinalizer pvc f).
Proof.
  assert (Hkeep : ∀ l : list string, ¬ f ∈ l → filter (λ x, x ≠ f) l = l).
  { induction l as [|x l IH]; [done|]. intros Hn.
    rewrite filter_cons_True by (intros ->; apply Hn; by left).
    rewrite IH; [done|]. intros ?. apply Hn. by right. }
  split_and!.
  - apply hasFinalizer_removeFinalizer.
  - intros g Hg. unfold removeFinalizer. destruct (hasFinalizer pvc f); [|done]. simpl.
    apply eq_true_iff_eq. rewrite !hasFinalizer_elem. simpl.
    rewrite list_elem_of_filter. split; [by intros [_ ?]|by intros ?].
  - unfold removeFinalizer. by intros ->.
  - intros Hno. unfold removeFinalizer. rewrite hasFinalizer_addFinalizer. simpl.
    unfold addFinalizer. rewrite Hno. unfold set_Finalizers. simpl.
    rewrite filter_app, Hkeep by (by rewrite <- hasFinalizer_elem, Hno).
    rewrite filter_cons_False, filter_nil, app_nil_r by (by intros ?). by destruct pvc.
  - apply removeFinalizer_Annotations.
  - apply removeFinalizer_identity.
Qed.

(** ** Compatibility and tokens *)

(** X3: the compatibility that ValidateCanCloneSourceAndTargetSpec checks
    is a preorder: every spec can be cloned onto itself, and a source that
    fits a target which itself fits a third spec fits that one too. *)
Theorem ValidateCanCloneSourceAndTargetSpec_preorder a b c :
  ValidateCanCloneSourceAndTargetSpec a a = None
  ∧ (ValidateCanCloneSourceAndTargetSpec a b = None
     → ValidateCanCloneSourceAndTargetSpec b c = None
     → ValidateCanCloneSourceAndTargetSpec a c = None).
Proof.
  unfold ValidateCanCloneSourceAndTargetSpec. split.
  - rewrite (proj2 (Z.ltb_ge _ _)) by lia. by rewrite bool_decide_eq_false_2 by (by intros ?).
  - destruct (Z.ltb_spec (storage_Value b) (storage_Value a)); [done|].
    destruct (Z.ltb_spec (storage_Value c) (storage_Value b)); [by case_bool_decide|].
    rewrite (proj2 (Z.ltb_ge _ _)) by lia.
    repeat case_bool_decide; try done. congruence.
Qed.

(** X4: a clone token serves one pair of claims only.  When
    validateCloneToken accepts the same token string for two pairs of
    source and target, the two sources have the same name and namespace,
    and so have the two targets. *)
Theorem validateCloneToken_one_pair (validator : Validator) source target source' target' :
  pvc_Annotations target' !! AnnCloneToken = pvc_Annotations target !! AnnCloneToken →
  validateCloneToken validator source target = None →
  validateCloneToken validator source' target' = None →
  pvc_Name source' = pvc_Name source ∧ pvc_Namespace source' = pvc_Namespace source
  ∧ pvc_Name target' = pvc_Name target ∧ pvc_Namespace target' = pvc_Namespace target.
Proof.
  unfold validateCloneToken. intros ->.
  destruct (pvc_Annotations target !! AnnCloneToken) as [tok|]; [|done].
  destruct (validator tok) as [tokenData|]; [|done].
  repeat case_bool_decide; simpl; try done. intros _ _. split_and!; congruence.
Qed.

Lemma validateCloneToken_one_pair_witness :
  pvc_Name source_pvc = pvc_Name source_pvc ∧ pvc_Namespace source_pvc = pvc_Namespace source_pvc
  ∧ pvc_Name fresh_target = pvc_Name (pvc_with {[ AnnCloneToken := "signed" ]} [])
  ∧ pvc_Namespace fresh_target = pvc_Namespace (pvc_with {[ AnnCloneToken := "signed" ]} []).
Proof.
  apply (validateCloneToken_one_pair test_validator source_pvc
           (pvc_with {[ AnnCloneToken := "signed" ]} []) source_pvc fresh_target);
    reflexivity.
Defined.

(** The error paths of validateCloneToken that come before the bindings:
    without the annotation the validator is not consulted. *)
Lemma validateCloneToken_missing (validator : Validator) source target :
  pvc_Annotations target !! AnnCloneToken = None →
  validateCloneToken validator source target = Some (errorString "clone token missing").
Proof. unfold validateCloneToken. by intros ->. Qed.

(** ** The restart counter *)







Example Reconcile_records_restarts :
  (Reconcile test_reconciler "prod" "pvc-dst" (running_cluster 3)).2
  = [UpdatePVC (set_Annotation (addFinalizer fresh_target cloneSourcePodFinalizer)
                  AnnPodRestarts "3")].
Proof. reflexivity. Qed.

(** ** Creating the source pod *)

Lemma validateCloneToken_ok (validator : Validator) source target :
  validateCloneToken validator source target = None ↔ token_bound_by validator target source.
Proof.
  unfold validateCloneToken, token_bound_by, token_bound. split.
  - destruct (pvc_Annotations target !! AnnCloneToken) as [tok|]; [|done].
    destruct (validator tok) as [tokenData|] eqn:E; [|done].
    repeat case_bool_decide; simpl; try done. intros _. exists tok, tokenData.
    split_and!; try done; by apply dec_stable.
  - intros (tok & tokenData & -> & -> & H1 & H2 & H3 & H4 & H5 & H6).
    repeat case_bool_decide; simpl; done.
Qed.

Lemma ValidateCanCloneSourceAndTargetSpec_ok sourceSpec targetSpec :
  ValidateCanCloneSourceAndTargetSpec sourceSpec targetSpec = None
  ↔ storage_Value sourceSpec ≤ storage_Value targetSpec
    ∧ spec_volume_mode sourceSpec = spec_volume_mode targetSpec.
Proof.
  assert (Hmode : ∀ spec, effectiveVolumeMode spec = spec_volume_mode spec).
  { intros [? [[]|]]; reflexivity. }
  unfold ValidateCanCloneSourceAndTargetSpec. rewrite !Hmode.
  destruct (Z.ltb_spec (storage_Value targetSpec) (storage_Value sourceSpec)).
  - split; [done|]. lia.
  - case_bool_decide as Hne.
    + split; [done|]. by intros [_ ?].
    + split; [|done]. intros _. split; [lia|].
      by destruct (decide (spec_volume_mode sourceSpec = spec_volume_mode targetSpec)).
Qed.

Lemma ParseCloneRequestAnnotation_request pvc namespace name :
  ParseCloneRequestAnnotation pvc = (true, namespace, name)
  ↔ ∃ ann, pvc_Annotations pvc !! AnnCloneRequest = Some ann
           ∧ ann = (namespace ++ "/" ++ name)%string
           ∧ no_slash namespace ∧ no_slash name.
Proof.
  unfold ParseCloneRequestAnnotation.
  destruct (pvc_Annotations pvc !! AnnCloneRequest) as [ann|].
  - split.
    + destruct (Split ann "/") as [|a [|b [|? ?]]] eqn:E; try done.
      intros [= <- <-]. exists ann. split; [done|]. by apply Split_two_parts.
    + intros (ann' & [= <-] & H). apply Split_two_parts in H. by rewrite H.
  - split; [done|]. by intros (? & ? & _).
Qed.

(** What [reconcileSourcePod] has checked when it creates a pod. *)
Lemma reconcileSourcePod_inv r pvc c :
  (∃ err, reconcileSourcePod r None pvc c = (Fail err, c, []))
  ∨ (∃ srcns srcname src clientName cert key bundle,
       ParseCloneRequestAnnotation pvc = (true, srcns, srcname)
       ∧ stored c srcns srcname = Some src
       ∧ validateCloneToken (controller.tokenValidator r) src pvc = None
       ∧ ValidateCanCloneSourceAndTargetSpec (pvc_Spec src) (pvc_Spec pvc) = None
       ∧ pvc_Annotations pvc !! AnnUploadClientName = Some clientName
       ∧ clientCertGenerator r clientName = Ok (cert, key)
       ∧ serverCAFetcher r = Ok bundle
       ∧ let pod := MakeCloneSourcePodSpec (Image r) (PullPolicy r) srcname srcns key cert
                      bundle pvc in
         existsb (pod_is (pod_Namespace pod) (pod_Name pod)) (pods c) = false
         ∧ reconcileSourcePod r None pvc c = (Return tt, add_pod pod c, [CreatePod pod])).
Proof.
  unfold reconcileSourcePod, validateSourceAndTarget, getCloneRequestSourcePVC,
    CreateCloneSourcePod, stored.
  cbv [bind ret fail wrapping lift check Client_Get Client_Create].
  repeat go_step; try discriminate; try (left; eexists; reflexivity).
  all: right; repeat eexists; eauto.
  match goal with H : negb ?b = false |- _ => by destruct b end.
Qed.

Lemma updatePvcFromPod_trace sourcePod pvc c :
  ∃ events update,
    (updatePvcFromPod sourcePod pvc c).2 = (events ++ update)%list
    ∧ (events = [] ∨ events = [succeeded_event pvc])
    ∧ (update = [] ∨ ∃ pvc', update = [UpdatePVC pvc'])
    ∧ pods (updatePvcFromPod sourcePod pvc c).1.2 = pods c.
Proof.
  rewrite updatePvcFromPod_unfold. cbv zeta.
  set (events := if marks _ then _ else _).
  assert (events = [] ∨ events = [succeeded_event pvc]) as Hev
    by (subst events; destruct (marks _); eauto).
  destruct (counted _ _) as [pvc3|]; simpl.
  - case_bool_decide; simpl.
    + unfold Client_Update. destruct (existsb _ _); simpl.
      * exists events, [UpdatePVC pvc3]. eauto 10.
      * exists events, []. rewrite app_nil_r. eauto.
    + exists events, []. rewrite app_nil_r. eauto.
  - exists events, []. rewrite app_nil_r. eauto.
Qed.

Lemma cleanup_trace pvc c :
  ∃ delete update,
    (cleanup pvc c).2 = (delete ++ update)%list
    ∧ (delete = []
       ∨ ∃ pod, In pod (pods c) ∧ delete = [DeletePod (pod_Namespace pod) (pod_Name pod)])
    ∧ (update = [] ∨ ∃ pvc', update = [UpdatePVC pvc']).
Proof.
  rewrite cleanup_unfold. pose proof (findCloneSourcePod_In pvc c) as Hin.
  destruct ((findCloneSourcePod pvc c).1.1) as [[pod|]| |]; simpl;
    try (exists [], []; by eauto).
  - specialize (Hin pod eq_refl). case_bool_decide.
    + destruct (_ && _); simpl; [exists [], []; by eauto|].
      unfold Client_Update. destruct (existsb _ _); simpl.
      * eexists [_], [_]. split; [reflexivity|]. split; eauto 10.
      * eexists [_], []. split; [reflexivity|]. split; eauto 10.
    + unfold Client_Update. destruct (existsb _ _); simpl.
      * eexists [], [_]. split; [reflexivity|]. split; eauto 10.
      * exists [], []. eauto.
  - unfold Client_Update. destruct (existsb _ _); simpl.
    + eexists [], [_]. split; [reflexivity|]. split; eauto 10.
    + exists [], []. eauto.
Qed.

(** A pass that creates a pod has gone through every check. *)
Lemma Reconcile_create_inv r namespace name c pod :
  CreatePod pod ∈ (Reconcile r namespace name c).2 →
  ∃ pvc, stored c namespace name = Some pvc
         ∧ (findCloneSourcePod pvc c).1.1 = Return None
         ∧ reconcileSourcePod r None pvc c = (Return tt, add_pod pod c, [CreatePod pod])
         ∧ pods (Reconcile r namespace name c).1.2 = (pods c ++ [pod])%list.
Proof.
  rewrite Reconcile_unfold.
  destruct (stored c namespace name) as [pvc|]; [|by intros ?%elem_of_nil].
  destruct (negb (shouldReconcile pvc)).
  { destruct (hasFinalizer _ _); [|by intros ?%elem_of_nil].
    destruct (cleanup_trace pvc c) as (del & upd & -> & Hdel & Hupd).
    destruct Hdel as [->|(? & _ & ->)], Hupd as [->|[? ->]]; intros Hin;
      repeat (apply elem_of_cons in Hin as [Hin|Hin]; [discriminate Hin|]);
      by apply elem_of_nil in Hin. }
  destruct (waitTargetPodRunningOrSucceeded pvc) as [[]|]; try by intros ?%elem_of_nil.
  destruct ((findCloneSourcePod pvc c).1.1) as [[found|]| |] eqn:Hfind;
    try by intros ?%elem_of_nil.
  - destruct (updatePvcFromPod_trace (Some found) pvc c) as (ev & up & -> & Hev & Hup & _).
    intros [Hin|Hin]%elem_of_app.
    + destruct Hev as [-> | ->]; [by apply elem_of_nil in Hin|].
      apply list_elem_of_singleton in Hin. discriminate Hin.
    + destruct Hup as [-> |[? ->]]; [by apply elem_of_nil in Hin|].
      apply list_elem_of_singleton in Hin. discriminate Hin.
  - destruct (reconcileSourcePod_inv r pvc c) as [[err Hrec]|H].
    { rewrite Hrec. by intros ?%elem_of_nil. }
    destruct H as (srcns & srcname & src & cn & cert & key & bundle & _ & _ & _ & _ & _ & _ & _
                   & _ & Hrec).
    rewrite Hrec. revert Hrec.
    generalize (MakeCloneSourcePodSpec (Image r) (PullPolicy r) srcname srcns key cert
                  bundle pvc). intros pod' Hrec.
    destruct (updatePvcFromPod_trace None pvc (add_pod pod' c)) as (ev & up & Ht & Hev & Hup & Hp).
    destruct (updatePvcFromPod None pvc (add_pod pod' c)) as [[o c''] t'].
    cbn [fst snd] in *. subst t'.
    intros Hin. apply elem_of_cons in Hin as [Hin|Hin].
    + injection Hin as ->. exists pvc. by rewrite Hp.
    + exfalso. apply elem_of_app in Hin as [Hin|Hin].
      * destruct Hev as [-> | ->]; [by apply elem_of_nil in Hin|].
        apply list_elem_of_singleton in Hin. discriminate Hin.
      * destruct Hup as [-> |[? ->]]; [by apply elem_of_nil in Hin|].
        apply list_elem_of_singleton in Hin. discriminate Hin.
Qed.

(** X6: a source pod is created only after every check has passed.  When
    a pass creates a pod, the claim's CloneRequest names a source claim
    that exists, the clone token binds that source to this target, the two
    specs are compatible, and the certificate for the claim's
    UploadClientName and the server CA bundle were obtained.  The pod lives
    in the source's namespace, is named and labelled <uid>-source-pod,
    mounts the source claim read-only and carries the key, the certificate
    and the bundle; it gets a block device exactly when the target's volume
    mode is Block. *)
Theorem Reconcile_creates_validated r namespace name c pod :
  CreatePod pod ∈ (Reconcile r namespace name c).2 →
  ∃ pvc srcns srcname src clientName cert key bundle,
    stored c namespace name = Some pvc
    ∧ pvc_Annotations pvc !! AnnCloneRequest = Some (srcns ++ "/" ++ srcname)%string
    ∧ stored c srcns srcname = Some src
    ∧ token_bound_by (controller.tokenValidator r) pvc src
    ∧ storage_Value (pvc_Spec src) ≤ storage_Value (pvc_Spec pvc)
    ∧ spec_volume_mode (pvc_Spec src) = spec_volume_mode (pvc_Spec pvc)
    ∧ pvc_Annotations pvc !! AnnUploadClientName = Some clientName
    ∧ clientCertGenerator r clientName = Ok (cert, key)
    ∧ serverCAFetcher r = Ok bundle
    ∧ pod_Namespace pod = srcns
    ∧ pod_Name pod = (pvc_UID pvc ++ "-source-pod")%string
    ∧ pod_Labels pod !! CloneUniqueID = Some (pvc_UID pvc ++ "-source-pod")%string
    ∧ pod_ClaimName pod = srcname ∧ pod_ReadOnly pod = true
    ∧ pod_RestartPolicy pod = "OnFailure"
    ∧ ("CLIENT_KEY", key) ∈ pod_Env pod ∧ ("CLIENT_CERT", cert) ∈ pod_Env pod
    ∧ ("SERVER_CA_CERT", bundle) ∈ pod_Env pod
    ∧ (pod_BlockDevice pod = true ↔ VolumeMode (pvc_Spec pvc) = Some PersistentVolumeBlock).
Proof.
  intros (pvc & Hst & _ & Hcreate & _)%Reconcile_create_inv.
  destruct (reconcileSourcePod_inv r pvc c) as [[err Herr]|H]; [congruence|].
  destruct H as (srcns & srcname & src & cn & cert & key & bundle & Hparse & Hsrc & Htok
                 & Hspec & Hcn & Hcert & Hca & _ & Heq).
  rewrite Heq in Hcreate. injection Hcreate as _ <-.
  exists pvc, srcns, srcname, src, cn, cert, key, bundle.
  destruct (proj1 (ParseCloneRequestAnnotation_request pvc srcns srcname) Hparse)
    as (ann & Hann & -> & _).
  apply ValidateCanCloneSourceAndTargetSpec_ok in Hspec as [? ?].
  split_and!; try done; simpl;
    first [ by apply validateCloneToken_ok
          | by apply lookup_singleton_eq
          | by left
          | by (right; left)
          | by (do 2 right; left)
          | idtac ].
  destruct (VolumeMode (pvc_Spec pvc)) as [[]|]; simpl; split; done.
Qed.

(** The first pass on the fresh target. *)
Lemma Reconcile_creates_validated_witness :
  ∃ pvc srcns srcname src clientName cert key bundle,
    stored fresh_cluster "prod" "pvc-dst" = Some pvc
    ∧ pvc_Annotations pvc !! AnnCloneRequest = Some (srcns ++ "/" ++ srcname)%string
    ∧ stored fresh_cluster srcns srcname = Some src
    ∧ token_bound_by (controller.tokenValidator test_reconciler) pvc src
    ∧ storage_Value (pvc_Spec src) ≤ storage_Value (pvc_Spec pvc)
    ∧ spec_volume_mode (pvc_Spec src) = spec_volume_mode (pvc_Spec pvc)
    ∧ pvc_Annotations pvc !! AnnUploadClientName = Some clientName
    ∧ clientCertGenerator test_reconciler clientName = Ok (cert, key)
    ∧ serverCAFetcher test_reconciler = Ok bundle
    ∧ pod_Namespace fresh_pod = srcns
    ∧ pod_Name fresh_pod = (pvc_UID pvc ++ "-source-pod")%string
    ∧ pod_Labels fresh_pod !! CloneUniqueID = Some (pvc_UID pvc ++ "-source-pod")%string
    ∧ pod_ClaimName fresh_pod = srcname ∧ pod_ReadOnly fresh_pod = true
    ∧ pod_RestartPolicy fresh_pod = "OnFailure"
    ∧ ("CLIENT_KEY", key) ∈ pod_Env fresh_pod ∧ ("CLIENT_CERT", cert) ∈ pod_Env fresh_pod
    ∧ ("SERVER_CA_CERT", bundle) ∈ pod_Env fresh_pod
    ∧ (pod_BlockDevice fresh_pod = true ↔ VolumeMode (pvc_Spec pvc) = Some PersistentVolumeBlock).
Proof.
  apply (Reconcile_creates_validated test_reconciler "prod" "pvc-dst" fresh_cluster fresh_pod).
  vm_compute. by left.
Defined.

(** X7: at most one source pod.  A pass creates a source pod only when
    the list for the claim (the source namespace, the label
    CloneUniqueID = <uid>-source-pod) is empty, and after the pass that
    list holds exactly the pod created: the next pass finds it and creates
    no other. *)
Theorem Reconcile_creates_one r namespace name c pod :
  CreatePod pod ∈ (Reconcile r namespace name c).2 →
  ∃ pvc srcns srcname,
    stored c namespace name = Some pvc
    ∧ ParseCloneRequestAnnotation pvc = (true, srcns, srcname)
    ∧ listed_for (pvc_UID pvc) srcns c = []
    ∧ listed_for (pvc_UID pvc) srcns (after r namespace name c) = [pod]
    ∧ ∀ pod', CreatePod pod' ∉ (Reconcile r namespace name (after r namespace name c)).2.
Proof.
  intros Hin. destruct (Reconcile_create_inv _ _ _ _ _ Hin) as (pvc & Hst & Hfind & Hcreate & Hpods).
  destruct (reconcileSourcePod_inv r pvc c) as [[err Herr]|H]; [congruence|].
  destruct H as (srcns & srcname & src & cn & cert & key & bundle & Hparse & _ & _ & _ & Hcn
                 & Hcert & Hca & _ & Heq).
  rewrite Heq in Hcreate. injection Hcreate as _ Hpod.
  assert (planned_pod r pvc = Some pod) as Hplan.
  { unfold planned_pod. by rewrite Hparse, Hcn, Hcert, Hca, Hpod. }
  destruct (planned_pod_selected _ _ _ Hplan) as (srcns' & srcname' & Hparse' & Hsel & _).
  rewrite Hparse in Hparse'. injection Hparse' as <- <-.
  assert (listed_for (pvc_UID pvc) srcns c = []) as Hnone.
  { revert Hfind. unfold findCloneSourcePod, listed_for. rewrite Hparse.
    cbv [bind ret fail wrapping Client_List negb].
    destruct (List.filter _ (pods c)) as [|p [|q l]]; simpl; done. }
  assert (listed_for (pvc_UID pvc) srcns (after r namespace name c) = [pod]) as Hone.
  { unfold listed_for, after in *. rewrite Hpods, List.filter_app, Hnone. simpl. by rewrite Hsel. }
  exists pvc, srcns, srcname. split_and!; try done.
  intros pod' Hin'.
  destruct (Reconcile_create_inv _ _ _ _ _ Hin') as (pvc' & Hst' & Hfind' & _).
  (* the claim stored after the pass has the UID and the request of [pvc] *)
  pose proof (Reconcile_shape r namespace name c) as Hshape.
  unfold after in *. destruct (Reconcile r namespace name c) as [[o c'] t]. simpl in *.
  assert (pvc_UID pvc' = pvc_UID pvc
          ∧ pvc_Namespace pvc' = pvc_Namespace pvc ∧ pvc_Name pvc' = pvc_Name pvc
          ∧ pvc_Annotations pvc' !! AnnCloneRequest = pvc_Annotations pvc !! AnnCloneRequest)
    as (Hu & Hns & Hn & Ha).
  { inversion Hshape as [o' events Hev | pvc0 found Hst0 Hshould Hfin Hfind0 Hterm pvc1
                         | pvc0 pod0 Hst0 Hshould Hfin Hfind0 Hlive Hrun pvc1
                         | pvc0 pod0 pvc1 Hst0 Hshould Hwait Hfind0 Hmut Hne
                         | pvc0 pod0 pvc1 Hst0 Hshould Hwait Hfind0 Hplan0 Hfresh Hmut]; subst.
    - exfalso. by apply (not_event_in _ _ Hev) in Hin.
    - exfalso. apply list_elem_of_singleton in Hin. discriminate Hin.
    - exfalso. repeat (apply elem_of_cons in Hin as [Hin|Hin]; [discriminate Hin|]).
      by apply elem_of_nil in Hin.
    - exfalso. apply elem_of_app in Hin as [Hin|Hin%list_elem_of_singleton];
        [|discriminate Hin]. by apply (not_event_in _ _ (success_events_Forall pvc0)) in Hin.
    - rewrite Hst in Hst0. injection Hst0 as <-.
      destruct (mutated_identity _ _ _ Hmut) as (Hns1 & Hn1 & Hu1 & _).
      assert (pvc_Annotations pvc1 !! AnnCloneRequest = pvc_Annotations pvc !! AnnCloneRequest)
        as Ha1.
      { revert Hmut. unfold mutated, counted, marked. simpl. intros [= <-].
        destruct (marks _); simpl; rewrite ?lookup_insert_ne by (vm_compute; discriminate);
          by rewrite addFinalizer_Annotations. }
      destruct (stored_key _ _ _ _ Hst) as [Hkns Hkn].
      case_bool_decide.
      + rewrite (stored_replace (add_pod pod0 c) namespace name pvc pvc1) in Hst'
          by (first [exact Hst|congruence]).
        by injection Hst' as <-.
      + rewrite stored_add_pod, Hst in Hst'. by injection Hst' as <-. }
  rewrite (findCloneSourcePod_ext pvc pvc' c' c' Hu Hns Hn Ha eq_refl) in Hfind'.
  revert Hfind'. unfold findCloneSourcePod. rewrite Hparse.
  cbv [bind ret fail wrapping Client_List negb]. fold (listed_for (pvc_UID pvc) srcns c').
  by rewrite Hone.
Qed.

Lemma Reconcile_creates_one_witness :
  ∃ pvc srcns srcname,
    stored fresh_cluster "prod" "pvc-dst" = Some pvc
    ∧ ParseCloneRequestAnnotation pvc = (true, srcns, srcname)
    ∧ listed_for (pvc_UID pvc) srcns fresh_cluster = []
    ∧ listed_for (pvc_UID pvc) srcns (after test_reconciler "prod" "pvc-dst" fresh_cluster)
      = [fresh_pod]
    ∧ ∀ pod', CreatePod pod'
                ∉ (Reconcile test_reconciler "prod" "pvc-dst"
                     (after test_reconciler "prod" "pvc-dst" fresh_cluster)).2.
Proof.
  apply (Reconcile_creates_one test_reconciler "prod" "pvc-dst" fresh_cluster fresh_pod).
  vm_compute. by left.
Defined.

(** ** When a pass fails or stays idle *)

(** X8: a failed validation leaves nothing behind.  For a claim that is
    ready and has no source pod, when the source claim named by
    CloneRequest is missing, or the token does not bind it to this target,
    or the specs are incompatible, or the UploadClientName annotation is
    absent, Reconcile returns an error; no pod is created, the finalizer is
    not added and the cluster is as before. *)
Theorem Reconcile_validation_failure r namespace name c pvc :
  stored c namespace name = Some pvc →
  shouldReconcile pvc = true →
  waitTargetPodRunningOrSucceeded pvc = Ok true →
  (findCloneSourcePod pvc c).1.1 = Return None →
  (∀ srcns srcname src,
     ParseCloneRequestAnnotation pvc = (true, srcns, srcname) →
     stored c srcns srcname = Some src →
     ¬ token_bound_by (controller.tokenValidator r) pvc src
     ∨ storage_Value (pvc_Spec pvc) < storage_Value (pvc_Spec src)
     ∨ spec_volume_mode (pvc_Spec src) ≠ spec_volume_mode (pvc_Spec pvc)
     ∨ pvc_Annotations pvc !! AnnUploadClientName = None) →
  ∃ err, Reconcile r namespace name c = (Fail err, c, []).
Proof.
  intros Hst Hshould Hwait Hfind Hbad.
  rewrite Reconcile_unfold, Hst, Hshould, Hwait, Hfind. cbv beta iota delta [negb].
  destruct (reconcileSourcePod_inv r pvc c) as [[err ->]|H]; [by eexists|].
  destruct H as (srcns & srcname & src & cn & cert & key & bundle & Hparse & Hsrc & Htok
                 & Hspec & Hcn & _).
  apply validateCloneToken_ok in Htok.
  apply ValidateCanCloneSourceAndTargetSpec_ok in Hspec as [? ?].
  destruct (Hbad _ _ _ Hparse Hsrc) as [?|[?|[?|?]]]; [done|lia|done|congruence].
Qed.

(** The second scenario: the target is smaller than the source. *)
Lemma Reconcile_validation_failure_witness :
  ∃ err, Reconcile test_reconciler "prod" "pvc-dst" small_cluster = (Fail err, small_cluster, []).
Proof.
  apply (Reconcile_validation_failure test_reconciler "prod" "pvc-dst" small_cluster small_target).
  - reflexivity.
  - reflexivity.
  - reflexivity.
  - reflexivity.
  - intros srcns srcname src [= <- <-] [= <-]. right. left. vm_compute. reflexivity.
Defined.

Example Reconcile_size_mismatch :
  Reconcile test_reconciler "prod" "pvc-dst" small_cluster
  = (Fail (errorString "target resources requests storage size is smaller than the source"),
     small_cluster, []).
Proof. reflexivity. Qed.

Lemma ParseBool_false v : ParseBool v = Ok false ↔ falsy v.
Proof.
  unfold ParseBool, falsy. case_bool_decide as Ht.
  - split; [done|]. intros Hf. exfalso. revert Ht Hf. clear.
    intros Ht Hf.
    repeat (apply elem_of_cons in Hf as [->|Hf];
            [repeat (apply elem_of_cons in Ht as [Ht|Ht]; [discriminate Ht|]);
             by apply elem_of_nil in Ht|]).
    by apply elem_of_nil in Hf.
  - by case_bool_decide.
Qed.

(** X9: when Reconcile leaves a claim alone.  It succeeds without any
    effect when the claim does not exist; when the claim has no CloneRequest
    annotation or already has CloneOf, and does not carry the cloneSource
    finalizer; when PodReady is absent; and when PodReady reads as false
    while PodPhase is not Succeeded.  A PodReady that strconv.ParseBool
    cannot read makes it fail, also without any effect. *)
Theorem Reconcile_leaves_alone r namespace name c :
  (stored c namespace name = None → Reconcile r namespace name c = (Return tt, c, []))
  ∧ (∀ pvc, stored c namespace name = Some pvc →
       (pvc_Annotations pvc !! AnnCloneRequest = None
        ∨ is_Some (pvc_Annotations pvc !! AnnCloneOf)) →
       cloneSourcePodFinalizer ∉ pvc_Finalizers pvc →
       Reconcile r namespace name c = (Return tt, c, []))
  ∧ (∀ pvc, stored c namespace name = Some pvc →
       is_Some (pvc_Annotations pvc !! AnnCloneRequest) →
       pvc_Annotations pvc !! AnnCloneOf = None →
       (pvc_Annotations pvc !! AnnPodReady = None
        ∨ ∃ v, pvc_Annotations pvc !! AnnPodReady = Some v ∧ falsy v
               ∧ index (pvc_Annotations pvc) AnnPodPhase ≠ PodSucceeded) →
       Reconcile r namespace name c = (Return tt, c, []))
  ∧ (∀ pvc v, stored c namespace name = Some pvc →
       is_Some (pvc_Annotations pvc !! AnnCloneRequest) →
       pvc_Annotations pvc !! AnnCloneOf = None →
       pvc_Annotations pvc !! AnnPodReady = Some v → ¬ truthy v → ¬ falsy v →
       ∃ err, Reconcile r namespace name c = (Fail err, c, [])).
Proof.
  split_and!.
  - intros Hst. by rewrite Reconcile_unfold, Hst.
  - intros pvc Hst Hirrelevant Hfin. apply (Reconcile_released _ _ _ _ pvc); [done| |].
    + unfold shouldReconcile, checkPVC, HasAnnotation.
      destruct Hirrelevant as [-> | Hof].
      * by rewrite bool_decide_eq_false_2 by (by intros [? ?]).
      * rewrite (bool_decide_eq_true_2 _ Hof). by rewrite andb_false_r.
    + apply not_true_is_false. by rewrite hasFinalizer_elem.
  - intros pvc Hst Hreq Hof Hready.
    assert (shouldReconcile pvc = true) as Hshould.
    { unfold shouldReconcile, checkPVC, HasAnnotation. rewrite Hof.
      rewrite (bool_decide_eq_true_2 _ Hreq). by rewrite bool_decide_eq_false_2 by (by intros [? ?]). }
    rewrite Reconcile_unfold, Hst, Hshould. cbv beta iota delta [negb].
    unfold waitTargetPodRunningOrSucceeded.
    destruct Hready as [-> | (v & -> & Hf & Hphase)]; [done|].
    rewrite (proj2 (ParseBool_false v) Hf). simpl.
    unfold podSucceededFromPVC. by rewrite bool_decide_eq_false_2.
  - intros pvc v Hst Hreq Hof Hready Hnt Hnf.
    assert (shouldReconcile pvc = true) as Hshould.
    { unfold shouldReconcile, checkPVC, HasAnnotation. rewrite Hof.
      rewrite (bool_decide_eq_true_2 _ Hreq). by rewrite bool_decide_eq_false_2 by (by intros [? ?]). }
    rewrite Reconcile_unfold, Hst, Hshould. cbv beta iota delta [negb].
    unfold waitTargetPodRunningOrSucceeded. rewrite Hready.
    destruct (ParseBool v) as [[]|err] eqn:E.
    + by apply ParseBool_true in E.
    + by apply ParseBool_false in E.
    + by eexists.
Qed.

(** A target whose upload server has not reported yet. *)
Lemma Reconcile_leaves_alone_witness :
  let c := {| pvcs := [clone_target ∅ []]; pods := [] |} in
  Reconcile test_reconciler "prod" "pvc-dst" c = (Return tt, c, []).
Proof.
  intros c.
  apply (Reconcile_leaves_alone test_reconciler "prod" "pvc-dst" c) with (pvc := clone_target ∅ []).
  - reflexivity.
  - by eexists.
  - reflexivity.
  - left. reflexivity.
Defined.

(** ** Cleanup *)

(** X10: cleanup waits and surfaces a split.  For a claim that is done
    (it needs no reconciling and carries the finalizer): while the upload
    has succeeded and the one source pod found is alive and still Running,
    the pass changes nothing and keeps the finalizer; and when more than one
    source pod is listed the pass fails, deletes no pod and keeps the
    finalizer. *)
Theorem Reconcile_cleanup_waits r namespace name c pvc srcns srcname :
  stored c namespace name = Some pvc →
  shouldReconcile pvc = false →
  hasFinalizer pvc cloneSourcePodFinalizer = true →
  ParseCloneRequestAnnotation pvc = (true, srcns, srcname) →
  (∀ pod, listed_for (pvc_UID pvc) srcns c = [pod] →
     pod_DeletionTimestamp pod = None →
     index (pvc_Annotations pvc) AnnPodPhase = PodSucceeded →
     pod_Phase pod = PodRunning →
     Reconcile r namespace name c = (Return tt, c, []))
  ∧ ((1 < length (listed_for (pvc_UID pvc) srcns c))%nat →
     ∃ err, Reconcile r namespace name c = (Fail err, c, [])).
Proof.
  intros Hst Hshould Hfin Hparse.
  destruct (stored_key _ _ _ _ Hst) as [Hns Hn].
  assert (Hst' : stored c (pvc_Namespace pvc) (pvc_Name pvc) = Some pvc) by by rewrite Hns, Hn.
  rewrite Reconcile_unfold, Hst, Hshould, Hfin. cbv beta iota delta [negb].
  rewrite (cleanup_stored _ _ _ Hst'). cbv zeta.
  unfold findCloneSourcePod. rewrite Hparse.
  cbv [bind ret fail wrapping Client_List negb]. fold (listed_for (pvc_UID pvc) srcns c).
  split.
  - intros pod -> Hlive Hphase Hrun. simpl.
    rewrite (bool_decide_eq_true_2 _ Hlive). unfold podSucceededFromPVC.
    by rewrite (bool_decide_eq_true_2 _ Hphase), (bool_decide_eq_true_2 _ Hrun).
  - intros Hlen. apply Nat.ltb_lt in Hlen. rewrite Hlen. simpl. by eexists.
Qed.

(** The claim is done and its source pod is still running. *)
Lemma Reconcile_cleanup_waits_witness :
  Reconcile test_reconciler "prod" "pvc-dst" (done_cluster "Running")
  = (Return tt, done_cluster "Running", []).
Proof.
  apply (Reconcile_cleanup_waits test_reconciler "prod" "pvc-dst" (done_cluster "Running")
           done_target "stage" "pvc-src") with (pod := source_pod "7f1c" "Running" None);
    reflexivity.
Defined.

Example Reconcile_cleanup_after_exit :
  (Reconcile test_reconciler "prod" "pvc-dst" (done_cluster "Succeeded")).2
  = [DeletePod "stage" "7f1c-source-pod";
     UpdatePVC (removeFinalizer done_target cloneSourcePodFinalizer)].
Proof. reflexivity. Qed.

(** ** What a pass writes *)

Lemma addFinalizer_other pvc f g :
  g ≠ f → hasFinalizer (addFinalizer pvc f) g = hasFinalizer pvc g.
Proof.
  intros Hg. unfold addFinalizer. destruct (hasFinalizer pvc f); [done|].
  unfold hasFinalizer. simpl. rewrite existsb_app. simpl.
  rewrite (bool_decide_eq_false_2 (f = g)) by done. by rewrite !orb_false_r.
Qed.

Lemma removeFinalizer_other pvc f g :
  g ≠ f → hasFinalizer (removeFinalizer pvc f) g = hasFinalizer pvc g.
Proof.
  intros Hg. unfold removeFinalizer. destruct (hasFinalizer pvc f); [|done]. simpl.
  apply eq_true_iff_eq. rewrite !hasFinalizer_elem. simpl.
  rewrite list_elem_of_filter. split; [by intros [_ ?]|by intros ?].
Qed.

Lemma mutated_other sourcePod pvc pvc' g :
  mutated sourcePod pvc = Some pvc' → g ≠ cloneSourcePodFinalizer →
  hasFinalizer pvc' g = hasFinalizer pvc g.
Proof.
  intros Hmut Hg. rewrite <- (addFinalizer_other pvc cloneSourcePodFinalizer g Hg).
  unfold hasFinalizer. by rewrite (counted_Finalizers _ _ _ Hmut), marked_Finalizers.
Qed.

Lemma marked_Annotations pvc k :
  pvc_Annotations (marked pvc) !! k
  = if marks pvc && bool_decide (k = AnnCloneOf) then Some "true" else pvc_Annotations pvc !! k.
Proof.
  unfold marked. destruct (marks pvc); [|done]. simpl. case_bool_decide as Hk.
  - subst k. by rewrite lookup_insert_eq.
  - by rewrite lookup_insert_ne.
Qed.

Lemma mutated_Annotations sourcePod pvc pvc' k :
  mutated sourcePod pvc = Some pvc' → k ≠ AnnPodRestarts →
  pvc_Annotations pvc' !! k
  = if marks pvc && bool_decide (k = AnnCloneOf) then Some "true" else pvc_Annotations pvc !! k.
Proof.
  intros Hmut Hk. rewrite (counted_control_equal _ _ _ Hmut k Hk).
  by rewrite marked_Annotations, marks_addFinalizer, addFinalizer_Annotations.
Qed.

Lemma shouldReconcile_CloneOf pvc :
  shouldReconcile pvc = true → pvc_Annotations pvc !! AnnCloneOf = None.
Proof.
  unfold shouldReconcile, HasAnnotation. intros [_ H]%andb_prop.
  apply negb_true_iff, bool_decide_eq_false in H.
  destruct (pvc_Annotations pvc !! AnnCloneOf); [|done]. destruct H. by eexists.
Qed.

Lemma marks_phase pvc : marks pvc = true → index (pvc_Annotations pvc) AnnPodPhase = PodSucceeded.
Proof.
  unfold marks, podSucceededFromPVC. intros [H _]%andb_prop. by apply bool_decide_eq_true in H.
Qed.

(** The update of a pass, case by case. *)
Lemma Reconcile_update_inv r namespace name c pvc' :
  UpdatePVC pvc' ∈ (Reconcile r namespace name c).2 →
  ∃ pvc, stored c namespace name = Some pvc
    ∧ stored (Reconcile r namespace name c).1.2 namespace name = Some pvc'
    ∧ ((shouldReconcile pvc = false ∧ hasFinalizer pvc cloneSourcePodFinalizer = true
        ∧ pvc' = removeFinalizer pvc cloneSourcePodFinalizer)
       ∨ (shouldReconcile pvc = true
          ∧ (∃ sourcePod, mutated sourcePod pvc = Some pvc')
          ∧ ∀ e, e ∈ success_events pvc → e ∈ (Reconcile r namespace name c).2)).
Proof.
  pose proof (Reconcile_shape r namespace name c) as Hshape.
  destruct (Reconcile r namespace name c) as [[o c'] t]. simpl.
  inversion Hshape as [o' events Hev|pvc found Hst Hshould Hfin Hfind Hterm pvc1
                       |pvc pod Hst Hshould Hfin Hfind Hlive Hrun pvc1
                       |pvc pod pvc1 Hst Hshould Hwait Hfind Hmut Hne
                       |pvc pod pvc1 Hst Hshould Hwait Hfind Hplan Hfresh Hmut]; subst.
  - intros Hin. by apply (not_event_in _ _ Hev) in Hin.
  - intros Hin%list_elem_of_singleton. injection Hin as ->.
    destruct (stored_key _ _ _ _ Hst) as [Hns Hn].
    destruct (removeFinalizer_identity pvc cloneSourcePodFinalizer) as (Hns' & Hn' & _).
    exists pvc. split_and!; [done| |by left].
    eapply stored_replace; [exact Hst|subst pvc1; congruence|subst pvc1; congruence].
  - intros Hin. apply elem_of_cons in Hin as [Hin|Hin%list_elem_of_singleton];
      [discriminate Hin|]. injection Hin as ->.
    destruct (stored_key _ _ _ _ Hst) as [Hns Hn].
    destruct (removeFinalizer_identity pvc cloneSourcePodFinalizer) as (Hns' & Hn' & _).
    exists pvc. split_and!; [done| |by left].
    eapply stored_replace; [by rewrite stored_remove_pod|subst pvc1; congruence
                           |subst pvc1; congruence].
  - intros [Hin|Hin%list_elem_of_singleton]%elem_of_app.
    { by apply (not_event_in _ _ (success_events_Forall pvc)) in Hin. }
    injection Hin as ->.
    destruct (stored_key _ _ _ _ Hst) as [Hns Hn].
    destruct (mutated_identity _ _ _ Hmut) as (Hns' & Hn' & _).
    exists pvc. split_and!; [done| |right].
    + eapply stored_replace; [exact Hst|congruence|congruence].
    + split_and!; [done|by eexists|]. intros e He. apply elem_of_app. by left.
  - intros Hin. apply elem_of_cons in Hin as [Hin|Hin]; [discriminate Hin|].
    apply elem_of_app in Hin as [Hin|Hin].
    { by apply (not_event_in _ _ (success_events_Forall pvc)) in Hin. }
    case_bool_decide; [|by apply elem_of_nil in Hin].
    apply list_elem_of_singleton in Hin. injection Hin as ->.
    destruct (stored_key _ _ _ _ Hst) as [Hns Hn].
    destruct (mutated_identity _ _ _ Hmut) as (Hns' & Hn' & _).
    exists pvc. split_and!; [done| |right].
    + eapply stored_replace; [by rewrite stored_add_pod|congruence|congruence].
    + split_and!; [done|by eexists|]. intros e He. right. apply elem_of_app. by left.
Qed.

(** X11: what an update of the claim can change.  Every update that a
    pass makes is of the claim the pass was invoked for, and is what the
    store holds for that key afterwards.  It keeps the namespace, name, UID
    and spec, every finalizer other than cloneSource, and every annotation
    other than CloneOf and PodRestarts.  CloneOf is either left as it was or
    set to true on a claim that had none, whose PodPhase is Succeeded, in a
    pass that also records the CloneSucceeded event. *)
Theorem Reconcile_update_keeps r namespace name c pvc' :
  UpdatePVC pvc' ∈ (Reconcile r namespace name c).2 →
  ∃ pvc, stored c namespace name = Some pvc
    ∧ stored (after r namespace name c) namespace name = Some pvc'
    ∧ same_identity pvc pvc'
    ∧ (∀ g, g ≠ cloneSourcePodFinalizer → hasFinalizer pvc' g = hasFinalizer pvc g)
    ∧ (∀ k, k ≠ AnnCloneOf → k ≠ AnnPodRestarts →
         pvc_Annotations pvc' !! k = pvc_Annotations pvc !! k)
    ∧ (pvc_Annotations pvc' !! AnnCloneOf = pvc_Annotations pvc !! AnnCloneOf
       ∨ pvc_Annotations pvc !! AnnCloneOf = None
         ∧ pvc_Annotations pvc' !! AnnCloneOf = Some "true"
         ∧ index (pvc_Annotations pvc) AnnPodPhase = PodSucceeded
         ∧ succeeded_event pvc ∈ (Reconcile r namespace name c).2).
Proof.
  intros Hin. destruct (Reconcile_update_inv _ _ _ _ _ Hin) as (pvc & Hst & Hst' & Hcase).
  exists pvc. split; [done|]. split; [done|].
  destruct Hcase as [(_ & _ & ->)|(Hshould & [sourcePod Hmut] & Hev)].
  - split_and!.
    + apply removeFinalizer_identity.
    + intros g Hg. by apply removeFinalizer_other.
    + intros k _ _. by rewrite removeFinalizer_Annotations.
    + left. by rewrite removeFinalizer_Annotations.
  - split_and!.
    + by eapply mutated_identity.
    + intros g Hg. by eapply mutated_other.
    + intros k Hk Hk'. rewrite (mutated_Annotations _ _ _ _ Hmut Hk').
      by rewrite (bool_decide_eq_false_2 _ Hk), andb_false_r.
    + rewrite (mutated_Annotations _ _ _ AnnCloneOf Hmut) by (vm_compute; discriminate).
      rewrite (bool_decide_eq_true_2 (AnnCloneOf = AnnCloneOf)) by done.
      destruct (marks pvc) eqn:Hmarks; simpl; [right|by left].
      split_and!; [by apply shouldReconcile_CloneOf|done|by apply marks_phase|].
      apply Hev. unfold success_events. rewrite Hmarks. by left.
Qed.

(** The finished target: the pass marks it as cloned. *)
Lemma Reconcile_update_keeps_witness :
  ∃ pvc, stored finished_cluster "prod" "pvc-dst" = Some pvc
    ∧ stored (after test_reconciler "prod" "pvc-dst" finished_cluster) "prod" "pvc-dst"
      = Some done_target
    ∧ same_identity pvc done_target
    ∧ (∀ g, g ≠ cloneSourcePodFinalizer → hasFinalizer done_target g = hasFinalizer pvc g)
    ∧ (∀ k, k ≠ AnnCloneOf → k ≠ AnnPodRestarts →
         pvc_Annotations done_target !! k = pvc_Annotations pvc !! k)
    ∧ (pvc_Annotations done_target !! AnnCloneOf = pvc_Annotations pvc !! AnnCloneOf
       ∨ pvc_Annotations pvc !! AnnCloneOf = None
         ∧ pvc_Annotations done_target !! AnnCloneOf = Some "true"
         ∧ index (pvc_Annotations pvc) AnnPodPhase = PodSucceeded
         ∧ succeeded_event pvc
             ∈ (Reconcile test_reconciler "prod" "pvc-dst" finished_cluster).2).
Proof.
  apply (Reconcile_update_keeps test_reconciler "prod" "pvc-dst" finished_cluster done_target).
  vm_compute. right. by left.
Defined.

(** The effects of a pass, in order: a create or a delete, then the
    event, then the update. *)
Lemma Reconcile_trace r namespace name c :
  ∃ first events update,
    (Reconcile r namespace name c).2 = (first ++ events ++ update)%list
    ∧ (first = [] ∨ (∃ pod, first = [CreatePod pod])
       ∨ (events = [] ∧ ∃ pod, In pod (pods c)
                               ∧ first = [DeletePod (pod_Namespace pod) (pod_Name pod)]))
    ∧ (events = [] ∨ ∃ pvc, stored c namespace name = Some pvc ∧ events = [succeeded_event pvc])
    ∧ (update = [] ∨ ∃ pvc', update = [UpdatePVC pvc']).
Proof.
  rewrite Reconcile_unfold.
  destruct (stored c namespace name) as [pvc|]; [|exists [], [], []; by split_and!; eauto].
  destruct (negb (shouldReconcile pvc)).
  { destruct (hasFinalizer _ _); [|exists [], [], []; by split_and!; eauto].
    destruct (cleanup_trace pvc c) as (del & upd & -> & Hdel & Hupd).
    exists del, [], upd. split_and!; [done| |by left|done].
    destruct Hdel as [->|?]; eauto. }
  destruct (waitTargetPodRunningOrSucceeded pvc) as [[]|]; try (exists [], [], []; by split_and!; eauto).
  destruct ((findCloneSourcePod pvc c).1.1) as [[found|]| |]; try (exists [], [], []; by split_and!; eauto).
  - destruct (updatePvcFromPod_trace (Some found) pvc c) as (ev & up & -> & Hev & Hup & _).
    exists [], ev, up. split_and!; [done|by left| |done].
    destruct Hev as [->| ->]; eauto.
  - destruct (reconcileSourcePod_inv r pvc c) as [[err ->]|H]; [exists [], [], []; by split_and!; eauto|].
    destruct H as (srcns & srcname & src & cn & cert & key & bundle & _ & _ & _ & _ & _ & _ & _
                   & _ & ->).
    generalize (MakeCloneSourcePodSpec (Image r) (PullPolicy r) srcname srcns key cert
                  bundle pvc). intros pod.
    destruct (updatePvcFromPod_trace None pvc (add_pod pod c)) as (ev & up & Ht & Hev & Hup & _).
    destruct (updatePvcFromPod None pvc (add_pod pod c)) as [[o c''] t'].
    cbn [fst snd] in *. subst t'.
    exists [CreatePod pod], ev, up. split_and!; [done|eauto| |done].
    destruct Hev as [->| ->]; eauto.
Qed.

(** X12: a pass does little and in a fixed order.  It makes at most one
    create or delete of a pod (never both), records at most one event and
    makes at most one update of a claim.  The create or delete comes first
    and the update comes last; a pass that deletes records no event; and
    the pod deleted is one the store held. *)
Theorem Reconcile_effects_bound r namespace name c :
  let t := (Reconcile r namespace name c).2 in
  (length (List.filter is_CreatePod t) + length (List.filter is_DeletePod t) ≤ 1)%nat
  ∧ (length (List.filter is_Event t) ≤ 1)%nat
  ∧ (length (List.filter is_UpdatePVC t) ≤ 1)%nat
  ∧ (∀ e, e ∈ t → is_CreatePod e || is_DeletePod e = true → head t = Some e)
  ∧ (∀ e, e ∈ t → is_UpdatePVC e = true → last t = Some e)
  ∧ (∀ e, e ∈ t → is_DeletePod e = true →
       List.filter is_Event t = []
       ∧ ∃ pod, In pod (pods c) ∧ e = DeletePod (pod_Namespace pod) (pod_Name pod)).
Proof.
  intros t. subst t.
  destruct (Reconcile_trace r namespace name c) as (first & events & update & -> & Hf & He & Hu).
  assert (∀ e l, e ∈ l → is_Event e = false → Forall (λ e, is_Event e = true) l → False) as Hno.
  { intros e l Hin Hne Hall. apply (not_event_in _ _ Hall) in Hin. congruence. }
  destruct Hu as [->|[pvc' ->]];
  (destruct He as [->|(pvc & _ & ->)];
   [destruct Hf as [->|[[pod ->]|(_ & pod & Hpod & ->)]]
   |destruct Hf as [->|[[pod ->]|(Habs & _)]]; [| |discriminate Habs]]);
  simpl; (split_and!; [lia|lia|lia|..]);
  try (intros e Hin Hk;
       repeat (apply elem_of_cons in Hin as [->|Hin]; [try reflexivity; try discriminate Hk|]);
       by apply elem_of_nil in Hin).
  all: intros e Hin Hk;
       repeat (apply elem_of_cons in Hin as [->|Hin];
               [try discriminate Hk; try (split; [reflexivity|by eauto])|]);
       by apply elem_of_nil in Hin.
Qed.

(** ** What a pass leaves alone *)






(** ** Repeated passes *)

(** After a pass that records no event, the next pass has no effect. *)
Lemma Reconcile_quiet_next r namespace name c :
  (∀ e, e ∈ (Reconcile r namespace name c).2 → is_Event e = false) →
  ∃ o, Reconcile r namespace name (after r namespace name c)
       = (o, after r namespace name c, []).
Proof.
  unfold after. pose proof (Reconcile_shape r namespace name c) as Hshape.
  destruct (Reconcile r namespace name c) as [[o c'] t] eqn:Hpass. simpl.
  inversion Hshape as [o' events Hev|pvc found Hst Hshould Hfin Hfind Hterm pvc1
                       |pvc pod Hst Hshould Hfin Hfind Hlive Hrun pvc1
                       |pvc pod pvc1 Hst Hshould Hwait Hfind Hmut Hne
                       |pvc pod pvc1 Hst Hshould Hwait Hfind Hplan Hfresh Hmut]; subst.
  - intros Hno. destruct t as [|e events].
    + by exists o.
    + specialize (Hno e (list_elem_of_here _ _)).
      apply Forall_cons in Hev as [He _]. congruence.
  - destruct (stored_key _ _ _ _ Hst) as [Hns Hn].
    destruct (removeFinalizer_identity pvc cloneSourcePodFinalizer) as (Hns' & Hn' & _).
    intros _. exists (Return tt). apply (Reconcile_released _ _ _ _ pvc1).
    + eapply stored_replace; [exact Hst|subst pvc1; congruence|subst pvc1; congruence].
    + by rewrite (shouldReconcile_ext pvc) by apply removeFinalizer_control_equal.
    + apply hasFinalizer_removeFinalizer.
  - destruct (stored_key _ _ _ _ Hst) as [Hns Hn].
    destruct (removeFinalizer_identity pvc cloneSourcePodFinalizer) as (Hns' & Hn' & _).
    intros _. exists (Return tt). apply (Reconcile_released _ _ _ _ pvc1).
    + eapply stored_replace; [by rewrite stored_remove_pod|subst pvc1; congruence
                             |subst pvc1; congruence].
    + by rewrite (shouldReconcile_ext pvc) by apply removeFinalizer_control_equal.
    + apply hasFinalizer_removeFinalizer.
  - destruct (stored_key _ _ _ _ Hst) as [Hns Hn].
    destruct (mutated_identity _ _ _ Hmut) as (Hns' & Hn' & Huid & _).
    intros Hno. exists (Return tt).
    assert (marks pvc = false) as Hmarks.
    { apply success_events_nil. intros e He. apply Hno, elem_of_app. by left. }
    destruct (mutated_twice _ _ _ Hmarks Hmut) as [Hc Hfix].
    apply (Reconcile_settled _ _ _ _ pvc1 pod).
    + eapply stored_replace; [exact Hst|congruence|congruence].
    + by rewrite (shouldReconcile_ext pvc).
    + by rewrite (waitTargetPodRunningOrSucceeded_ext pvc).
    + rewrite <- Hfind. apply findCloneSourcePod_ext; try done.
      apply Hc. vm_compute. discriminate.
    + by rewrite (marks_ext pvc).
    + exact Hfix.
  - destruct (stored_key _ _ _ _ Hst) as [Hns Hn].
    destruct (mutated_identity _ _ _ Hmut) as (Hns' & Hn' & Huid & _).
    intros Hno. exists (Return tt).
    assert (marks pvc = false) as Hmarks.
    { apply success_events_nil. intros e He. apply Hno. right. apply elem_of_app. by left. }
    destruct (mutated_twice _ _ _ Hmarks Hmut) as [Hc Hfix].
    destruct (planned_pod_selected _ _ _ Hplan) as (? & ? & _ & _ & Hstatus).
    assert (mutated (Some pod) pvc1 = Some pvc1) as Hfix'.
    { revert Hfix. unfold mutated, counted. simpl. by rewrite Hstatus. }
    assert ((findCloneSourcePod pvc1 (add_pod pod c)).1.1 = Return (Some pod)) as Hfind'.
    { rewrite <- (findCloneSourcePod_after_create r pvc pod c Hfind Hplan).
      apply findCloneSourcePod_ext; try done. apply Hc. vm_compute. discriminate. }
    case_bool_decide as Hch.
    + apply (Reconcile_settled _ _ _ _ pvc1 pod).
      * eapply stored_replace; [by rewrite stored_add_pod|congruence|congruence].
      * by rewrite (shouldReconcile_ext pvc).
      * by rewrite (waitTargetPodRunningOrSucceeded_ext pvc).
      * rewrite <- Hfind'. by apply findCloneSourcePod_ext.
      * by rewrite (marks_ext pvc).
      * exact Hfix'.
    + assert (pvc1 = pvc) as -> by (by destruct (decide (pvc = pvc1))).
      by apply (Reconcile_settled _ _ _ _ pvc pod).
Qed.

Lemma mutated_shouldReconcile sourcePod pvc pvc' :
  mutated sourcePod pvc = Some pvc' → marks pvc = true → shouldReconcile pvc' = false.
Proof.
  intros Hmut Hmarks. unfold shouldReconcile, HasAnnotation.
  rewrite (mutated_Annotations _ _ _ AnnCloneOf Hmut) by (vm_compute; discriminate).
  rewrite Hmarks, (bool_decide_eq_true_2 (AnnCloneOf = AnnCloneOf)) by done. cbn [andb].
  apply andb_false_iff. right. apply negb_false_iff, bool_decide_eq_true. by eexists.
Qed.

(** A pass that records the event and does not panic leaves a claim that
    needs no more reconciling. *)
Lemma Reconcile_event_marked r namespace name c e :
  e ∈ (Reconcile r namespace name c).2 → is_Event e = true →
  (∀ msg, (Reconcile r namespace name c).1.1 ≠ Panic msg) →
  ∃ pvc', stored (after r namespace name c) namespace name = Some pvc'
          ∧ shouldReconcile pvc' = false.
Proof.
  unfold after. rewrite Reconcile_unfold.
  destruct (stored c namespace name) as [pvc|] eqn:Hst; [|by intros ?%elem_of_nil].
  destruct (stored_key _ _ _ _ Hst) as [Hns Hn].
  assert (Hst' : stored c (pvc_Namespace pvc) (pvc_Name pvc) = Some pvc) by by rewrite Hns, Hn.
  destruct (shouldReconcile pvc) eqn:Hshould; cbv beta iota delta [negb] in *.
  2:{ destruct (hasFinalizer _ _); [|by intros ?%elem_of_nil].
      destruct (cleanup_trace pvc c) as (del & upd & -> & Hdel & Hupd).
      destruct Hdel as [->|(? & _ & ->)], Hupd as [->|[? ->]]; intros Hin He;
        repeat (apply elem_of_cons in Hin as [->|Hin]; [discriminate He|]);
        by apply elem_of_nil in Hin. }
  destruct (waitTargetPodRunningOrSucceeded pvc) as [[]|]; try by intros ?%elem_of_nil.
  destruct ((findCloneSourcePod pvc c).1.1) as [[found|]| |] eqn:Hfind;
    try by intros ?%elem_of_nil.
  - rewrite (updatePvcFromPod_stored _ _ _ _ Hst') in *. cbv zeta in *.
    rewrite marks_addFinalizer in *. fold (mutated (Some found) pvc) in *.
    destruct (mutated (Some found) pvc) as [pvc3|] eqn:Hmut;
      [|intros _ _ Hnp; by destruct (Hnp _ eq_refl)].
    destruct (marks pvc) eqn:Hmarks.
    2:{ case_bool_decide; simpl; intros Hin He.
        - apply list_elem_of_singleton in Hin as ->. discriminate He.
        - by apply elem_of_nil in Hin. }
    intros _ _ _. pose proof (mutated_shouldReconcile _ _ _ Hmut Hmarks) as Hdone.
    destruct (mutated_identity _ _ _ Hmut) as (Hns' & Hn' & _).
    case_bool_decide as Hch; simpl.
    + exists pvc3. split; [|done]. eapply stored_replace; [exact Hst|congruence|congruence].
    + assert (pvc3 = pvc) as -> by (by destruct (decide (pvc = pvc3))). congruence.
  - destruct (reconcileSourcePod_inv r pvc c) as [[err Hrec]|H].
    { rewrite Hrec in *. by intros ?%elem_of_nil. }
    destruct H as (srcns & srcname & src & cn & cert & key & bundle & _ & _ & _ & _ & _ & _ & _
                   & _ & Hrec).
    rewrite Hrec. clear Hrec.
    generalize (MakeCloneSourcePodSpec (Image r) (PullPolicy r) srcname srcns key cert
                  bundle pvc). intros pod.
    rewrite (updatePvcFromPod_stored _ _ _ pvc) by by rewrite stored_add_pod.
    cbv zeta. rewrite marks_addFinalizer. fold (mutated None pvc).
    destruct (mutated None pvc) as [pvc3|] eqn:Hmut; [|done].
    destruct (marks pvc) eqn:Hmarks.
    2:{ case_bool_decide; simpl; intros Hin He;
          repeat (apply elem_of_cons in Hin as [->|Hin]; [discriminate He|]);
          by apply elem_of_nil in Hin. }
    intros _ _ _. pose proof (mutated_shouldReconcile _ _ _ Hmut Hmarks) as Hdone.
    destruct (mutated_identity _ _ _ Hmut) as (Hns' & Hn' & _).
    case_bool_decide as Hch; simpl.
    + exists pvc3. split; [|done].
      eapply stored_replace; [by rewrite stored_add_pod|congruence|congruence].
    + assert (pvc3 = pvc) as -> by (by destruct (decide (pvc = pvc3))). congruence.
Qed.

(** A pass over a claim that needs no reconciling records no event. *)
Lemma Reconcile_cleanup_quiet r namespace name c pvc e :
  stored c namespace name = Some pvc → shouldReconcile pvc = false →
  e ∈ (Reconcile r namespace name c).2 → is_Event e = false.
Proof.
  intros Hst Hshould. rewrite Reconcile_unfold, Hst, Hshould. cbv beta iota delta [negb].
  destruct (hasFinalizer _ _); [|by intros ?%elem_of_nil].
  destruct (cleanup_trace pvc c) as (del & upd & -> & Hdel & Hupd).
  destruct Hdel as [->|(? & _ & ->)], Hupd as [->|[? ->]]; intros Hin;
    repeat (apply elem_of_cons in Hin as [->|Hin]; [reflexivity|]);
    by apply elem_of_nil in Hin.
Qed.

(** X14: repeated passes come to rest.  When a pass does not panic, then
    with no other change to the store the third pass in a row has no effect
    and leaves the store as it found it.  (Two passes can both change the
    store: the pass that marks the clone as succeeded is followed by the
    pass that cleans up.) *)
Theorem Reconcile_settles r namespace name c :
  (∀ msg, (Reconcile r namespace name c).1.1 ≠ Panic msg) →
  let c1 := after r namespace name c in
  let c2 := after r namespace name c1 in
  ∃ o, Reconcile r namespace name c2 = (o, c2, []).
Proof.
  intros Hnp c1 c2. subst c2 c1.
  destruct (existsb is_Event (Reconcile r namespace name c).2) eqn:E.
  - apply existsb_exists in E as (e & Hin%list_elem_of_In & He).
    destruct (Reconcile_event_marked _ _ _ _ _ Hin He Hnp) as (pvc' & Hst & Hshould).
    apply Reconcile_quiet_next. intros e'. by apply (Reconcile_cleanup_quiet _ _ _ _ pvc').
  - destruct (Reconcile_quiet_next r namespace name c) as [o Ho].
    { intros e Hin. destruct (is_Event e) eqn:He; [|done].
      assert (existsb is_Event (Reconcile r namespace name c).2 = true) as E'
        by (apply existsb_exists; exists e; split; [by apply list_elem_of_In|done]).
      congruence. }
    assert (after r namespace name (after r namespace name c) = after r namespace name c)
      as -> by (unfold after at 1; by rewrite Ho).
    by exists o.
Qed.

(** The finished target: marked in the first pass, cleaned up in the
    second, at rest in the third. *)
Lemma Reconcile_settles_witness :
  ∃ o, Reconcile test_reconciler "prod" "pvc-dst"
         (after test_reconciler "prod" "pvc-dst"
            (after test_reconciler "prod" "pvc-dst" finished_cluster))
       = (o, after test_reconciler "prod" "pvc-dst"
               (after test_reconciler "prod" "pvc-dst" finished_cluster), []).
Proof.
  apply (Reconcile_settles test_reconciler "prod" "pvc-dst" finished_cluster).
  intros msg. vm_compute. discriminate.
Defined.

(** ** The upload proxy: what goes upstream and what comes back *)

(** The gate opens exactly when some poll within the budget finds the
    claim ready and every earlier one found it waiting. *)
Lemma uploadReady_None app name namespace :
  (uploadReady app name namespace).1 = None
  ↔ ∃ k, (k ≤ 10)%nat ∧ ready_at app name namespace k
         ∧ ∀ j, (j < k)%nat → waiting_at app name namespace j.
Proof.
  unfold uploadReady, PollImmediate.
  change (Z.to_nat (waitReadyTime / waitReadyImterval) + 1)%nat with 11%nat.
  pose proof (poll_success 11 0 (uploadReadyCondition app name namespace)) as H.
  destruct (poll 11 0 _) as [e tries]. simpl in *. rewrite H.
  split; intros (k & ? & Hk & Hj); exists k.
  - split_and!; [lia|by apply condition_true|]. intros j ?. by apply condition_false, Hj.
  - split_and!; [lia|by apply condition_true|]. intros j ?. by apply condition_false, Hj.
Qed.

Lemma uploadReady_polls app name namespace :
  (length (uploadReady app name namespace).2 ≤ 11)%nat
  ∧ ∀ e, e ∈ (uploadReady app name namespace).2 → ∃ k, e = CallGetPVC k namespace name.
Proof.
  unfold uploadReady, PollImmediate.
  change (Z.to_nat (waitReadyTime / waitReadyImterval) + 1)%nat with 11%nat.
  pose proof (poll_tries 11 0 (uploadReadyCondition app name namespace)) as Htries.
  destruct (poll 11 0 _) as [e tries]. simpl in *. split.
  - by rewrite length_map, length_seq.
  - intros e' (k & -> & _)%list_elem_of_fmap. eauto.
Qed.

(** The handler, once the header has matched, the token has been
    validated and its claims are those of an upload. *)
Lemma handleUploadRequest_gated app r tok tokenData :
  matches_authHeader (index (Header r) "Authorization") tok →
  uploadproxy.tokenValidator app tok = Ok tokenData →
  upload_claims tokenData →
  handleUploadRequest app r =
    let '(err, polls) :=
      uploadReady app (payload_Name tokenData) (payload_Namespace tokenData) in
    match err with
    | Some _ => ((CallValidate tok :: polls ++ [WriteHeader StatusServiceUnavailable])%list,
                 Returned)
    | None =>
        let '(events, how) :=
          proxyUploadRequest app (payload_Namespace tokenData) (payload_Name tokenData) r in
        ((CallValidate tok :: polls ++ events)%list, how)
    end.
Proof.
  intros Hmatch%FindStringSubmatch_spec Hvalid Hclaims. unfold handleUploadRequest.
  assert (index (Header r) "Authorization" ≠ "") as Hne
    by (intros E; rewrite E in Hmatch; discriminate Hmatch).
  rewrite bool_decide_false by done. rewrite Hmatch. simpl. rewrite Hvalid.
  by rewrite (proj2 (upload_claims_test tokenData) Hclaims).
Qed.

(** The handler reaches the gate only that way. *)
Lemma handleUploadRequest_cases app r :
  handleUploadRequest app r = ([WriteHeader StatusBadRequest], Returned)
  ∨ (∃ tok, handleUploadRequest app r = ([CallValidate tok; WriteHeader StatusUnauthorized], Returned))
  ∨ (∃ tok, handleUploadRequest app r = ([CallValidate tok; WriteHeader StatusBadRequest], Returned))
  ∨ (∃ tok tokenData,
       matches_authHeader (index (Header r) "Authorization") tok
       ∧ uploadproxy.tokenValidator app tok = Ok tokenData
       ∧ upload_claims tokenData).
Proof.
  unfold handleUploadRequest. case_bool_decide; [by left|].
  destruct (FindStringSubmatch_shape (index (Header r) "Authorization")) as [E|[tok E]].
  { rewrite E. by left. }
  pose proof (proj1 (FindStringSubmatch_spec _ _) E) as Hmatch. rewrite E. simpl.
  destruct (uploadproxy.tokenValidator app tok) as [tokenData|] eqn:Hvalid; [|right; left; eauto].
  destruct (_ || _) eqn:Hc; [right; right; left; eauto|].
  apply upload_claims_test in Hc. do 3 right. eauto.
Qed.

(** X15: nothing goes upstream without authorisation and readiness.
    When the handler makes an upstream request, the Authorization header
    matched the Bearer pattern, the validator accepted its token, the token
    is an upload token for a named claim, the claim was found ready by a
    poll within the budget (and waiting at every earlier poll), and the
    creator handed out a client.  The request made is the only one; it
    carries the method, body and content length of the incoming request and
    goes to the URL that the resolver gives for the token's namespace and
    name and the incoming path. *)
Theorem handleUploadRequest_forward_inv app r req :
  CallDo req ∈ (handleUploadRequest app r).1 →
  ∃ tok tokenData cl,
    matches_authHeader (index (Header r) "Authorization") tok
    ∧ uploadproxy.tokenValidator app tok = Ok tokenData
    ∧ upload_claims tokenData
    ∧ (∃ k, (k ≤ 10)%nat
            ∧ ready_at app (payload_Name tokenData) (payload_Namespace tokenData) k
            ∧ ∀ j, (j < k)%nat →
                waiting_at app (payload_Name tokenData) (payload_Namespace tokenData) j)
    ∧ (clientCreator app).1 = Some cl
    ∧ req = {| out_Method := Method r;
               out_URL := urlResolver app (payload_Namespace tokenData)
                            (payload_Name tokenData) (Path r);
               out_Body := Body r;
               out_ContentLength := ContentLength r |}
    ∧ length (List.filter is_CallDo
                (handleUploadRequest app r).1) = 1%nat.
Proof.
  destruct (handleUploadRequest_cases app r) as [->|[[tok ->]|[[tok ->]|H]]];
    try (intros Hin; simpl in Hin;
         repeat (apply elem_of_cons in Hin as [Hin|Hin]; [discriminate Hin|]);
         by apply elem_of_nil in Hin).
  destruct H as (tok & tokenData & Hmatch & Hvalid & Hclaims).
  rewrite (handleUploadRequest_gated app r tok tokenData Hmatch Hvalid Hclaims).
  pose proof (uploadReady_None app (payload_Name tokenData) (payload_Namespace tokenData))
    as Hgate.
  destruct (uploadReady_polls app (payload_Name tokenData) (payload_Namespace tokenData))
    as [_ Hpolls].
  destruct (uploadReady app _ _) as [err polls]. simpl in Hgate, Hpolls.
  assert (List.filter is_CallDo polls = []) as Hnone.
  { clear Hgate. induction polls as [|e polls IH]; [done|]. simpl.
    destruct (Hpolls e (list_elem_of_here _ _)) as [k ->].
    apply IH. intros e' He'. apply Hpolls. by right. }
  assert (∀ q, CallDo q ∉ polls) as Hnot.
  { intros q Hq. by destruct (Hpolls _ Hq). }
  destruct err as [err|].
  { simpl. intros Hin. apply elem_of_cons in Hin as [Hin|Hin]; [discriminate Hin|].
    apply elem_of_app in Hin as [Hin|Hin%list_elem_of_singleton]; [|discriminate Hin].
    by apply Hnot in Hin. }
  unfold proxyUploadRequest. destruct (clientCreator app) as [[cl|] cerr].
  - set (out := {| out_Method := Method r; out_URL := _; out_Body := _;
                   out_ContentLength := _ |}).
    destruct (upstream app cl out); simpl; intros Hin;
      (apply elem_of_cons in Hin as [Hin|Hin]; [discriminate Hin|]);
      (apply elem_of_app in Hin as [Hin|Hin]; [by apply Hnot in Hin|]);
      (apply elem_of_cons in Hin as [Hin|Hin]; [discriminate Hin|]);
      (apply elem_of_cons in Hin as [Hin|Hin];
       [|repeat (apply elem_of_cons in Hin as [Hin|Hin]; [discriminate Hin|]);
         by apply elem_of_nil in Hin]);
      injection Hin as ->; exists tok, tokenData, cl;
      (split_and!; [done|done|done|by apply Hgate|done|done|]);
      by rewrite List.filter_app, Hnone.
  - simpl. intros Hin. apply elem_of_cons in Hin as [Hin|Hin]; [discriminate Hin|].
    apply elem_of_app in Hin as [Hin|Hin%list_elem_of_singleton]; [|discriminate Hin].
    by apply Hnot in Hin.
Qed.

(** The upload token on a ready claim: one request goes upstream. *)
Lemma handleUploadRequest_forward_inv_witness :
  let app := proxy_app {[ AnnPodReady := "true" ]} (Some test_client, None) in
  let r := request_with "Bearer upl0ad" in
  ∃ tok tokenData cl,
    matches_authHeader (index (Header r) "Authorization") tok
    ∧ uploadproxy.tokenValidator app tok = Ok tokenData
    ∧ upload_claims tokenData
    ∧ (∃ k, (k ≤ 10)%nat
            ∧ ready_at app (payload_Name tokenData) (payload_Namespace tokenData) k
            ∧ ∀ j, (j < k)%nat →
                waiting_at app (payload_Name tokenData) (payload_Namespace tokenData) j)
    ∧ (clientCreator app).1 = Some cl
    ∧ {| out_Method := "POST"; out_URL := "https://pvc-dst.prod/v1alpha1/upload";
         out_Body := "disk image"; out_ContentLength := 10 |}
      = {| out_Method := Method r;
           out_URL := urlResolver app (payload_Namespace tokenData)
                        (payload_Name tokenData) (Path r);
           out_Body := Body r;
           out_ContentLength := ContentLength r |}
    ∧ length (List.filter is_CallDo
                (handleUploadRequest app r).1) = 1%nat.
Proof.
  intros app r.
  apply (handleUploadRequest_forward_inv app r).
  vm_compute. do 3 right. by left.
Defined.

(** X16: the proxy relays.  For a request whose token is accepted as an
    upload token, whose claim the gate finds ready and for which the
    creator hands out a client, the handler validates the token, polls the
    claim (at most 11 reads), builds the client and makes one upstream
    request; it then answers with the upstream's status code followed by
    the upstream's body, or with 500 and no body when the upstream call
    fails, and returns. *)
Theorem handleUploadRequest_relays app r tok tokenData cl k :
  matches_authHeader (index (Header r) "Authorization") tok →
  uploadproxy.tokenValidator app tok = Ok tokenData →
  upload_claims tokenData →
  let name := payload_Name tokenData in
  let namespace := payload_Namespace tokenData in
  (k ≤ 10)%nat → ready_at app name namespace k →
  (∀ j, (j < k)%nat → waiting_at app name namespace j) →
  (clientCreator app).1 = Some cl →
  let req := {| out_Method := Method r;
                out_URL := urlResolver app namespace name (Path r);
                out_Body := Body r;
                out_ContentLength := ContentLength r |} in
  ∃ polls,
    (length polls ≤ 11)%nat
    ∧ (∀ e, e ∈ polls → ∃ i, e = CallGetPVC i namespace name)
    ∧ handleUploadRequest app r
      = ((CallValidate tok :: polls
            ++ CallCreateClient :: CallDo req
                 :: match upstream app cl req with
                    | Ok response =>
                        [WriteHeader (StatusCode response); WriteBody (resp_Body response)]
                    | Err _ => [WriteHeader 500]
                    end)%list,
         Returned).
Proof.
  intros Hmatch Hvalid Hclaims name namespace Hk Hready Hwait Hcl req.
  rewrite (handleUploadRequest_gated app r tok tokenData Hmatch Hvalid Hclaims).
  fold name namespace.
  assert ((uploadReady app name namespace).1 = None) as Hopen
    by (apply uploadReady_None; eauto).
  destruct (uploadReady_polls app name namespace) as [Hlen Hpolls].
  destruct (uploadReady app name namespace) as [err polls]. simpl in *. subst err.
  exists polls. split; [done|]. split; [done|].
  unfold proxyUploadRequest. fold req.
  destruct (clientCreator app) as [cl' cerr]. simpl in Hcl. subst cl'.
  by destruct (upstream app cl req).
Qed.

(** The upload token on a ready claim; the upstream answers 200. *)
Lemma handleUploadRequest_relays_witness :
  let app := proxy_app {[ AnnPodReady := "true" ]} (Some test_client, None) in
  let r := request_with "Bearer upl0ad" in
  let req := {| out_Method := "POST"; out_URL := "https://pvc-dst.prod/v1alpha1/upload";
                out_Body := "disk image"; out_ContentLength := 10 |} in
  ∃ polls,
    (length polls ≤ 11)%nat
    ∧ (∀ e, e ∈ polls → ∃ i, e = CallGetPVC i "prod" "pvc-dst")
    ∧ handleUploadRequest app r
      = ((CallValidate "upl0ad" :: polls
            ++ CallCreateClient :: CallDo req
                 :: match upstream app test_client req with
                    | Ok response =>
                        [WriteHeader (StatusCode response); WriteBody (resp_Body response)]
                    | Err _ => [WriteHeader 500]
                    end)%list,
         Returned).
Proof.
  intros app r req.
  apply (handleUploadRequest_relays app r "upl0ad" upload_payload test_client 0).
  - apply FindStringSubmatch_spec. reflexivity.
  - reflexivity.
  - by split_and!.
  - lia.
  - eexists. split_and!; [reflexivity|vm_compute; discriminate|by apply ParseBool_true].
  - intros j ?. lia.
  - reflexivity.
Defined.

Lemma filter_none {A} (f : A → bool) (l : list A) :
  (∀ x, x ∈ l → f x = false) → List.filter f l = [].
Proof.
  induction l as [|x l IH]; [done|]. intros H. simpl.
  rewrite (H x (list_elem_of_here _ _)). apply IH. intros y Hy. apply H. by right.
Qed.

(** X17: every request gets one answer, or the handler panics.  The
    handler writes at most one status, and it returns exactly when it has
    written one.  A status written without an upstream request is 400, 401
    or 503, and a body is the last thing written.  The handler panics only after the gate has opened and the
    creator has handed out no client: it has then built no request and
    written nothing. *)
Theorem handleUploadRequest_answers app r :
  let events := (handleUploadRequest app r).1 in
  let how := (handleUploadRequest app r).2 in
  (length (List.filter is_WriteHeader events) ≤ 1)%nat
  ∧ (how = Returned ↔ ∃ code, WriteHeader code ∈ events)
  ∧ (∀ code, WriteHeader code ∈ events → (∀ req, CallDo req ∉ events) →
       code ∈ [StatusBadRequest; StatusUnauthorized; StatusServiceUnavailable])
  ∧ (∀ body, WriteBody body ∈ events → last events = Some (WriteBody body))
  ∧ (∀ msg, how = Panicked msg →
       (clientCreator app).1 = None
       ∧ last events = Some CallCreateClient
       ∧ (∀ req, CallDo req ∉ events)
       ∧ ∃ tok tokenData,
           matches_authHeader (index (Header r) "Authorization") tok
           ∧ uploadproxy.tokenValidator app tok = Ok tokenData
           ∧ upload_claims tokenData
           ∧ (uploadReady app (payload_Name tokenData) (payload_Namespace tokenData)).1 = None).
Proof.
  intros events how. subst events how.
  destruct (handleUploadRequest_cases app r) as [->|[[tok ->]|[[tok ->]|H]]].
  1-3: simpl; split_and!; [lia|split; [intros _; eexists; repeat first [by left|right]|done]| | |done];
       [intros code Hin _;
        repeat (apply elem_of_cons in Hin as [Hin|Hin]; [try discriminate Hin|]);
        [injection Hin as ->; repeat first [by left|right].. | by apply elem_of_nil in Hin]
       |intros body Hin;
        repeat (apply elem_of_cons in Hin as [Hin|Hin]; [discriminate Hin|]);
        by apply elem_of_nil in Hin].
  destruct H as (tok & tokenData & Hmatch & Hvalid & Hclaims).
  rewrite (handleUploadRequest_gated app r tok tokenData Hmatch Hvalid Hclaims).
  destruct (uploadReady_polls app (payload_Name tokenData) (payload_Namespace tokenData))
    as [_ Hpolls].
  destruct (uploadReady app _ _) as [err polls] eqn:Hready. simpl in Hpolls.
  assert (List.filter is_WriteHeader polls = []) as Hnone.
  { apply filter_none. intros e He. by destruct (Hpolls e He) as [i ->]. }
  destruct err as [err|].
  { simpl. rewrite List.filter_app, Hnone. simpl. split_and!; [lia| | | |done].
    - split; [intros _|done]. eexists. right. apply elem_of_app. right. by left.
    - intros code Hin _. apply elem_of_cons in Hin as [Hin|Hin]; [discriminate Hin|].
      apply elem_of_app in Hin as [Hin|Hin%list_elem_of_singleton].
      + destruct (Hpolls _ Hin) as [? Habs]. discriminate Habs.
      + injection Hin as ->. repeat first [by left|right].
    - intros body Hin. apply elem_of_cons in Hin as [Hin|Hin]; [discriminate Hin|].
      apply elem_of_app in Hin as [Hin|Hin%list_elem_of_singleton]; [|discriminate Hin].
      destruct (Hpolls _ Hin) as [? Habs]. discriminate Habs. }
  unfold proxyUploadRequest. destruct (clientCreator app) as [[cl|] cerr].
  - set (out := {| out_Method := Method r; out_URL := _; out_Body := _;
                   out_ContentLength := _ |}).
    destruct (upstream app cl out) as [response|uerr]; simpl;
      rewrite List.filter_app, Hnone; simpl; (split_and!; [lia| | | |done]).
    + split; [intros _|done]. eexists. right. apply elem_of_app. right. do 2 right. by left.
    + intros code _ Hno. destruct (Hno out). right. apply elem_of_app. right. right. by left.
    + intros body Hin. apply elem_of_cons in Hin as [Hin|Hin]; [discriminate Hin|].
      apply elem_of_app in Hin as [Hin|Hin].
      { destruct (Hpolls _ Hin) as [? Habs]. discriminate Habs. }
      repeat (apply elem_of_cons in Hin as [Hin|Hin]; [try discriminate Hin|]);
        [|by apply elem_of_nil in Hin].
      injection Hin as ->.
      change (CallValidate tok :: polls ++ ?l)%list with ((CallValidate tok :: polls) ++ l)%list.
      by rewrite !last_app.
    + split; [intros _|done]. eexists. right. apply elem_of_app. right. do 2 right. by left.
    + intros code _ Hno. destruct (Hno out). right. apply elem_of_app. right. right. by left.
    + intros body Hin. apply elem_of_cons in Hin as [Hin|Hin]; [discriminate Hin|].
      apply elem_of_app in Hin as [Hin|Hin].
      { destruct (Hpolls _ Hin) as [? Habs]. discriminate Habs. }
      repeat (apply elem_of_cons in Hin as [Hin|Hin]; [discriminate Hin|]).
      by apply elem_of_nil in Hin.
  - simpl. rewrite List.filter_app, Hnone. simpl. split_and!; [lia| | | |].
    + split; [done|]. intros [code Hin].
      apply elem_of_cons in Hin as [Hin|Hin]; [discriminate Hin|].
      apply elem_of_app in Hin as [Hin|Hin%list_elem_of_singleton]; [|discriminate Hin].
      destruct (Hpolls _ Hin) as [? Habs]. discriminate Habs.
    + intros code Hin. apply elem_of_cons in Hin as [Hin|Hin]; [discriminate Hin|].
      apply elem_of_app in Hin as [Hin|Hin%list_elem_of_singleton]; [|discriminate Hin].
      destruct (Hpolls _ Hin) as [? Habs]. discriminate Habs.
    + intros body Hin. apply elem_of_cons in Hin as [Hin|Hin]; [discriminate Hin|].
      apply elem_of_app in Hin as [Hin|Hin%list_elem_of_singleton]; [|discriminate Hin].
      destruct (Hpolls _ Hin) as [? Habs]. discriminate Habs.
    + intros msg _. split_and!; [done| | |].
      * change (CallValidate tok :: polls ++ ?l)%list with ((CallValidate tok :: polls) ++ l)%list.
        by rewrite last_app.
      * intros req Hin. apply elem_of_cons in Hin as [Hin|Hin]; [discriminate Hin|].
        apply elem_of_app in Hin as [Hin|Hin%list_elem_of_singleton]; [|discriminate Hin].
        destruct (Hpolls _ Hin) as [? Habs]. discriminate Habs.
      * exists tok, tokenData. by rewrite Hready.
Qed.

(** ** The upload proxy: the upstream client *)

(** X18: CreateClient hands out a client or an error, never both and
    never neither.  It hands out a client exactly when the certificate, the
    key and the CA bundle are fetched and the key pair is accepted; the
    client then presents that one key pair, trusts that bundle and gives a
    request 24 hours.  The error is that of the first step that fails, in
    the order certificate, key, bundle, key pair. *)
Theorem CreateClient_spec c :
  ((CreateClient c).1 = None ↔ is_Some (CreateClient c).2)
  ∧ (∀ cl, (CreateClient c).1 = Some cl
       ↔ ∃ cert key bundle pair,
           certFetcher_CertBytes c = Ok cert ∧ certFetcher_KeyBytes c = Ok key
           ∧ bundleFetcher_BundleBytes c = Ok bundle ∧ X509KeyPair c cert key = Ok pair
           ∧ cl = {| Certificates := [pair]; RootCAs := bundle;
                     Timeout := 24 * 3600 * 1000000000 |})
  ∧ (∀ err, (CreateClient c).2 = Some err
       ↔ certFetcher_CertBytes c = Err err
         ∨ ∃ cert, certFetcher_CertBytes c = Ok cert
             ∧ (certFetcher_KeyBytes c = Err err
                ∨ ∃ key, certFetcher_KeyBytes c = Ok key
                    ∧ (bundleFetcher_BundleBytes c = Err err
                       ∨ ∃ bundle, bundleFetcher_BundleBytes c = Ok bundle
                           ∧ X509KeyPair c cert key = Err err))).
Proof.
  unfold CreateClient.
  destruct (certFetcher_CertBytes c) as [cert|e1].
  2:{ split_and!; [split; [by eexists|done]|intros cl; split; [done|]|intros err; split].
      - by intros (? & ? & ? & ? & ? & _).
      - intros [= ->]. by left.
      - intros [[= ->]|(? & ? & _)]; done. }
  destruct (certFetcher_KeyBytes c) as [key|e2].
  2:{ split_and!; [split; [by eexists|done]|intros cl; split; [done|]|intros err; split].
      - by intros (? & ? & ? & ? & ? & ? & _).
      - intros [= ->]. right. eauto.
      - intros [?|(? & _ & [[= ->]|(? & ? & _)])]; done. }
  destruct (bundleFetcher_BundleBytes c) as [bundle|e3].
  2:{ split_and!; [split; [by eexists|done]|intros cl; split; [done|]|intros err; split].
      - by intros (? & ? & ? & ? & ? & ? & ? & _).
      - intros [= ->]. right. eauto 10.
      - intros [?|(? & _ & [?|(? & _ & [[= ->]|(? & ? & _)])])]; done. }
  destruct (X509KeyPair c cert key) as [pair|e4] eqn:Hpair.
  2:{ split_and!; [split; [by eexists|done]|intros cl; split; [done|]|intros err; split].
      - intros (? & ? & ? & ? & [= <-] & [= <-] & _ & ? & _). congruence.
      - intros [= ->]. right. eauto 10.
      - intros [?|(? & [= <-] & [?|(? & [= <-] & [?|(? & _ & ?)])])]; try done.
        simpl. congruence. }
  split_and!.
  - split; [done|]. by intros [? ?].
  - intros cl. split.
    + intros [= <-]. by exists cert, key, bundle, pair.
    + intros (? & ? & ? & x2 & [= <-] & [= <-] & [= <-] & ? & ->). simpl.
      replace x2 with pair by congruence. reflexivity.
  - intros err. split; [done|].
    intros [?|(? & [= <-] & [?|(? & [= <-] & [?|(? & _ & ?)])])]; try done.
    simpl. congruence.
Qed.

(** X19: a creator that fails brings the handler down.  With the
    creator's result handed to the handler as it is, a request that has
    passed authorisation and the readiness gate, and for which any step of
    CreateClient fails, makes the handler panic: it has validated the
    token, polled the claim and called the creator, and it writes no status
    and makes no upstream request. *)
Theorem handleUploadRequest_creator_failure app r c tok tokenData k :
  clientCreator app = CreateClient c →
  is_Some (CreateClient c).2 →
  matches_authHeader (index (Header r) "Authorization") tok →
  uploadproxy.tokenValidator app tok = Ok tokenData →
  upload_claims tokenData →
  let name := payload_Name tokenData in
  let namespace := payload_Namespace tokenData in
  (k ≤ 10)%nat → ready_at app name namespace k →
  (∀ j, (j < k)%nat → waiting_at app name namespace j) →
  ∃ polls,
    (∀ e, e ∈ polls → ∃ i, e = CallGetPVC i namespace name)
    ∧ handleUploadRequest app r
      = ((CallValidate tok :: polls ++ [CallCreateClient])%list,
         Panicked "invalid memory address or nil pointer dereference").
Proof.
  intros Hcreator Hfail Hmatch Hvalid Hclaims name namespace Hk Hready Hwait.
  rewrite (handleUploadRequest_gated app r tok tokenData Hmatch Hvalid Hclaims).
  fold name namespace.
  assert ((uploadReady app name namespace).1 = None) as Hopen
    by (apply uploadReady_None; eauto).
  destruct (uploadReady_polls app name namespace) as [_ Hpolls].
  destruct (uploadReady app name namespace) as [err polls]. simpl in *. subst err.
  exists polls. split; [done|].
  unfold proxyUploadRequest. rewrite Hcreator.
  assert ((CreateClient c).1 = None) as Hnil.
  { revert Hfail. unfold CreateClient.
    destruct (certFetcher_CertBytes c); [|done].
    destruct (certFetcher_KeyBytes c); [|done].
    destruct (bundleFetcher_BundleBytes c); [|done].
    destruct (X509KeyPair c _ _); [|done]. by intros [? ?]. }
  destruct (CreateClient c) as [cl cerr]. simpl in Hnil. by subst cl.
Qed.

(** The certificate file is missing. *)
Lemma handleUploadRequest_creator_failure_witness :
  let app := proxy_app {[ AnnPodReady := "true" ]} (CreateClient failing_creator) in
  ∃ polls,
    (∀ e, e ∈ polls → ∃ i, e = CallGetPVC i "prod" "pvc-dst")
    ∧ handleUploadRequest app (request_with "Bearer upl0ad")
      = ((CallValidate "upl0ad" :: polls ++ [CallCreateClient])%list,
         Panicked "invalid memory address or nil pointer dereference").
Proof.
  intros app.
  apply (handleUploadRequest_creator_failure app (request_with "Bearer upl0ad")
           failing_creator "upl0ad" upload_payload 0).
  - reflexivity.
  - by eexists.
  - apply FindStringSubmatch_spec. reflexivity.
  - reflexivity.
  - by split_and!.
  - lia.
  - eexists. split_and!; [reflexivity|vm_compute; discriminate|by apply ParseBool_true].
  - intros j ?. lia.
Defined.

(** ** The two readings of readiness *)

(** X20: the proxy and the controller agree on readiness while the
    upload is running.  For a claim whose PodPhase is not Succeeded, the
    proxy's gate finds the claim ready exactly when the controller's check
    passes.  They part on a PodReady that cannot be read as a boolean: the
    proxy keeps waiting, the controller fails the pass; and on a claim
    whose PodPhase is Succeeded: the proxy rejects the request, whatever
    PodReady says. *)
Theorem uploadReadyCondition_agrees app name namespace k pvc :
  client app k namespace name = Ok pvc →
  (index (pvc_Annotations pvc) AnnPodPhase ≠ PodSucceeded →
     (uploadReadyCondition app name namespace k = Ok true
      ↔ waitTargetPodRunningOrSucceeded pvc = Ok true)
     ∧ (∀ v, pvc_Annotations pvc !! AnnPodReady = Some v → ¬ truthy v → ¬ falsy v →
          uploadReadyCondition app name namespace k = Ok false
          ∧ ∃ err, waitTargetPodRunningOrSucceeded pvc = Err err))
  ∧ (index (pvc_Annotations pvc) AnnPodPhase = PodSucceeded →
     ∃ err, uploadReadyCondition app name namespace k = Err err).
Proof.
  intros Hget. unfold uploadReadyCondition, waitTargetPodRunningOrSucceeded,
    podSucceededFromPVC, index. rewrite Hget. split.
  - intros Hphase. rewrite !(bool_decide_eq_false_2 _ Hphase). split.
    + destruct (pvc_Annotations pvc !! AnnPodReady) as [v|]; simpl; [|done].
      destruct (ParseBool v) as [[]|]; simpl; split; done.
    + intros v -> Hnt Hnf. simpl. destruct (ParseBool v) as [[]|] eqn:E.
      * by apply ParseBool_true in E.
      * by apply ParseBool_false in E.
      * split; [done|by eexists].
  - intros Hphase. rewrite (bool_decide_eq_true_2 _ Hphase). by eexists.
Qed.

(** A claim whose upload server reports ready. *)
Lemma uploadReadyCondition_agrees_witness :
  let app := proxy_app {[ AnnPodReady := "true" ]} (Some test_client, None) in
  uploadReadyCondition app "pvc-dst" "prod" 0 = Ok true
  ↔ waitTargetPodRunningOrSucceeded (pvc_with {[ AnnPodReady := "true" ]} []) = Ok true.
Proof.
  intros app.
  apply (uploadReadyCondition_agrees app "pvc-dst" "prod" 0
           (pvc_with {[ AnnPodReady := "true" ]} [])).
  - reflexivity.
  - vm_compute. discriminate.
Defined.

(** ** Whose source pod *)

Lemma append_inj_r (a b s : string) : (a ++ s)%string = (b ++ s)%string → a = b.
Proof.
  revert b. induction a as [|c a IH]; intros [|d b] H.
  - done.
  - apply (f_equal String.length) in H. rewrite !length_append in H. simpl in H. lia.
  - apply (f_equal String.length) in H. rewrite !length_append in H. simpl in H. lia.
  - injection H as -> H. f_equal. by apply IH.
Qed.

(** X21: a source pod belongs to one claim.  The selector with which
    findCloneSourcePod lists the pods of a claim selects the pod made for
    a claim exactly when the two claims have the same UID and the pod's
    namespace is the one listed (or all namespaces are).  So a claim's
    source pod is found by that claim, and never by a claim of another
    UID. *)
Theorem MakeCloneSourcePodSpec_owner image pullPolicy srcName srcNamespace key cert bundle
    (made_for listed_by : PersistentVolumeClaim) namespace :
  selects namespace CloneUniqueID (pvc_UID listed_by ++ "-source-pod")%string
    (MakeCloneSourcePodSpec image pullPolicy srcName srcNamespace key cert bundle made_for)
  = true
  ↔ (namespace = "" ∨ srcNamespace = namespace) ∧ pvc_UID made_for = pvc_UID listed_by.
Proof.
  unfold selects, MakeCloneSourcePodSpec, getCloneSourcePodName. simpl.
  rewrite lookup_singleton_eq. rewrite andb_true_iff, orb_true_iff, !bool_decide_eq_true.
  split; intros [Hns Huid]; (split; [done|]).
  - injection Huid as Huid. by apply append_inj_r in Huid.
  - by rewrite Huid.
Qed.



